(** * A relational engine over string-keyed rows, and TPC-H query 5

    Shallow embedding of [include/queryclauses.hpp], [include/sqlhelper.hpp],
    [include/utilities.hpp], [src/query5.cpp] and [src/main.cpp].

    - A [Row] is a [std::map<std::string, std::string>]: a finite map from
      field names to text values, iterated in ascending key order.
    - A [Table] is a [std::vector<Row>]: a list of rows.
    - Code that can throw returns an [outcome].
    - The C++ standard library is taken through two interfaces: [Double]
      (the type [double] with [std::stod] and [std::to_string]) and
      [StdSort] (the contract of [std::sort], which the sort of libstdc++
      in [Libstdcxx] meets).
    - A file is the text it holds, and the files that can be opened are a
      finite map from paths to texts. *)

From Stdlib Require Import ZArith NArith Ascii Sorted Permutation Lia.
From Stdlib Require String DecimalString DecimalPos.
From stdpp Require Import base option list sorting gmap strings fin_maps.

Abbreviation Row := (gmap string string).
Abbreviation Table := (list (gmap string string)).

(** * The C++ standard library, as far as the engine uses it *)

Module Cxx.

(** What escapes a call instead of a return value. *)
Inductive fault : Type :=
  | OutOfRange   (* std::out_of_range thrown by std::map::at *)
  | BadNumber    (* std::invalid_argument or std::out_of_range thrown by std::stod *)
  | Undefined.   (* integer division by zero, std::length_error, an inverted iterator range *)

Inductive outcome (A : Type) : Type :=
  | Ret (a : A)
  | Raise (e : fault).
Arguments Ret {A} a.
Arguments Raise {A} e.

#[global] Instance fault_eq_dec : EqDecision fault.
Proof. solve_decision. Defined.

#[global] Instance outcome_ret : MRet outcome := @Ret.
#[global] Instance outcome_bind : MBind outcome := λ A B f m,
  match m with
  | Ret a => f a
  | Raise e => Raise e
  end.

(** A loop whose body can throw: the first fault ends it. *)
Fixpoint foldM {A B} (f : B → A → outcome B) (b : B) (l : list A) : outcome B :=
  match l with
  | [] => Ret b
  | x :: l => b' ← f b x; foldM f b' l
  end.

Definition throws {A} (m : outcome A) : Prop := ∃ e, m = Raise e.

(** [std::map::at]. *)
Definition at_ {V} (m : gmap string V) (k : string) : outcome V :=
  match m !! k with
  | Some v => Ret v
  | None => Raise OutOfRange
  end.

(** [operator<] and friends on [std::string]: lexicographic on bytes. *)
Definition string_lt (a b : string) : bool := String.ltb a b.
Definition string_gt (a b : string) : bool := String.ltb b a.
Definition string_le (a b : string) : bool := negb (String.ltb b a).
Definition string_ge (a b : string) : bool := negb (String.ltb a b).

(** Iteration over a [std::map] visits the entries in ascending key order. *)
Definition key_le {V} (x y : string * V) : Prop := String.leb x.1 y.1.

Definition items {V} (m : gmap string V) : list (string * V) :=
  merge_sort key_le (map_to_list m).

(** The type [double] with the conversions the engine calls.  [stod]
    answers [None] where [std::stod] throws. *)
Class Double : Type := {
  double : Type;
  stod : string → option double;
  to_string : double → string;
  d0 : double;                       (* 0.0 *)
  d1 : double;                       (* 1.0 *)
  dadd : double → double → double;
  dsub : double → double → double;
  dmul : double → double → double;
  dlt : double → double → bool;
  dgt : double → double → bool
}.

Definition stod_ `{Double} (s : string) : outcome double :=
  match stod s with
  | Some x => Ret x
  | None => Raise BadNumber
  end.

(** A comparator [std::sort] accepts: a strict weak ordering. *)
Record strict_weak {A} (cmp : A → A → bool) : Prop := {
  sw_irrefl : ∀ a, cmp a a = false;
  sw_trans : ∀ a b c, cmp a b = true → cmp b c = true → cmp a c = true;
  sw_incomp : ∀ a b c, cmp a b = false → cmp b a = false →
                       cmp b c = false → cmp c b = false →
                       cmp a c = false ∧ cmp c a = false
}.

(** The contract of [std::sort]: the range is rearranged, and for a strict
    weak ordering no element is followed by a smaller one.  Nothing is said
    about the order of equivalent elements.  For a comparator that is not a
    strict weak ordering (on [double], one that meets a NaN) the standard
    promises nothing; the interface keeps the rearrangement, which is all a
    sort by moves and swaps does to the range. *)
Class StdSort : Type := {
  std_sort : ∀ {A}, (A → A → bool) → list A → list A;
  std_sort_perm : ∀ A (cmp : A → A → bool) l, std_sort cmp l ≡ₚ l;
  std_sort_sorted : ∀ A (cmp : A → A → bool),
    strict_weak cmp → ∀ l, StronglySorted (λ a b, cmp b a = false) (std_sort cmp l)
}.

(** Division of [double]s and the conversion of a [size_t] to [double]. *)
Class DoubleDiv `{Double} : Type := {
  ddiv : double → double → double;
  of_size_t : N → double
}.

(** [std::stoi]: [None] where it throws; what it returns is an [int]. *)
Class StdStoi : Type := {
  stoi : string → option Z;
  stoi_int : ∀ s n, stoi s = Some n → (- 2 ^ 31 ≤ n < 2 ^ 31)%Z
}.

(** [std::getline(stream, item, delim)] on the text still unread: the item
    is the text up to the first [delim], which is consumed with it, or up
    to the end; the call fails when there is nothing left to read. *)
Fixpoint until (delim : ascii) (s : string) : string * string :=
  match s with
  | EmptyString => ("", "")
  | String c s' =>
    if decide (c = delim) then ("", s')
    else let '(item, rest) := until delim s' in (String c item, rest)
  end.

Definition getline (delim : ascii) (s : string) : option (string * string) :=
  match s with
  | EmptyString => None
  | _ => Some (until delim s)
  end.

(** [while (std::getline(stream, item, delim)) items.push_back(item);]
    A delimiter ends the item before it, so the text after the last
    delimiter is an item only if it is not empty. *)
Fixpoint getlines (delim : ascii) (s : string) : list string :=
  match s with
  | EmptyString => []
  | String c s' =>
    if decide (c = delim) then "" :: getlines delim s'
    else match getlines delim s' with
         | [] => [String c ""]
         | item :: others => String c item :: others
         end
  end.

(** [str.find_first_not_of(set)] and [str.find_last_not_of(set)]; [None]
    is [npos]. *)
Fixpoint find_first_not_of (set : list ascii) (str : string) : option nat :=
  match str with
  | EmptyString => None
  | String c str' =>
    if decide (c ∈ set) then S <$> find_first_not_of set str' else Some 0
  end.

Fixpoint find_last_not_of (set : list ascii) (str : string) : option nat :=
  match str with
  | EmptyString => None
  | String c str' =>
    match find_last_not_of set str' with
    | Some i => Some (S i)
    | None => if decide (c ∈ set) then None else Some 0
    end
  end.

(** [str.substr(pos, len)] for [pos ≤ str.size()]. *)
Definition substr (pos len : nat) (str : string) : string :=
  String.substring pos len str.

(** [str.substr(0, 2) == "--"] *)
Definition starts_with_dashes (str : string) : bool :=
  bool_decide (substr 0 2 str = "--").

(** [!str.empty() && str.back() != c] *)
Fixpoint lacks_final (c : ascii) (str : string) : bool :=
  match str with
  | EmptyString => false
  | String c' EmptyString => negb (bool_decide (c' = c))
  | String _ str' => lacks_final c str'
  end.

End Cxx.
Import Cxx.

(** * Rows

    Both headers merge a matched pair of rows with the same loop:
    [Row merged_row = left_row; for (auto& [k, v] : right_row) merged_row[k] = v;] *)

Definition merged_row (left_row right_row : Row) : Row :=
  foldl (λ merged kv, <[kv.1 := kv.2]> merged) left_row (items right_row).

(** * [include/queryclauses.hpp] *)

Module QueryClauses.

(** [SELECT col1, col2, ... FROM table] *)
Definition SELECT (table : Table) (columns : list string) : Table :=
  foldl (λ result row,
    result ++ [foldl (λ new_row col,
                 match row !! col with
                 | Some text => <[col := text]> new_row
                 | None => new_row
                 end) (∅ : Row) columns]) [] table.

Definition SELECT_ALL (table : Table) : Table := table.

(** A [Predicate] is a [std::function<bool(const Row&)>]: whatever the
    caller passes, so applying it can throw. *)
Definition WHERE (table : Table) (predicate : Row → outcome bool) : outcome Table :=
  foldM (λ result row,
    keep ← predicate row;
    Ret (if keep : bool then result ++ [row] else result)) [] table.

(** The inner loops of [WHERE_AND] and [WHERE_OR]: the predicates are
    called in turn, up to the first that decides. *)
Fixpoint all_match (predicates : list (Row → outcome bool)) (row : Row) : outcome bool :=
  match predicates with
  | [] => Ret true
  | pred :: predicates =>
    holds ← pred row;
    if holds : bool then all_match predicates row else Ret false
  end.

Fixpoint any_match (predicates : list (Row → outcome bool)) (row : Row) : outcome bool :=
  match predicates with
  | [] => Ret false
  | pred :: predicates =>
    holds ← pred row;
    if holds : bool then Ret true else any_match predicates row
  end.

Definition WHERE_AND (table : Table) (predicates : list (Row → outcome bool))
    : outcome Table :=
  foldM (λ result row,
    all_match ← all_match predicates row;
    Ret (if all_match : bool then result ++ [row] else result)) [] table.

Definition WHERE_OR (table : Table) (predicates : list (Row → outcome bool))
    : outcome Table :=
  foldM (λ result row,
    any_match ← any_match predicates row;
    Ret (if any_match : bool then result ++ [row] else result)) [] table.

Definition JOIN_ON (left_column right_column : string) (left right : Row) : bool :=
  bool_decide (is_Some (left !! left_column)) &&
  bool_decide (is_Some (right !! right_column)) &&
  bool_decide (left !! left_column = right !! right_column).

Definition INNER_JOIN (left_table right_table : Table)
    (join_condition : Row → Row → bool) : Table :=
  foldl (λ result left_row,
    foldl (λ result right_row,
      if join_condition left_row right_row
      then result ++ [merged_row left_row right_row]
      else result) result right_table) [] left_table.

Definition LEFT_JOIN (left_table right_table : Table)
    (join_condition : Row → Row → bool) : Table :=
  foldl (λ result left_row,
    let scan :=
      foldl (λ '(result, found_match) right_row,
        if join_condition left_row right_row
        then (result ++ [merged_row left_row right_row], true)
        else (result, found_match)) (result, false) right_table in
    if scan.2 then scan.1 else scan.1 ++ [left_row]) [] left_table.

Definition CROSS_JOIN (left_table right_table : Table) : Table :=
  foldl (λ result left_row,
    foldl (λ result right_row, result ++ [merged_row left_row right_row])
      result right_table) [] left_table.

(** [groups[key].push_back(row)] creates the group on first use. *)
Definition GROUP_BY (table : Table) (group_column : string) : gmap string Table :=
  foldl (λ groups row,
    match row !! group_column with
    | Some key => <[key := default [] (groups !! key) ++ [row]]> groups
    | None => groups
    end) ∅ table.

(** The key [GROUP_BY_MULTI] and [DISTINCT_COLUMNS] build for a row: the
    values of the columns the row has, each followed by ['|']. *)
Definition composite_key (columns : list string) (row : Row) : string :=
  foldl (λ composite_key col,
    match row !! col with
    | Some text => composite_key +:+ (text +:+ "|")
    | None => composite_key
    end) "" columns.

Definition GROUP_BY_MULTI (table : Table) (group_columns : list string)
    : gmap string Table :=
  foldl (λ groups row,
    let composite_key := composite_key group_columns row in
    <[composite_key := default [] (groups !! composite_key) ++ [row]]> groups) ∅ table.

Section aggregates.
Context `{Double}.

Definition SUM (group : Table) (column : string) : outcome double :=
  foldM (λ sum row,
    match row !! column with
    | Some text => x ← stod_ text; Ret (dadd sum x)
    | None => Ret sum
    end) d0 group.

Definition MAX (group : Table) (column : string) : outcome double :=
  match group with
  | [] => Ret d0
  | row0 :: _ =>
    text0 ← at_ row0 column;
    max_val ← stod_ text0;
    foldM (λ max_val row,
      match row !! column with
      | Some text => val ← stod_ text; Ret (if dgt val max_val then val else max_val)
      | None => Ret max_val
      end) max_val group
  end.

Definition MIN (group : Table) (column : string) : outcome double :=
  match group with
  | [] => Ret d0
  | row0 :: _ =>
    text0 ← at_ row0 column;
    min_val ← stod_ text0;
    foldM (λ min_val row,
      match row !! column with
      | Some text => val ← stod_ text; Ret (if dlt val min_val then val else min_val)
      | None => Ret min_val
      end) min_val group
  end.
End aggregates.

(** [COUNT( * )] and [COUNT(column)]; the counts are [size_t]s no greater
    than the size of a vector. *)
Definition COUNT (group : Table) : N := N.of_nat (length group).

Definition COUNT_COLUMN (group : Table) (column : string) : N :=
  foldl (λ count row,
    match row !! column with
    | Some text => if decide (text = "") then count else (count + 1)%N
    | None => count
    end) 0%N group.

Section averages.
Context `{DoubleDiv}.

Definition AVG (group : Table) (column : string) : outcome double :=
  match group with
  | [] => Ret d0
  | _ => sum ← SUM group column; Ret (ddiv sum (of_size_t (N.of_nat (length group))))
  end.
End averages.

(** The aggregate functions are [std::function]s of the caller and can
    throw; they are kept in a [std::map] and applied in the order of their
    names. *)
Definition AGGREGATE `{Double} (groups : gmap string Table) (group_column_name : string)
    (agg_functions : gmap string (Table → outcome double)) : outcome Table :=
  foldM (λ result group,
    result_row ←
      foldM (λ (result_row : Row) agg,
        x ← agg.2 group.2;
        Ret (<[agg.1 := to_string x]> result_row))
        (<[group_column_name := group.1]> ∅) (items agg_functions);
    Ret (result ++ [result_row])) [] (items groups).

(** The sort key [a.at(column)]; the text [""] stands in only where [at]
    has already been ruled out to throw. *)
Definition text_at (column : string) (row : Row) : string :=
  default "" (row !! column).

Section order_by.
Context `{StdSort}.

(** The comparator calls [at] on both rows, and sorting two or more rows
    compares each of them at least once: a row without the column makes
    the call throw. *)
Definition ORDER_BY_ASC (table : Table) (column : string) : outcome Table :=
  if decide (2 ≤ length table ∧ Exists (λ row, row !! column = None) table)
  then Raise OutOfRange
  else Ret (std_sort (λ a b, string_lt (text_at column a) (text_at column b)) table).

Definition ORDER_BY_DESC (table : Table) (column : string) : outcome Table :=
  if decide (2 ≤ length table ∧ Exists (λ row, row !! column = None) table)
  then Raise OutOfRange
  else Ret (std_sort (λ a b, string_gt (text_at column a) (text_at column b)) table).
End order_by.

Section order_by_numeric.
Context `{Double} `{StdSort}.

(** The sort key [std::stod(a.at(column))]. *)
Definition number_at (column : string) (row : Row) : double :=
  default d0 (row !! column ≫= stod).

(** Sorting two or more rows compares each of them at least once, and the
    comparator throws on a row whose column is missing or not a number. *)
Definition ORDER_BY_NUMERIC_ASC (table : Table) (column : string) : outcome Table :=
  if decide (2 ≤ length table)
  then
    _ ← foldM (λ _ row, text ← at_ row column; _ ← stod_ text; Ret ()) () table;
    Ret (std_sort (λ a b, dlt (number_at column a) (number_at column b)) table)
  else Ret table.

Definition ORDER_BY_NUMERIC_DESC (table : Table) (column : string) : outcome Table :=
  if decide (2 ≤ length table)
  then
    _ ← foldM (λ _ row, text ← at_ row column; _ ← stod_ text; Ret ()) () table;
    Ret (std_sort (λ a b, dgt (number_at column a) (number_at column b)) table)
  else Ret table.
End order_by_numeric.

(** The comparator of [ORDER_BY_MULTI]: the first column on which the two
    rows differ decides, and [at] is called on both rows for each column
    up to that one. *)
Fixpoint order_specs_less (order_specs : list (string * bool)) (a b : Row)
    : outcome bool :=
  match order_specs with
  | [] => Ret false
  | (col, is_asc) :: order_specs =>
    x ← at_ a col;
    y ← at_ b col;
    if decide (x ≠ y) then Ret (if is_asc : bool then string_lt x y else string_gt x y)
    else order_specs_less order_specs a b
  end.

(** The same comparison on rows known to have the columns. *)
Fixpoint order_specs_before (order_specs : list (string * bool)) (a b : Row) : bool :=
  match order_specs with
  | [] => false
  | (col, is_asc) :: order_specs =>
    let x := text_at col a in
    let y := text_at col b in
    if decide (x ≠ y) then (if is_asc : bool then string_lt x y else string_gt x y)
    else order_specs_before order_specs a b
  end.

(** Which rows [std::sort] compares, and in which order, is the library's
    business: [compared] lists the calls it makes to the comparator.  The
    first call that throws ends the sort; if none throws, the comparator
    has answered as [order_specs_before] does. *)
Definition ORDER_BY_MULTI `{StdSort} (compared : list (Row * Row))
    (table : Table) (order_specs : list (string * bool)) : outcome Table :=
  _ ← foldM (λ _ pair, _ ← order_specs_less order_specs pair.1 pair.2; Ret ()) () compared;
  Ret (std_sort (order_specs_before order_specs) table).

(** The calls are on rows of the table, and a sort of two rows or more
    compares each of them at least once. *)
Definition sort_comparisons (table : Table) (compared : list (Row * Row)) : Prop :=
  Forall (λ pair, pair.1 ∈ table ∧ pair.2 ∈ table) compared ∧
  (2 ≤ length table → ∀ row, row ∈ table → row ∈ compared.*1 ∨ row ∈ compared.*2).

(** [size_t] arithmetic wraps at 2^64. *)
Definition size_t (n : N) : N := (n mod 2 ^ 64)%N.

(** [Table(table.begin() + offset, table.begin() + end)]; the range is
    inverted, and the construction undefined, when [offset + limit] wraps
    below [offset]. *)
Definition LIMIT_OFFSET (table : Table) (limit offset : N) : outcome Table :=
  if (N.of_nat (length table) <=? offset)%N then Ret []
  else
    let end_ := N.min (size_t (offset + limit)) (N.of_nat (length table)) in
    if (end_ <? offset)%N then Raise Undefined
    else Ret (take (N.to_nat end_ - N.to_nat offset) (drop (N.to_nat offset) table)).

(** [Table(table.begin(), table.begin() + n)] *)
Definition LIMIT (table : Table) (n : N) : Table :=
  if (N.of_nat (length table) <=? n)%N then table else take (N.to_nat n) table.

(** [Table(table.begin() + n, table.end())] *)
Definition OFFSET (table : Table) (n : N) : Table :=
  if (N.of_nat (length table) <=? n)%N then [] else drop (N.to_nat n) table.

(** The string [DISTINCT] files a row under. *)
Definition row_str (row : Row) : string :=
  foldl (λ row_str kv, row_str +:+ (((kv.1 +:+ ":") +:+ kv.2) +:+ "|")) "" (items row).

Definition DISTINCT (table : Table) : Table :=
  (foldl (λ '(result, seen) row,
     if decide (row_str row ∈ seen)
     then (result, seen)
     else (result ++ [row], {[row_str row]} ∪ seen))
     ([], (∅ : gset string)) table).1.

Definition DISTINCT_COLUMNS (table : Table) (columns : list string) : Table :=
  (foldl (λ '(result, seen) row,
     let key := composite_key columns row in
     if decide (key ∈ seen)
     then (result, seen)
     else (result ++ [row], {[key]} ∪ seen))
     ([], (∅ : gset string)) table).1.

Definition UNION (table1 table2 : Table) : Table := DISTINCT (table1 ++ table2).

Definition UNION_ALL (table1 table2 : Table) : Table := table1 ++ table2.

(** The predicate builders.  Each looks the column up with [find] before it
    calls [at]. *)
Definition EQUALS (column value : string) (row : Row) : outcome bool :=
  Ret (bool_decide (is_Some (row !! column)) && bool_decide (row !! column = Some value)).

Definition GREATER_THAN (column value : string) (row : Row) : outcome bool :=
  Ret (bool_decide (is_Some (row !! column)) && string_gt (default "" (row !! column)) value).

Definition GREATER_EQUAL (column value : string) (row : Row) : outcome bool :=
  Ret (bool_decide (is_Some (row !! column)) && string_ge (default "" (row !! column)) value).

Definition LESS_THAN (column value : string) (row : Row) : outcome bool :=
  Ret (bool_decide (is_Some (row !! column)) && string_lt (default "" (row !! column)) value).

Definition LESS_EQUAL (column value : string) (row : Row) : outcome bool :=
  Ret (bool_decide (is_Some (row !! column)) && string_le (default "" (row !! column)) value).

(** [std::find(values.begin(), values.end(), row.at(column)) != values.end()] *)
Definition IN (column : string) (values : list string) (row : Row) : outcome bool :=
  match row !! column with
  | None => Ret false
  | Some text => Ret (bool_decide (text ∈ values))
  end.

End QueryClauses.

(** * [include/sqlhelper.hpp] *)

Module SqlHelper.

(** A [Predicate] is a [std::function<bool(const Row&)>]; the ones the
    query passes call [at], so applying one can throw. *)
Definition WHERE (table : Table) (predicate : Row → outcome bool) : outcome Table :=
  foldM (λ result row,
    keep ← predicate row;
    Ret (if keep : bool then result ++ [row] else result)) [] table.

Definition EQUALS (column value : string) (row : Row) : outcome bool :=
  Ret (bool_decide (is_Some (row !! column)) && bool_decide (row !! column = Some value)).

Definition GREATER_EQUAL (column value : string) (row : Row) : outcome bool :=
  Ret (bool_decide (is_Some (row !! column)) && string_ge (default "" (row !! column)) value).

Definition LESS_THAN (column value : string) (row : Row) : outcome bool :=
  Ret (bool_decide (is_Some (row !! column)) && string_lt (default "" (row !! column)) value).

Definition JOIN_ON (left_column right_column : string) (left right : Row) : bool :=
  bool_decide (is_Some (left !! left_column)) &&
  bool_decide (is_Some (right !! right_column)) &&
  bool_decide (left !! left_column = right !! right_column).

(** ** The concurrent hash join *)

(** Build phase: for each value of [right_column], the indices of the right
    rows holding it, in the order the loop meets them. *)
Definition build_index (right_table : Table) (right_column : string)
    : gmap string (list nat) :=
  foldl (λ right_index i,
    match right_table !! i with
    | Some row =>
      match row !! right_column with
      | Some text => <[text := default [] (right_index !! text) ++ [i]]> right_index
      | None => right_index
      end
    | None => right_index
    end) ∅ (seq 0 (length right_table)).

(** Probe phase: the lambda [worker], returning its [local_result].  The
    loop runs over [start_idx ≤ i < end_idx] with [i < left_table.size()]. *)
Definition worker (left_table right_table : Table) (left_column : string)
    (right_index : gmap string (list nat)) (start_idx end_idx : nat) : Table :=
  foldl (λ local_result i,
    match left_table !! i with
    | Some left_row =>
      match left_row !! left_column with
      | None => local_result
      | Some key =>
        match right_index !! key with
        | Some indices =>
          foldl (λ local_result right_idx,
            match right_table !! right_idx with
            | Some right_row => local_result ++ [merged_row left_row right_row]
            | None => local_result
            end) local_result indices
        | None => local_result
        end
      end
    | None => local_result
    end) [] (seq start_idx (end_idx `min` length left_table - start_idx)).

(** The vector [thread_results] as the merge loop finds it.  The sizes are
    those of vectors in memory and [num_threads] is an [int], so the
    [size_t] sums and products below stay far from 2^64 and are taken in
    [nat].  Thread [thread_id] is launched with [start_idx = thread_id *
    chunk_size] and [end_idx = start_idx + chunk_size], and stores what
    [worker] makes of that range in its own slot of [thread_results];
    [finish_order] is the order in which the workers get to do so before
    [join] returns. *)
Definition thread_results (finish_order : list nat)
    (left_table right_table : Table) (left_column right_column : string)
    (num_threads : Z) : list Table :=
  let right_index := build_index right_table right_column in
  let n := Z.to_nat num_threads in
  let chunk_size := (length left_table + n - 1) `div` n in
  foldl (λ thread_results thread_id,
    let start_idx := thread_id * chunk_size in
    let end_idx := start_idx + chunk_size in
    <[thread_id := worker left_table right_table left_column right_index
                     start_idx end_idx]> thread_results)
    (replicate n []) finish_order.

(** The whole join.  A thread count of zero divides by zero and a negative
    one asks for a vector of more than [max_size] tables. *)
Definition INNER_JOIN_scheduled (finish_order : list nat)
    (left_table right_table : Table) (left_column right_column : string)
    (num_threads : Z) : outcome Table :=
  if decide (num_threads ≤ 0)%Z then Raise Undefined
  else
    let thread_results :=
      thread_results finish_order left_table right_table
        left_column right_column num_threads in
    Ret (foldl (λ result thread_result, result ++ thread_result) [] thread_results).

(** A run is fair when every launched worker finishes once. *)
Definition fair_order (num_threads : Z) (finish_order : list nat) : Prop :=
  finish_order ≡ₚ seq 0 (Z.to_nat num_threads).

Definition INNER_JOIN (left_table right_table : Table)
    (left_column right_column : string) (num_threads : Z) : outcome Table :=
  INNER_JOIN_scheduled (seq 0 (Z.to_nat num_threads))
    left_table right_table left_column right_column num_threads.

Definition GROUP_BY (table : Table) (group_column : string) : gmap string Table :=
  foldl (λ groups row,
    match row !! group_column with
    | Some key => <[key := default [] (groups !! key) ++ [row]]> groups
    | None => groups
    end) ∅ table.

Section numeric.
Context `{Double} `{StdSort}.

Definition SUM (group : Table) (column : string) : outcome double :=
  foldM (λ sum row,
    match row !! column with
    | Some text => x ← stod_ text; Ret (dadd sum x)
    | None => Ret sum
    end) d0 group.

(** The sort key [std::stod(a.at(column))]. *)
Definition number_at (column : string) (row : Row) : double :=
  default d0 (row !! column ≫= stod).

(** Sorting two or more rows compares each of them at least once, and the
    comparator throws on a row whose column is missing or not a number. *)
Definition ORDER_BY_DESC (table : Table) (column : string) : outcome Table :=
  if decide (2 ≤ length table)
  then
    _ ← foldM (λ _ row, text ← at_ row column; _ ← stod_ text; Ret ()) () table;
    Ret (std_sort (λ a b, dgt (number_at column a) (number_at column b)) table)
  else Ret table.
End numeric.

End SqlHelper.

(** * [include/utilities.hpp]

    The readers see a file as the text it holds; [disk] maps the paths that
    can be opened for reading to their texts. *)

Module Utilities.

Definition newline : ascii := "010".

Definition splitPipe (line : string) : list string := getlines "|" line.

(** One pass of the loop over the lines of a table file; a line with fewer
    fields than columns ends the reading, and the rows pushed so far stay
    in [out]. *)
Fixpoint read_lines (columns : list string) (lines : list string) (out : Table)
    : bool * Table :=
  match lines with
  | [] => (true, out)
  | line :: lines =>
    let fields := splitPipe line in
    if length fields <? length columns then (false, out)
    else
      let row :=
        foldl (λ (row : Row) i,
          match columns !! i, fields !! i with
          | Some column, Some field => <[column := field]> row
          | _, _ => row
          end) ∅ (seq 0 (length columns)) in
      read_lines columns lines (out ++ [row])
  end.

Definition readTable (disk : gmap string string) (file : string)
    (columns : list string) (out : Table) : bool * Table :=
  match disk !! file with
  | None => (false, out)
  | Some text => read_lines columns (getlines newline text) out
  end.

(** [" \t\r\n"] *)
Definition whitespace : list ascii := [" "; "009"; "013"; "010"]%char.

(** When [first] is found so is [last]; were it [npos], the length
    [last - first + 1] would wrap to [2^64 - first] and [substr] would
    return the text from [first] on. *)
Definition trim (str : string) : string :=
  match find_first_not_of whitespace str with
  | None => ""
  | Some first =>
    match find_last_not_of whitespace str with
    | Some last => substr first (last - first + 1) str
    | None => substr first (String.length str - first) str
    end
  end.

Definition split (s : string) (delimiter : ascii) : list string :=
  trim <$> getlines delimiter s.

End Utilities.

(** * [src/query5.cpp] *)

Module Query5.
Import SqlHelper.

Section query.
Context `{Double} `{StdSort}.

(** [o_orderdate >= start_date AND o_orderdate < end_date] *)
Definition in_date_range (start_date end_date : string) (row : Row) : outcome bool :=
  date ← at_ row "O_ORDERDATE";
  Ret (string_ge date start_date && string_lt date end_date).

Definition same_nation (row : Row) : outcome bool :=
  c ← at_ row "C_NATIONKEY";
  s ← at_ row "S_NATIONKEY";
  Ret (bool_decide (c = s)).

(** One pass of the revenue loop: [l_extendedprice * (1 - l_discount)]. *)
Definition revenue_row (row : Row) : outcome Row :=
  n_name ← at_ row "N_NAME";
  price ← at_ row "L_EXTENDEDPRICE" ≫= stod_;
  discount ← at_ row "L_DISCOUNT" ≫= stod_;
  let revenue := dmul price (dsub d1 discount) in
  Ret (<["REVENUE" := to_string revenue]> (<["N_NAME" := n_name]> ∅)).

Definition sum_row (group : string * Table) : outcome Row :=
  total ← SUM group.2 "REVENUE";
  Ret (<["REVENUE" := to_string total]> (<["N_NAME" := group.1]> ∅)).

(** [results[row.at("N_NAME")] = std::stod(row.at("REVENUE"))]: the right
    side of the assignment is evaluated first. *)
Definition store_result (results : gmap string double) (row : Row)
    : outcome (gmap string double) :=
  value ← at_ row "REVENUE" ≫= stod_;
  name ← at_ row "N_NAME";
  Ret (<[name := value]> results).

(** The function returns its [bool], and [results] is the map it was
    handed, with the entries it stored. *)
Definition executeQuery5 (r_name start_date end_date : string) (num_threads : Z)
    (customer_data orders_data lineitem_data supplier_data nation_data
       region_data : Table)
    (results : gmap string double) : outcome (bool * gmap string double) :=
  filtered_region ← WHERE region_data (EQUALS "R_NAME" r_name);
  if decide (filtered_region = []) then Ret (false, results)
  else
    nation_region ←
      INNER_JOIN nation_data filtered_region "N_REGIONKEY" "R_REGIONKEY" num_threads;
    customer_nation ←
      INNER_JOIN customer_data nation_region "C_NATIONKEY" "N_NATIONKEY" num_threads;
    filtered_orders ← WHERE orders_data (in_date_range start_date end_date);
    customer_orders ←
      INNER_JOIN customer_nation filtered_orders "C_CUSTKEY" "O_CUSTKEY" num_threads;
    supplier_nation ←
      INNER_JOIN supplier_data nation_region "S_NATIONKEY" "N_NATIONKEY" num_threads;
    lineitem_orders ←
      INNER_JOIN lineitem_data customer_orders "L_ORDERKEY" "O_ORDERKEY" num_threads;
    temp_join ←
      INNER_JOIN lineitem_orders supplier_nation "L_SUPPKEY" "S_SUPPKEY" num_threads;
    full_join ← WHERE temp_join same_nation;
    with_revenue ←
      foldM (λ with_revenue row,
        new_row ← revenue_row row; Ret (with_revenue ++ [new_row])) [] full_join;
    let grouped := GROUP_BY with_revenue "N_NAME" in
    aggregated ←
      foldM (λ aggregated group,
        result_row ← sum_row group; Ret (aggregated ++ [result_row])) [] (items grouped);
    sorted ← ORDER_BY_DESC aggregated "REVENUE";
    results ← foldM store_result results sorted;
    Ret (true, results).
End query.

(** The output parameters of [parseArgs]. *)
Record Args : Type := {
  r_name : string;
  start_date : string;
  end_date : string;
  num_threads : Z;
  table_path : string;
  result_path : string
}.

(** The loop over [argv[1]], [argv[2]], ...: pairs of [--key] and value,
    collected in [options]. *)
Fixpoint read_options (argv : list string) (options : gmap string string)
    : option (gmap string string) :=
  match argv with
  | [] => Some options
  | key :: argv =>
    if (String.length key <? 3) || negb (starts_with_dashes key) then None
    else
      let key := substr 2 (String.length key - 2) key in
      if decide (key = "") then None
      else
        match argv with
        | [] => None
        | value :: argv =>
          if (2 <=? String.length value) && starts_with_dashes value then None
          else if decide (is_Some (options !! key)) then None
          else read_options argv (<[key := value]> options)
        end
  end.

Definition required : list string :=
  ["r_name"; "start_date"; "end_date"; "threads"; "table_path"; "result_path"].

(** [argv] is the command line after the program's name.  The strings are
    assigned before [threads] is read, and [num_threads] before it is
    tested. *)
Definition parseArgs `{StdStoi} (argv : list string) (args : Args) : bool * Args :=
  match read_options argv ∅ with
  | None => (false, args)
  | Some options =>
    if decide (Exists (λ key, options !! key = None) required) then (false, args)
    else
      let value_of key := default "" (options !! key) in
      let args := {|
        r_name := value_of "r_name";
        start_date := value_of "start_date";
        end_date := value_of "end_date";
        num_threads := num_threads args;
        table_path := value_of "table_path";
        result_path := value_of "result_path" |} in
      match stoi (value_of "threads") with
      | None => (false, args)
      | Some threads =>
        let args := {|
          r_name := r_name args;
          start_date := start_date args;
          end_date := end_date args;
          num_threads := threads;
          table_path := table_path args;
          result_path := result_path args |} in
        if decide (threads ≤ 0)%Z then (false, args) else (true, args)
      end
  end.

Definition customer_cols : list string :=
  ["C_CUSTKEY"; "C_NAME"; "C_ADDRESS"; "C_NATIONKEY";
   "C_PHONE"; "C_ACCTBAL"; "C_MKTSEGMENT"; "C_COMMENT"].
Definition orders_cols : list string :=
  ["O_ORDERKEY"; "O_CUSTKEY"; "O_ORDERSTATUS"; "O_TOTALPRICE";
   "O_ORDERDATE"; "O_ORDERPRIORITY"; "O_CLERK"; "O_SHIPPRIORITY"; "O_COMMENT"].
Definition lineitem_cols : list string :=
  ["L_ORDERKEY"; "L_PARTKEY"; "L_SUPPKEY"; "L_LINENUMBER";
   "L_QUANTITY"; "L_EXTENDEDPRICE"; "L_DISCOUNT"; "L_TAX";
   "L_RETURNFLAG"; "L_LINESTATUS"; "L_SHIPDATE";
   "L_COMMITDATE"; "L_RECEIPTDATE"; "L_SHIPINSTRUCT"; "L_SHIPMODE"; "L_COMMENT"].
Definition supplier_cols : list string :=
  ["S_SUPPKEY"; "S_NAME"; "S_ADDRESS"; "S_NATIONKEY";
   "S_PHONE"; "S_ACCTBAL"; "S_COMMENT"].
Definition nation_cols : list string :=
  ["N_NATIONKEY"; "N_NAME"; "N_REGIONKEY"; "N_COMMENT"].
Definition region_cols : list string := ["R_REGIONKEY"; "R_NAME"; "R_COMMENT"].

(** The six tables [readTPCHData] fills. *)
Record Database : Type := {
  customer_data : Table;
  orders_data : Table;
  lineitem_data : Table;
  supplier_data : Table;
  nation_data : Table;
  region_data : Table
}.

(** The files are read in turn; the first that fails ends the reading, with
    the tables read before it filled. *)
Definition readTPCHData (disk : gmap string string) (table_path : string)
    (db : Database) : bool * Database :=
  let path_prefix :=
    if lacks_final "/" table_path then table_path +:+ "/" else table_path in
  let read file columns out := Utilities.readTable disk (path_prefix +:+ file) columns out in
  let '(ok, customer) := read "customer.tbl" customer_cols (customer_data db) in
  let db := {| customer_data := customer; orders_data := orders_data db;
               lineitem_data := lineitem_data db; supplier_data := supplier_data db;
               nation_data := nation_data db; region_data := region_data db |} in
  if negb ok then (false, db) else
  let '(ok, orders) := read "orders.tbl" orders_cols (orders_data db) in
  let db := {| customer_data := customer_data db; orders_data := orders;
               lineitem_data := lineitem_data db; supplier_data := supplier_data db;
               nation_data := nation_data db; region_data := region_data db |} in
  if negb ok then (false, db) else
  let '(ok, lineitem) := read "lineitem.tbl" lineitem_cols (lineitem_data db) in
  let db := {| customer_data := customer_data db; orders_data := orders_data db;
               lineitem_data := lineitem; supplier_data := supplier_data db;
               nation_data := nation_data db; region_data := region_data db |} in
  if negb ok then (false, db) else
  let '(ok, supplier) := read "supplier.tbl" supplier_cols (supplier_data db) in
  let db := {| customer_data := customer_data db; orders_data := orders_data db;
               lineitem_data := lineitem_data db; supplier_data := supplier;
               nation_data := nation_data db; region_data := region_data db |} in
  if negb ok then (false, db) else
  let '(ok, nation) := read "nation.tbl" nation_cols (nation_data db) in
  let db := {| customer_data := customer_data db; orders_data := orders_data db;
               lineitem_data := lineitem_data db; supplier_data := supplier_data db;
               nation_data := nation; region_data := region_data db |} in
  if negb ok then (false, db) else
  let '(ok, region) := read "region.tbl" region_cols (region_data db) in
  let db := {| customer_data := customer_data db; orders_data := orders_data db;
               lineitem_data := lineitem_data db; supplier_data := supplier_data db;
               nation_data := nation_data db; region_data := region |} in
  (ok, db).

Section output.
Context `{Double} `{StdSort}.

(** [outfile << pair.first << "|" << std::fixed << pair.second << std::endl]
    A stream in [std::fixed] notation with its initial precision of 6 prints
    a [double] as ["%f"] does, which is the text of [std::to_string]. *)
Definition result_line (pair : string * double) : string :=
  pair.1 +:+ ("|" +:+ (to_string pair.2 +:+ String Utilities.newline "")).

(** [writable] tells which paths can be opened for writing; opening
    truncates the file. *)
Definition outputResults (disk : gmap string string) (writable : string → bool)
    (result_path : string) (results : gmap string double)
    : bool * gmap string string :=
  if writable result_path then
    let sorted_results := std_sort (λ a b, dgt a.2 b.2) (items results) in
    let text :=
      foldl (λ text pair, text +:+ result_line pair)
        ("N_NAME|REVENUE" +:+ String Utilities.newline "") sorted_results in
    (true, <[result_path := text]> disk)
  else (false, disk).
End output.

End Query5.

(** * [src/main.cpp]

    The exit code and the files as [main] leaves them; what [main] prints
    and the time it measures are left out.  An exception that leaves
    [executeQuery5] leaves [main]. *)

Module Main.
Import Query5.

(** The variables of [main] before the calls: empty strings and tables;
    [num_threads] starts uninitialised and is not read before [parseArgs]
    has assigned it. *)
Definition no_args : Args :=
  {| r_name := ""; start_date := ""; end_date := ""; num_threads := 0;
     table_path := ""; result_path := "" |}.

Definition no_tables : Database :=
  {| customer_data := []; orders_data := []; lineitem_data := [];
     supplier_data := []; nation_data := []; region_data := [] |}.


End Main.

(** * Vocabulary of the properties of the other functions *)

(** The row [SELECT] builds from a row. *)
Definition selected (columns : list string) (row : Row) : Row :=
  foldl (λ (new_row : Row) col,
    match row !! col with
    | Some text => <[col := text]> new_row
    | None => new_row
    end) ∅ columns.

(** A predicate that answers without throwing. *)
Definition answers (p : Row → bool) : Row → outcome bool := λ row, Ret (p row).

(** What [any_match] answers where it returns. *)
Definition any_holds (predicates : list (Row → outcome bool)) (row : Row) : bool :=
  match QueryClauses.any_match predicates row with
  | Ret holds => holds
  | Raise _ => false
  end.

(** The loop of [DISTINCT] and [DISTINCT_COLUMNS]: a row is kept unless an
    earlier row has the same key. *)
Definition keep_first (key : Row → string) (table : Table) : Table :=
  (foldl (λ '(result, seen) row,
     if decide (key row ∈ seen)
     then (result, seen)
     else (result ++ [row], {[key row]} ∪ seen))
     ([], (∅ : gset string)) table).1.

(** The row has text in the column, and the text is not empty. *)
Definition filled (column : string) (row : Row) : Prop :=
  ∃ text, row !! column = Some text ∧ text ≠ "".

(** The row has the column, with text that [std::stod] reads. *)
Definition readable `{Double} (column : string) (row : Row) : Prop :=
  ∃ text, row !! column = Some text ∧ is_Some (stod text).

(** The fields written one after the other, each followed by [delim]. *)
Definition terminated (delim : ascii) (fields : list string) : string :=
  foldr (λ field rest, field +:+ String delim rest) "" fields.

(** The row [readTable] builds from the fields of a line. *)
Definition line_row (columns fields : list string) : Row :=
  foldl (λ (row : Row) i,
    match columns !! i, fields !! i with
    | Some column, Some field => <[column := field]> row
    | _, _ => row
    end) ∅ (seq 0 (length columns)).

(** A line with a field for each column. *)
Definition long_enough (columns : list string) (line : string) : Prop :=
  length columns ≤ length (Utilities.splitPipe line).

(** A command line that gives each option as [--key] followed by its
    value. *)
Definition command_line (options : list (string * string)) : list string :=
  options ≫= λ option, ["--" +:+ option.1; option.2].

(** A text of white space only. *)
Fixpoint blank (s : string) : Prop :=
  match s with
  | EmptyString => True
  | String c s' => c ∈ Utilities.whitespace ∧ blank s'
  end.

(** A text that neither begins nor ends with white space. *)
Definition trimmed (s : string) : Prop :=
  ∀ c s', (s = String c s' ∨ s = s' +:+ String c "") → c ∉ Utilities.whitespace.

(** * Instances of the library interfaces, for running the model *)

Module Instances.

(** Whole numbers in decimal, as a stand-in for [double].  As [std::stod]
    reads the longest prefix of the text that is a number and leaves the
    rest alone, [stod] here reads the longest prefix that is a whole number:
    ["12abc"] is 12, and ["abc"], [""] and ["-"] are rejected. *)
Definition is_digit (c : ascii) : bool :=
  (48 <=? nat_of_ascii c) && (nat_of_ascii c <=? 57).

Fixpoint digits (s : string) : string :=
  match s with
  | String c s' => if is_digit c then String c (digits s') else ""
  | EmptyString => ""
  end.

Definition number_prefix (s : string) : string :=
  match s with
  | String c s' => if Ascii.eqb c "-" then String c (digits s') else digits s
  | EmptyString => ""
  end.

#[local] Instance whole_double : Double := {|
  double := Z;
  stod s := Z.of_int <$> DecimalString.NilZero.int_of_string (number_prefix s);
  to_string x := DecimalString.NilZero.string_of_int (Z.to_int x);
  d0 := 0%Z;
  d1 := 1%Z;
  dadd := Z.add;
  dsub := Z.sub;
  dmul := Z.mul;
  dlt := Z.ltb;
  dgt := Z.gtb
|}.

(** [std::stoi] on whole numbers: the longest prefix that is a whole number,
    if it is an [int]. *)
Definition whole_stoi (s : string) : option Z :=
  n ← Z.of_int <$> DecimalString.NilZero.int_of_string (number_prefix s);
  if decide (- 2 ^ 31 ≤ n < 2 ^ 31)%Z then Some n else None.

Section insertion.
Context {A : Type} (cmp : A → A → bool).

(** [insert_before] puts [x] in front of the first element not smaller
    than [x]. *)
Fixpoint insert_before (x : A) (l : list A) : list A :=
  match l with
  | [] => [x]
  | y :: l' => if cmp y x then y :: insert_before x l' else x :: l
  end.

Definition sort_before (l : list A) : list A := foldr insert_before [] l.
End insertion.

End Instances.

(** * [std::sort] as libstdc++ implements it

    The introsort of [bits/stl_algo.h], which is what [std::sort] runs when
    the engine is built with GCC: quicksort with a median-of-three pivot
    down to ranges of at most 16 elements, then one insertion sort over the
    whole range.  The range is a list of numbers and the iterators are
    positions in it.  The heap sort that takes over once the depth limit is
    used up is left out: [sort] has no result there. *)

Module Libstdcxx.

Section introsort.
Context (comp : nat → nat → bool).

Definition at_position (arr : list nat) (p : nat) : nat := default 0 (arr !! p).

(** [std::iter_swap(p, q)] *)
Definition iter_swap (p q : nat) (arr : list nat) : list nat :=
  <[p := at_position arr q]> (<[q := at_position arr p]> arr).

(** [__move_median_to_first]: the median of the elements at [a], [b] and
    [c] goes to [result]. *)
Definition move_median_to_first (result a b c : nat) (arr : list nat) : list nat :=
  if comp (at_position arr a) (at_position arr b) then
    if comp (at_position arr b) (at_position arr c) then iter_swap result b arr
    else if comp (at_position arr a) (at_position arr c) then iter_swap result c arr
    else iter_swap result a arr
  else if comp (at_position arr a) (at_position arr c) then iter_swap result a arr
  else if comp (at_position arr b) (at_position arr c) then iter_swap result c arr
  else iter_swap result b arr.

(** [while (comp(first, pivot)) ++first;] *)
Fixpoint forward (fuel : nat) (arr : list nat) (pivot first : nat) : nat :=
  match fuel with
  | 0 => first
  | S fuel =>
    if comp (at_position arr first) (at_position arr pivot)
    then forward fuel arr pivot (S first) else first
  end.

(** [while (comp(pivot, last)) --last;] *)
Fixpoint backward (fuel : nat) (arr : list nat) (pivot last : nat) : nat :=
  match fuel with
  | 0 => last
  | S fuel =>
    if comp (at_position arr pivot) (at_position arr last)
    then backward fuel arr pivot (last - 1) else last
  end.

(** [__unguarded_partition]: [while (true) { while (comp(first, pivot))
    ++first; --last; while (comp(pivot, last)) --last; if (!(first < last))
    return first; iter_swap(first, last); ++first; }] *)
Fixpoint unguarded_partition (fuel first last pivot : nat) (arr : list nat)
    : nat * list nat :=
  match fuel with
  | 0 => (first, arr)
  | S fuel =>
    let first := forward (length arr) arr pivot first in
    let last := backward (length arr) arr pivot (last - 1) in
    if first <? last
    then unguarded_partition fuel (S first) last pivot (iter_swap first last arr)
    else (first, arr)
  end.

(** [__unguarded_partition_pivot] *)
Definition unguarded_partition_pivot (first last : nat) (arr : list nat)
    : nat * list nat :=
  let mid := first + (last - first) / 2 in
  let arr := move_median_to_first first (first + 1) mid (last - 1) arr in
  unguarded_partition (length arr) (first + 1) last first arr.

(** [__introsort_loop]: [while (last - first > 16) { if (depth_limit == 0)
    { partial_sort(first, last, last); return; } --depth_limit; cut =
    __unguarded_partition_pivot(first, last); __introsort_loop(cut, last,
    depth_limit); last = cut; }] *)
Fixpoint introsort_loop (fuel first last depth_limit : nat) (arr : list nat)
    : option (list nat) :=
  match fuel with
  | 0 => None
  | S fuel =>
    if 16 <? last - first then
      match depth_limit with
      | 0 => None
      | S depth_limit =>
        let '(cut, arr) := unguarded_partition_pivot first last arr in
        arr ← introsort_loop fuel cut last depth_limit arr;
        introsort_loop fuel first cut depth_limit arr
      end
    else Some arr
  end.

(** [__unguarded_linear_insert]: [val = *last; next = last - 1;
    while (comp(val, next)) { *last = *next; last = next; --next; }
    *last = val;] *)
Fixpoint unguarded_linear_insert (fuel : nat) (val last : nat) (arr : list nat)
    : list nat :=
  match fuel with
  | 0 => <[last := val]> arr
  | S fuel =>
    if comp val (at_position arr (last - 1))
    then unguarded_linear_insert fuel val (last - 1)
           (<[last := at_position arr (last - 1)]> arr)
    else <[last := val]> arr
  end.

(** [val = *i; move_backward(first, i, i + 1); *first = val;] *)
Definition move_to_front (first i : nat) (arr : list nat) : list nat :=
  take first arr ++ at_position arr i :: take (i - first) (drop first arr)
    ++ drop (S i) arr.

(** [__insertion_sort]: [for (i = first + 1; i != last; ++i)
    if (comp(i, first)) { ... } else __unguarded_linear_insert(i);] *)
Definition insertion_sort (first last : nat) (arr : list nat) : list nat :=
  foldl (λ arr i,
    if comp (at_position arr i) (at_position arr first)
    then move_to_front first i arr
    else unguarded_linear_insert (length arr) (at_position arr i) i arr)
    arr (seq (S first) (last - S first)).

(** [__unguarded_insertion_sort] *)
Definition unguarded_insertion_sort (first last : nat) (arr : list nat) : list nat :=
  foldl (λ arr i, unguarded_linear_insert (length arr) (at_position arr i) i arr)
    arr (seq first (last - first)).

(** [__final_insertion_sort] *)
Definition final_insertion_sort (first last : nat) (arr : list nat) : list nat :=
  if 16 <? last - first
  then unguarded_insertion_sort (first + 16) last (insertion_sort first (first + 16) arr)
  else insertion_sort first last arr.

(** [std::sort(first, last, comp)]: [if (first != last) {
    __introsort_loop(first, last, __lg(last - first) * 2);
    __final_insertion_sort(first, last); }] *)
Definition sort (arr : list nat) : option (list nat) :=
  match arr with
  | [] => Some arr
  | _ =>
    let last := length arr in
    arr ← introsort_loop (S last) 0 last (2 * Nat.log2 last) arr;
    Some (final_insertion_sort 0 last arr)
  end.
End introsort.


(** Sorting a list: the positions [0 .. n-1] of its elements are sorted, an
    element standing for each position in the comparisons. *)
Definition positions {A} (cmp : A → A → bool) (l : list A) : option (list nat) :=
  let comp i j :=
    match l !! i, l !! j with
    | Some a, Some b => cmp a b
    | _, _ => false
    end in
  sort comp (seq 0 (length l)).

(** The elements at the given positions. *)
Definition picked {A} (l : list A) (order : list nat) : list A :=
  omap (l !!.) order.

(** The sorted list.  Where [positions] has no result, and for a comparator
    with which its result is not the list rearranged in order (the standard
    promises nothing for a comparator that is not a strict weak ordering),
    the list is sorted by insertion instead. *)
Definition sort_list {A} (cmp : A → A → bool) (l : list A) : list A :=
  match positions cmp l with
  | Some order =>
    if decide (order ≡ₚ seq 0 (length l)
               ∧ StronglySorted (λ a b, cmp b a = false) (picked l order))
    then picked l order
    else Instances.sort_before cmp l
  | None => Instances.sort_before cmp l
  end.

End Libstdcxx.

(** * Sample data *)

Module Samples.

Definition row (fields : list (string * string)) : Row := list_to_map fields.

Definition left3 : Table :=
  [row [("k", "1"); ("a", "x")]; row [("k", "2"); ("a", "y")]; row [("a", "z")]].
Definition right3 : Table :=
  [row [("j", "2"); ("a", "p")]; row [("j", "1")]; row [("j", "2"); ("b", "q")]].

(** Two rows with the same value in column [k]. *)
Definition tied2 : Table :=
  [row [("k", "x"); ("id", "1")]; row [("k", "x"); ("id", "2")]].

(** Seventeen rows with the same value in column [k]. *)
Definition tied17 : Table :=
  (λ id, row [("k", "x"); ("id", id)]) <$>
    ["00"; "01"; "02"; "03"; "04"; "05"; "06"; "07"; "08"; "09"; "10"; "11"; "12";
     "13"; "14"; "15"; "16"].

(** Two different rows with one and the same [row_str]. *)
Definition one_field : Row := row [("a", "b|c:d")].
Definition two_fields : Row := row [("a", "b"); ("c", "d")].

Definition readings : Table :=
  [row [("v", "3")]; row [("w", "9")]; row [("v", "7")]].

(** Five left rows, each with one match in [right1]. *)
Definition left5 : Table :=
  [row [("k", "1"); ("n", "0")]; row [("k", "1"); ("n", "1")];
   row [("k", "1"); ("n", "2")]; row [("k", "1"); ("n", "3")];
   row [("k", "1"); ("n", "4")]].
Definition right1 : Table := [row [("j", "1")]].

(** A group whose first row holds text that is not a number. *)
Definition unreadable : Table := [row [("v", "abc")]; row [("v", "7")]].

(** A group whose only value is a number followed by letters. *)
Definition trailing : Table := [row [("v", "12abc")]].

End Samples.

(** A small database for query 5: one order in 1994, one line item of price
    100 without discount, customer and supplier both in Japan. *)
Module Scenario.
Import Samples.

Definition region : Table := [row [("R_REGIONKEY", "1"); ("R_NAME", "ASIA")]].
Definition nation : Table :=
  [row [("N_NATIONKEY", "10"); ("N_NAME", "JAPAN"); ("N_REGIONKEY", "1")];
   row [("N_NATIONKEY", "11"); ("N_NAME", "INDIA"); ("N_REGIONKEY", "1")]].
Definition customer : Table := [row [("C_CUSTKEY", "100"); ("C_NATIONKEY", "10")]].
Definition orders : Table :=
  [row [("O_ORDERKEY", "1000"); ("O_CUSTKEY", "100"); ("O_ORDERDATE", "1994-06-01")]].
Definition lineitem : Table :=
  [row [("L_ORDERKEY", "1000"); ("L_SUPPKEY", "500");
        ("L_EXTENDEDPRICE", "100"); ("L_DISCOUNT", "0")]].
Definition supplier : Table := [row [("S_SUPPKEY", "500"); ("S_NATIONKEY", "10")]].

Definition run `{Double} `{StdSort} (r_name start_date end_date : string) :=
  Query5.executeQuery5 r_name start_date end_date 2
    customer orders lineitem supplier nation region ∅.

End Scenario.

(** The scenario as table files under [tbl/], with a command line, and
    what [parseArgs] and [readTPCHData] make of them. *)
Module ScenarioFiles.
Import Query5.

Definition customer_lines : list (list string) :=
  [["100"; "Customer#100"; "Tokyo"; "10"; "11-111"; "0"; "BUILDING"; "none"]].
Definition orders_lines : list (list string) :=
  [["1000"; "100"; "O"; "100"; "1994-06-01"; "1-URGENT"; "Clerk#1"; "0"; "none"]].
Definition lineitem_lines : list (list string) :=
  [["1000"; "1"; "500"; "1"; "1"; "100"; "0"; "0"; "N"; "O";
    "1994-06-02"; "1994-06-03"; "1994-06-04"; "NONE"; "MAIL"; "none"]].
Definition supplier_lines : list (list string) :=
  [["500"; "Supplier#500"; "Osaka"; "10"; "22-222"; "0"; "none"]].
Definition nation_lines : list (list string) :=
  [["10"; "JAPAN"; "1"; "none"]; ["11"; "INDIA"; "1"; "none"]].
Definition region_lines : list (list string) := [["1"; "ASIA"; "none"]].

Definition file (lines : list (list string)) : string :=
  terminated Utilities.newline (terminated "|" <$> lines).

Definition disk : gmap string string :=
  list_to_map [
    ("tbl/customer.tbl", file customer_lines);
    ("tbl/orders.tbl", file orders_lines);
    ("tbl/lineitem.tbl", file lineitem_lines);
    ("tbl/supplier.tbl", file supplier_lines);
    ("tbl/nation.tbl", file nation_lines);
    ("tbl/region.tbl", file region_lines)].

Definition argv : list string :=
  ["--r_name"; "ASIA"; "--start_date"; "1994-01-01"; "--end_date"; "1995-01-01";
   "--threads"; "2"; "--table_path"; "tbl"; "--result_path"; "out.txt"].

Definition args : Args :=
  {| r_name := "ASIA"; start_date := "1994-01-01"; end_date := "1995-01-01";
     num_threads := 2; table_path := "tbl"; result_path := "out.txt" |}.

Definition rows (columns : list string) (lines : list (list string)) : Table :=
  (λ fields, Samples.row (zip columns fields)) <$> lines.

Definition db : Database :=
  {| customer_data := rows customer_cols customer_lines;
     orders_data := rows orders_cols orders_lines;
     lineitem_data := rows lineitem_cols lineitem_lines;
     supplier_data := rows supplier_cols supplier_lines;
     nation_data := rows nation_cols nation_lines;
     region_data := rows region_cols region_lines |}.

End ScenarioFiles.

(** * Vocabulary of the claims *)

(** A list, unless it is empty. *)
Definition nonempty {A} (l : list A) : option (list A) :=
  match l with [] => None | _ => Some l end.

(** One pass of a grouping loop: [if key(x) is present: groups[key(x)].push_back(val(x))]. *)
Definition group_step {A B} (key : A → option string) (val : A → B)
    (groups : gmap string (list B)) (x : A) : gmap string (list B) :=
  match key x with
  | Some k => <[k := default [] (groups !! k) ++ [val x]]> groups
  | None => groups
  end.

(** What one left row contributes to a hash join: a merged row per right
    row holding its key, in right-table order. *)
Definition probe (right_table : Table) (left_column right_column : string)
    (left_row : Row) : Table :=
  match left_row !! left_column with
  | Some key => merged_row left_row <$> filter (λ r, r !! right_column = Some key) right_table
  | None => []
  end.

(** The rows [chunk_size * i ≤ index < chunk_size * (i + 1)] of a table. *)
Definition chunk (left_table : Table) (chunk_size i : nat) : Table :=
  take chunk_size (drop (i * chunk_size) left_table).

(** The right rows holding a key, with their indices. *)
Definition holders (right_table : Table) (right_column key : string)
    : list (nat * Row) :=
  filter (λ p, p.2 !! right_column = Some key)
    (zip (seq 0 (length right_table)) right_table).

(** In a merged row the right-side row's fields win. *)
Definition right_wins (left_row right_row merged : Row) : Prop :=
  dom merged = dom left_row ∪ dom right_row ∧
  (∀ k v, right_row !! k = Some v → merged !! k = Some v) ∧
  (∀ k, right_row !! k = None → merged !! k = left_row !! k).

(** Rows with equal values in the sort column keep their relative order. *)
Definition ties_in_order (column : string) (table out : Table) : Prop :=
  ∀ text, filter (λ row, row !! column = Some text) out
        = filter (λ row, row !! column = Some text) table.

(** The character [c] occurs in the text [s]. *)
Fixpoint occurs (c : ascii) (s : string) : bool :=
  match s with
  | EmptyString => false
  | String c' s' => bool_decide (c = c') || occurs c s'
  end.

(** A row [DISTINCT] reads back unambiguously: no [':'] in a field name and
    no ['|'] in a value. *)
Definition plain (row : Row) : Prop :=
  ∀ k v, row !! k = Some v → occurs ":" k = false ∧ occurs "|" v = false.

(** The entries of a row written one after the other as [key:value|]. *)
Definition serial (kvs : list (string * string)) : string :=
  foldr (λ kv rest, kv.1 +:+ String ":" (kv.2 +:+ String "|" rest)) "" kvs.

Definition has (column : string) (row : Row) : Prop := is_Some (row !! column).

(** The date test of query 5 on a row that has its date. *)
Definition in_range (start_date end_date : string) (row : Row) : bool :=
  match row !! "O_ORDERDATE" with
  | Some date => string_ge date start_date && string_lt date end_date
  | None => false
  end.

Section numbers.
Context `{Double}.

(** The texts a group holds in a column, row by row, absent fields left out. *)
Definition present (column : string) (group : Table) : list string :=
  omap (λ row : Row, row !! column) group.

(** Folding the parsed texts into a running value. *)
Definition fold_texts (step : double → double → double) (start : double)
    (texts : list string) : outcome double :=
  foldM (λ acc text, x ← stod_ text; Ret (step acc x)) start texts.

Definition numeric (texts : list string) : Prop :=
  Forall (λ text, is_Some (stod text)) texts.

(** Keep the better of the running value and the next one. *)
Definition keep (better : double → double → bool) (best val : double) : double :=
  if better val best then val else best.

(** Where a row carries a price or a discount, the text is a number. *)
Definition numbers_parse (row : Row) : Prop :=
  ∀ column text, column ∈ ["L_EXTENDEDPRICE"; "L_DISCOUNT"] →
    row !! column = Some text → is_Some (stod text).

(** Input query 5 is meant for: a positive thread count, the columns the
    query reads with [at] present in the tables it reads them from, and
    prices and discounts that parse. *)
Record well_formed (num_threads : Z)
    (customer_data orders_data lineitem_data supplier_data nation_data
       region_data : Table) : Prop := {
  wf_threads : (0 < num_threads)%Z;
  wf_order_date : Forall (has "O_ORDERDATE") orders_data;
  wf_nation_name : Forall (has "N_NAME") nation_data;
  wf_price : Forall (has "L_EXTENDEDPRICE") lineitem_data;
  wf_discount : Forall (has "L_DISCOUNT") lineitem_data;
  wf_numbers : Forall numbers_parse
    (customer_data ++ orders_data ++ lineitem_data ++ supplier_data
       ++ nation_data ++ region_data)
}.

(** A row of the revenue table and of the aggregated table. *)
Definition priced (row : Row) : Prop :=
  has "N_NAME" row ∧ ∃ x, row !! "REVENUE" = Some (to_string x).

(** [std::to_string] prints a [double] with ["%f"]: digits with a decimal
    point, or [inf] or [nan], possibly signed.  [std::stod] reads all of
    these back. *)
Definition reads_back_prints : Prop := ∀ x : double, is_Some (stod (to_string x)).
End numbers.

(** What [std::to_string] prints is never empty and holds neither a ['|']
    nor a line break. *)
Definition prints_plainly `{Double} : Prop :=
  ∀ x : double,
    to_string x ≠ "" ∧ occurs "|" (to_string x) = false
    ∧ occurs Utilities.newline (to_string x) = false.

(** A name that can stand in a line of the result file. *)
Definition plain_name (name : string) : Prop :=
  occurs "|" name = false ∧ occurs Utilities.newline name = false.

(** * Facts about the library model *)

Section loops.
Context {A B : Type}.

(** A loop that appends to its result is a [bind] over the list. *)
Lemma foldl_append (f : A → list B) (l : list A) (acc : list B) :
  foldl (λ acc x, acc ++ f x) acc l = acc ++ (l ≫= f).
Proof.
  revert acc. induction l as [|x l IH]; intros acc; simpl.
  - by rewrite app_nil_r.
  - rewrite IH. by rewrite (assoc_L (++)).
Qed.
End loops.

(** ** Calls that return *)

Lemma bind_Ret {A C} (a : A) (f : A → outcome C) : Ret a ≫= f = f a.
Proof. done. Qed.

Lemma at_Some {V} (m : gmap string V) (k : string) (v : V) :
  m !! k = Some v → at_ m k = Ret v.
Proof. unfold at_. by intros ->. Qed.

Lemma stod_Some `{Double} (text : string) (x : double) :
  stod text = Some x → stod_ text = Ret x.
Proof. unfold stod_. by intros ->. Qed.

(** ** The order on [std::string] *)

Section string_order.
Lemma ascii_compare_refl c : Ascii.compare c c = Eq.
Proof. apply N.compare_refl. Qed.

Lemma ascii_compare_lt_trans a b c :
  Ascii.compare a b = Lt → Ascii.compare b c = Lt → Ascii.compare a c = Lt.
Proof. unfold Ascii.compare. rewrite !N.compare_lt_iff. lia. Qed.

Lemma string_compare_refl s : String.compare s s = Eq.
Proof. induction s as [|c s IH]; simpl; [done|]. by rewrite ascii_compare_refl. Qed.

Lemma string_compare_lt_trans a b c :
  String.compare a b = Lt → String.compare b c = Lt → String.compare a c = Lt.
Proof.
  revert b c. induction a as [|x a IH]; intros [|y b] [|z c]; simpl; try done.
  destruct (Ascii.compare x y) eqn:Hxy; try done.
  - apply Ascii.compare_eq_iff in Hxy as ->.
    destruct (Ascii.compare y z); try done. apply IH.
  - destruct (Ascii.compare y z) eqn:Hyz; try done.
    + apply Ascii.compare_eq_iff in Hyz as <-. by rewrite Hxy.
    + by rewrite (ascii_compare_lt_trans _ _ _ Hxy Hyz).
Qed.

Lemma string_lt_irrefl a : string_lt a a = false.
Proof. unfold string_lt, String.ltb. by rewrite string_compare_refl. Qed.

Lemma string_lt_trans a b c :
  string_lt a b = true → string_lt b c = true → string_lt a c = true.
Proof.
  unfold string_lt, String.ltb. intros Hab Hbc.
  destruct (String.compare a b) eqn:E1; try done.
  destruct (String.compare b c) eqn:E2; try done.
  by rewrite (string_compare_lt_trans _ _ _ E1 E2).
Qed.

Lemma string_lt_connex a b : string_lt a b = false → string_lt b a = false → a = b.
Proof.
  unfold string_lt, String.ltb. intros H1 H2.
  destruct (String.compare a b) eqn:E; [by apply String.compare_eq_iff|done|].
  rewrite String.compare_antisym, E in H2. done.
Qed.

#[global] Instance key_le_dec {V} (x y : string * V) : Decision (key_le x y).
Proof. unfold key_le. apply _. Defined.

#[global] Instance key_le_total {V} : Total (@key_le V).
Proof.
  intros x y. unfold key_le.
  destruct (String.leb_total x.1 y.1) as [->| ->]; [by left|by right].
Qed.
End string_order.

(** ** Iterating a [std::map] *)

Section items.
Context {V : Type}.
Implicit Types m : gmap string V.

Lemma items_perm m : items m ≡ₚ map_to_list m.
Proof. apply merge_sort_Permutation. Qed.

Lemma items_sorted m : Sorted key_le (items m).
Proof. apply (Sorted_merge_sort _). Qed.

Lemma items_NoDup_keys m : NoDup (items m).*1.
Proof. rewrite items_perm. apply NoDup_fst_map_to_list. Qed.

Lemma elem_of_items m k v : (k, v) ∈ items m ↔ m !! k = Some v.
Proof. rewrite items_perm. apply elem_of_map_to_list. Qed.

Lemma list_to_map_items m : list_to_map (items m) = m.
Proof.
  rewrite <-(list_to_map_to_list m) at 2.
  apply list_to_map_proper; [apply items_NoDup_keys | apply items_perm].
Qed.

Lemma items_empty : items (∅ : gmap string V) = [].
Proof. apply Permutation_nil_r. rewrite items_perm. by rewrite map_to_list_empty. Qed.

(** Assigning the entries of a list one by one, last write wins. *)
Lemma foldl_assign (kvs : list (string * V)) m :
  NoDup kvs.*1 →
  foldl (λ acc kv, <[kv.1 := kv.2]> acc) m kvs = list_to_map kvs ∪ m.
Proof.
  revert m. induction kvs as [|[k v] kvs IH]; intros m Hnd; simpl.
  - by rewrite (left_id_L ∅ (∪)).
  - apply NoDup_cons in Hnd as [Hk Hnd]. rewrite IH by done.
    rewrite insert_union_singleton_l, (assoc_L (∪)).
    f_equal. rewrite insert_union_singleton_l.
    apply map_union_comm, map_disjoint_singleton_r_2.
    by apply not_elem_of_list_to_map_1.
Qed.
End items.

(** ** Loops over index ranges and grouping loops *)

Section index_loops.
Context {A B : Type}.

Lemma foldl_ext_in (f g : B → A → B) (l : list A) (acc : B) :
  (∀ b x, x ∈ l → f b x = g b x) → foldl f acc l = foldl g acc l.
Proof.
  revert acc. induction l as [|x l IH]; intros acc Hfg; simpl; [done|].
  rewrite Hfg by left. apply IH. intros b y Hy. apply Hfg. by right.
Qed.

Lemma foldl_push_if (c : A → bool) (f : A → B) (l : list A) (acc : list B) :
  foldl (λ acc x, if c x then acc ++ [f x] else acc) acc l
  = acc ++ (f <$> filter (λ x, c x) l).
Proof.
  revert acc. induction l as [|x l IH]; intros acc; simpl.
  - by rewrite app_nil_r.
  - rewrite IH, filter_cons. destruct (c x) eqn:Hc.
    + rewrite decide_True by done. simpl. by rewrite <-(assoc_L (++)).
    + by rewrite decide_False by (intros []).
Qed.

(** [for (i = s; i < s + n; i++) if (i < l.size()) body(i, l[i])] visits
    the rows [l[s..]] paired with their indices. *)
Lemma foldl_seq_lookup (f : B → nat → A → B) (l : list A) (s n : nat) (acc : B) :
  foldl (λ acc i, match l !! i with Some x => f acc i x | None => acc end) acc (seq s n)
  = foldl (λ acc p, f acc p.1 p.2) acc (zip (seq s n) (drop s l)).
Proof.
  revert s acc. induction n as [|n IH]; intros s acc; simpl; [done|].
  destruct (l !! s) as [x|] eqn:Hs.
  - rewrite (drop_S _ _ _ Hs). simpl. apply IH.
  - rewrite IH. apply lookup_ge_None in Hs.
    rewrite !drop_ge by lia. by destruct (seq (S s) n).
Qed.

Lemma zip_seq_lookup (l : list A) (s n i : nat) (x : A) :
  (i, x) ∈ zip (seq s n) (drop s l) → l !! i = Some x.
Proof.
  intros Hin. apply list_elem_of_lookup in Hin as [j Hj].
  apply lookup_zip_with_Some in Hj as (i' & x' & [= <- <-] & Hi & Hx).
  apply lookup_seq in Hi as [-> _]. by rewrite lookup_drop in Hx.
Qed.

Lemma bind_zip_seq_snd (f : A → list B) (l : list A) (s n : nat) :
  zip (seq s n) l ≫= (λ p, f p.2) = take n l ≫= f.
Proof.
  revert s l. induction n as [|n IH]; intros s [|x l]; simpl; try done.
  by rewrite IH.
Qed.

Lemma snd_zip_seq_filter (P : A → Prop) `{!∀ x, Decision (P x)} (l : list A) (s : nat) :
  (filter (λ p, P p.2) (zip (seq s (length l)) l)).*2 = filter P l.
Proof.
  revert s. induction l as [|x l IH]; intros s; simpl; [done|].
  rewrite !filter_cons. simpl. destruct (decide (P x)); simpl; by rewrite IH.
Qed.
End index_loops.

Section grouping.
Context {A B : Type} (key : A → option string) (val : A → B).

Lemma group_fold_lookup (l : list A) (k : string) :
  foldl (group_step key val) ∅ l !! k = nonempty (val <$> filter (λ x, key x = Some k) l).
Proof.
  induction l as [|x l IH] using rev_ind; [done|].
  rewrite foldl_app, filter_app, fmap_app. simpl.
  unfold group_step at 1. rewrite filter_cons, filter_nil.
  destruct (key x) as [k'|] eqn:Hk.
  - destruct (decide (k' = k)) as [->|Hne].
    + rewrite lookup_insert_eq, IH, decide_True by done. simpl.
      by destruct (val <$> filter _ l).
    + rewrite lookup_insert_ne, IH, decide_False by congruence.
      simpl. by rewrite app_nil_r.
  - rewrite IH, decide_False by done. simpl. by rewrite app_nil_r.
Qed.
End grouping.

(** * Joins *)

Section merged_rows.
Implicit Types left_row right_row : Row.

Lemma merged_row_union left_row right_row :
  merged_row left_row right_row = right_row ∪ left_row.
Proof.
  unfold merged_row. rewrite foldl_assign by apply items_NoDup_keys.
  by rewrite list_to_map_items.
Qed.

Lemma merged_row_lookup left_row right_row k :
  merged_row left_row right_row !! k
  = match right_row !! k with Some v => Some v | None => left_row !! k end.
Proof.
  rewrite merged_row_union, lookup_union.
  by destruct (right_row !! k), (left_row !! k).
Qed.

Lemma merged_row_dom left_row right_row :
  dom (merged_row left_row right_row) = dom left_row ∪ dom right_row.
Proof. rewrite merged_row_union, dom_union_L. apply (comm_L (∪)). Qed.
End merged_rows.

Section nested_loops.
Import QueryClauses.
Implicit Types (left_table right_table : Table) (cond : Row → Row → bool).

Lemma INNER_JOIN_nested left_table right_table cond :
  INNER_JOIN left_table right_table cond
  = left_table ≫= λ l, merged_row l <$> filter (λ r, cond l r) right_table.
Proof.
  unfold INNER_JOIN.
  rewrite (foldl_ext_in _ (λ acc l, acc ++
    (merged_row l <$> filter (λ r, cond l r) right_table))).
  - by rewrite foldl_append.
  - intros acc l _. apply (foldl_push_if (cond l) (merged_row l)).
Qed.

Lemma CROSS_JOIN_nested left_table right_table :
  CROSS_JOIN left_table right_table
  = left_table ≫= λ l, merged_row l <$> right_table.
Proof.
  unfold CROSS_JOIN.
  rewrite (foldl_ext_in _ (λ acc l, acc ++ (merged_row l <$> right_table))).
  - by rewrite foldl_append.
  - intros acc l _. rewrite (foldl_append (λ r, [merged_row l r])).
    f_equal.
Qed.

Lemma LEFT_JOIN_scan cond (l : Row) right_table (result : Table) (found : bool) :
  foldl (λ '(result, found_match) right_row,
      if cond l right_row
      then (result ++ [merged_row l right_row], true)
      else (result, found_match)) (result, found) right_table
  = (result ++ (merged_row l <$> filter (λ r, cond l r) right_table),
     found || bool_decide (filter (λ r, cond l r) right_table ≠ [])).
Proof.
  revert result found. induction right_table as [|r R IH]; intros result found; simpl.
  - by rewrite app_nil_r, orb_false_r.
  - rewrite filter_cons. destruct (cond l r) eqn:Hc; rewrite IH.
    + rewrite decide_True by done. simpl.
      by rewrite <-(assoc_L (++)), orb_true_r.
    + by rewrite decide_False by (intros []).
Qed.

Lemma LEFT_JOIN_nested left_table right_table cond :
  LEFT_JOIN left_table right_table cond
  = left_table ≫= λ l,
      match filter (λ r, cond l r) right_table with
      | [] => [l]
      | matches => merged_row l <$> matches
      end.
Proof.
  unfold LEFT_JOIN.
  rewrite (foldl_ext_in _ (λ acc l, acc ++
    match filter (λ r, cond l r) right_table with
    | [] => [l]
    | matches => merged_row l <$> matches
    end)).
  - by rewrite foldl_append.
  - intros acc l _. rewrite LEFT_JOIN_scan. simpl.
    destruct (filter _ right_table); simpl; [by rewrite app_nil_r|done].
Qed.
End nested_loops.

Section hash_join.
Import SqlHelper.
Implicit Types (left_table right_table : Table).

Lemma build_index_lookup right_table right_column key :
  build_index right_table right_column !! key
  = nonempty (holders right_table right_column key).*1.
Proof.
  unfold build_index.
  rewrite (foldl_seq_lookup (λ right_index i row,
    match row !! right_column with
    | Some text => <[text := default [] (right_index !! text) ++ [i]]> right_index
    | None => right_index
    end)).
  apply (group_fold_lookup (λ p : nat * Row, p.2 !! right_column) fst).
Qed.

Lemma holders_rows right_table right_column key :
  (holders right_table right_column key).*2
  = filter (λ r, r !! right_column = Some key) right_table.
Proof.
  unfold holders.
  exact (snd_zip_seq_filter (λ r : Row, r !! right_column = Some key) right_table 0).
Qed.

Lemma holders_lookup right_table right_column key i r :
  (i, r) ∈ holders right_table right_column key → right_table !! i = Some r.
Proof.
  intros [_ Hin]%list_elem_of_filter.
  by apply (zip_seq_lookup right_table 0 (length right_table)).
Qed.

(** The indices filed under a key are ascending. *)
Lemma holders_ascending right_table right_column key :
  StronglySorted Nat.lt (holders right_table right_column key).*1.
Proof.
  unfold holders. generalize 0.
  induction right_table as [|r R IH]; intros s; simpl; [constructor|].
  assert (Forall (Nat.lt s) (filter (λ p : nat * Row, p.2 !! right_column = Some key)
                              (zip (seq (S s) (length R)) R)).*1) as Hlt.
  { apply Forall_forall. intros i [[i' r'] [-> Hin]]%list_elem_of_fmap.
    apply list_elem_of_filter in Hin as [_ Hin].
    apply list_elem_of_lookup in Hin as [j Hj].
    apply lookup_zip_with_Some in Hj as (? & ? & [= <- <-] & Hi & _).
    apply lookup_seq in Hi as [-> _]. simpl. unfold Nat.lt. lia. }
  rewrite filter_cons. simpl. destruct (decide _); simpl; [|apply IH].
  constructor; [apply IH|done].
Qed.

Lemma probe_indices (left_row : Row) right_table (ps : list (nat * Row)) (acc : Table) :
  (∀ i r, (i, r) ∈ ps → right_table !! i = Some r) →
  foldl (λ local_result right_idx,
      match right_table !! right_idx with
      | Some right_row => local_result ++ [merged_row left_row right_row]
      | None => local_result
      end) acc ps.*1
  = acc ++ (merged_row left_row <$> ps.*2).
Proof.
  revert acc. induction ps as [|[i r] ps IH]; intros acc Hps; simpl.
  - by rewrite app_nil_r.
  - rewrite (Hps i r) by left. rewrite IH, <-(assoc_L (++)); [done|].
    intros i' r' Hin. apply Hps. by right.
Qed.

Lemma worker_probe left_table right_table left_column right_column start_idx end_idx :
  worker left_table right_table left_column (build_index right_table right_column)
    start_idx end_idx
  = take (end_idx - start_idx) (drop start_idx left_table)
      ≫= probe right_table left_column right_column.
Proof.
  unfold worker.
  rewrite (foldl_seq_lookup (λ local_result (i : nat) (left_row : Row),
    match left_row !! left_column with
    | None => local_result
    | Some key =>
      match build_index right_table right_column !! key with
      | Some indices =>
        foldl (λ local_result right_idx,
          match right_table !! right_idx with
          | Some right_row => local_result ++ [merged_row left_row right_row]
          | None => local_result
          end) local_result indices
      | None => local_result
      end
    end)).
  rewrite (foldl_ext_in _ (λ acc p, acc ++ probe right_table left_column right_column p.2)).
  - rewrite foldl_append.
    rewrite (bind_zip_seq_snd (probe right_table left_column right_column)).
    simpl. f_equal.
    destruct (decide (end_idx ≤ length left_table)).
    + by rewrite Nat.min_l.
    + rewrite !take_ge; [done|rewrite length_drop; lia..].
  - intros acc [i left_row] _. simpl. unfold probe.
    destruct (left_row !! left_column) as [key|]; [|by rewrite app_nil_r].
    rewrite build_index_lookup, <-holders_rows.
    destruct (holders right_table right_column key) as [|p ps] eqn:Hps.
    + simpl. by rewrite app_nil_r.
    + change (nonempty (p :: ps).*1) with (Some (p :: ps).*1).
      apply (probe_indices left_row right_table (p :: ps)).
      intros i' r'. rewrite <-Hps. apply holders_lookup.
Qed.
End hash_join.

Section threads.
Import SqlHelper.
Context {A : Type}.

(** Every worker writes its own slot, so the order of the writes is
    immaterial. *)
Lemma slots_lookup (w : nat → A) (finish_order : list nat) (slots : list A) (j : nat) :
  foldl (λ slots i, <[i := w i]> slots) slots finish_order !! j
  = if decide (j ∈ finish_order ∧ j < length slots) then Some (w j) else slots !! j.
Proof.
  revert slots. induction finish_order as [|i order IH]; intros slots; cbn [foldl].
  - case_decide as Hin; [|done]. by destruct Hin as [?%elem_of_nil _].
  - rewrite IH, length_insert.
    destruct (decide (j ∈ order ∧ j < length slots)) as [[Hin Hlt]|Hno].
    + rewrite decide_True; [done|]. split; [by right|done].
    + destruct (decide (i = j)) as [->|Hne].
      * destruct (decide (j < length slots)).
        -- rewrite list_lookup_insert_eq by done.
           rewrite decide_True; [done|]. split; [by left|done].
        -- rewrite list_insert_ge by lia.
           rewrite decide_False; [done|]. by intros [_ ?].
      * rewrite list_lookup_insert_ne by done.
        rewrite decide_False; [done|].
        intros [[?|?]%elem_of_cons ?]; [congruence|]. by apply Hno.
Qed.

Lemma slots_fair (w : nat → A) (finish_order : list nat) (n : nat) (x : A) :
  finish_order ≡ₚ seq 0 n →
  foldl (λ slots i, <[i := w i]> slots) (replicate n x) finish_order = w <$> seq 0 n.
Proof.
  intros Hfair. apply list_eq. intros j.
  rewrite slots_lookup, length_replicate, list_lookup_fmap.
  destruct (decide (j < n)) as [Hlt|Hge].
  - rewrite lookup_seq_lt by done.
    rewrite decide_True; [done|]. split; [|done].
    rewrite Hfair. apply elem_of_seq. lia.
  - rewrite lookup_seq_ge by lia.
    rewrite decide_False by (by intros [_ ?]).
    apply lookup_replicate_None. lia.
Qed.
End threads.

Section chunks.
Context {A : Type}.
Implicit Types l : list A.

Lemma ceil_div_covers (len n : nat) : 0 < n → len ≤ n * ((len + n - 1) `div` n).
Proof.
  intros Hn.
  pose proof (Nat.div_mod (len + n - 1) n ltac:(lia)) as Hdm.
  pose proof (Nat.mod_upper_bound (len + n - 1) n ltac:(lia)). lia.
Qed.

Lemma chunks_cover l (chunk_size n : nat) :
  length l ≤ n * chunk_size →
  concat ((λ i, take chunk_size (drop (i * chunk_size) l)) <$> seq 0 n) = l.
Proof.
  revert l. induction n as [|n IH]; intros l Hlen.
  - destruct l; [done|simpl in Hlen; lia].
  - simpl. rewrite <-fmap_S_seq, <-list_fmap_compose.
    transitivity (take chunk_size l ++ drop chunk_size l); [|apply take_drop].
    f_equal.
    rewrite <-(IH (drop chunk_size l)) by (rewrite length_drop; lia).
    f_equal. apply list_fmap_ext. intros _ i _. simpl.
    by rewrite drop_drop.
Qed.

Lemma concat_bind {B} (f : A → list B) (ls : list (list A)) :
  concat ls ≫= f = concat ((λ l, l ≫= f) <$> ls).
Proof.
  induction ls as [|l ls IH]; simpl; [done|]. by rewrite bind_app, IH.
Qed.
End chunks.

Section join_results.
Import SqlHelper.
Implicit Types (left_table right_table : Table) (num_threads : Z).

Lemma merge_phase (thread_results : list Table) :
  foldl (λ result thread_result, result ++ thread_result) [] thread_results
  = concat thread_results.
Proof.
  rewrite (foldl_append (λ thread_result : Table, thread_result)).
  rewrite app_nil_l. induction thread_results as [|l ls IH]; [done|].
  rewrite bind_cons, IH. done.
Qed.

Lemma INNER_JOIN_scheduled_chunks finish_order left_table right_table
    left_column right_column num_threads :
  (0 < num_threads)%Z → fair_order num_threads finish_order →
  INNER_JOIN_scheduled finish_order left_table right_table
    left_column right_column num_threads
  = Ret (concat ((λ i,
      chunk left_table
        ((length left_table + Z.to_nat num_threads - 1) `div` Z.to_nat num_threads) i
      ≫= probe right_table left_column right_column) <$> seq 0 (Z.to_nat num_threads))).
Proof.
  intros Hpos Hfair. unfold INNER_JOIN_scheduled, thread_results.
  rewrite decide_False by lia. cbv zeta. f_equal.
  rewrite merge_phase. f_equal.
  rewrite (slots_fair (λ thread_id, worker left_table right_table left_column
    (build_index right_table right_column) (thread_id * _) (thread_id * _ + _)))
    by done.
  apply list_fmap_ext. intros _ i _. rewrite worker_probe. unfold chunk.
  do 2 f_equal. lia.
Qed.

Lemma INNER_JOIN_scheduled_probe finish_order left_table right_table
    left_column right_column num_threads :
  (0 < num_threads)%Z → fair_order num_threads finish_order →
  INNER_JOIN_scheduled finish_order left_table right_table
    left_column right_column num_threads
  = Ret (left_table ≫= probe right_table left_column right_column).
Proof.
  intros Hpos Hfair. rewrite INNER_JOIN_scheduled_chunks by done. f_equal.
  set (chunk_size := (length left_table + Z.to_nat num_threads - 1)
                       `div` Z.to_nat num_threads).
  transitivity (concat ((λ l, l ≫= probe right_table left_column right_column)
    <$> (chunk left_table chunk_size <$> seq 0 (Z.to_nat num_threads)))).
  { by rewrite <-list_fmap_compose. }
  rewrite <-concat_bind. f_equal. apply chunks_cover, ceil_div_covers. lia.
Qed.

Lemma INNER_JOIN_probe left_table right_table left_column right_column num_threads :
  (0 < num_threads)%Z →
  INNER_JOIN left_table right_table left_column right_column num_threads
  = Ret (left_table ≫= probe right_table left_column right_column).
Proof. intros Hpos. apply INNER_JOIN_scheduled_probe; [done|]. by unfold fair_order. Qed.

Lemma JOIN_ON_true left_column right_column (l r : Row) :
  QueryClauses.JOIN_ON left_column right_column l r
  ↔ ∃ key, l !! left_column = Some key ∧ r !! right_column = Some key.
Proof.
  unfold QueryClauses.JOIN_ON. rewrite !andb_True, !bool_decide_spec. split.
  - intros [[[key Hl] _] Heq]. exists key. by rewrite <-Heq.
  - intros (key & -> & ->). eauto.
Qed.

Lemma probe_JOIN_ON right_table left_column right_column (l : Row) :
  probe right_table left_column right_column l
  = merged_row l <$>
      filter (λ r, QueryClauses.JOIN_ON left_column right_column l r) right_table.
Proof.
  unfold probe. destruct (l !! left_column) as [key|] eqn:Hl.
  - f_equal. apply list_filter_iff. intros r. rewrite JOIN_ON_true, Hl. split.
    + intros Hr. by exists key.
    + by intros (key' & [= <-] & Hr).
  - induction right_table as [|r R IH]; [done|].
    rewrite filter_cons_False; [done|].
    rewrite JOIN_ON_true, Hl. by intros (key & [=] & _).
Qed.

Lemma probe_nested left_table right_table left_column right_column :
  left_table ≫= probe right_table left_column right_column
  = QueryClauses.INNER_JOIN left_table right_table
      (QueryClauses.JOIN_ON left_column right_column).
Proof.
  rewrite INNER_JOIN_nested.
  apply list_bind_ext; [|done]. intros l. apply probe_JOIN_ON.
Qed.

(** The hash join emits the rows of the nested-loop join, in the same order. *)
Lemma hash_join_same_rows left_table right_table left_column right_column num_threads :
  (0 < num_threads)%Z →
  INNER_JOIN left_table right_table left_column right_column num_threads
  = Ret (QueryClauses.INNER_JOIN left_table right_table
           (QueryClauses.JOIN_ON left_column right_column)).
Proof.
  intros Hpos. by rewrite INNER_JOIN_probe, probe_nested.
Qed.
End join_results.

(** * Two sorting procedures that meet the contract of [std::sort] *)

(** The elements at the positions [s], [s + 1], ..., [s + n - 1] that a
    list has. *)
Lemma omap_lookup_seq {A} (l : list A) (s n : nat) :
  omap (l !!.) (seq s n) = take n (drop s l).
Proof.
  revert s. induction n as [|n IH]; intros s; simpl; [by rewrite take_0|].
  rewrite IH. destruct (l !! s) as [x|] eqn:Hs.
  - by rewrite (drop_S _ _ _ Hs).
  - apply lookup_ge_None in Hs. rewrite !drop_ge by lia. by rewrite !take_nil.
Qed.

Section insertion_sorts.
Import Instances.
Context {A : Type} (cmp : A → A → bool).

Lemma insert_before_perm x l : insert_before cmp x l ≡ₚ x :: l.
Proof.
  induction l as [|y l IH]; simpl; [done|].
  destruct (cmp y x); [|done]. rewrite IH. apply Permutation_swap.
Qed.

Lemma sort_before_perm l : sort_before cmp l ≡ₚ l.
Proof.
  induction l as [|x l IH]; simpl; [done|].
  by rewrite insert_before_perm, IH.
Qed.

Context (Hsw : strict_weak cmp).

Lemma sw_asym a b : cmp a b = true → cmp b a = false.
Proof.
  intros Hab. destruct (cmp b a) eqn:Hba; [|done].
  by rewrite <-(sw_irrefl _ Hsw a), (sw_trans _ Hsw a b a).
Qed.

(** "Not smaller than" is transitive. *)
Lemma sw_not_lt_trans a b c : cmp a b = false → cmp b c = false → cmp a c = false.
Proof.
  intros Hab Hbc. destruct (cmp a c) eqn:Hac; [|done].
  destruct (cmp b a) eqn:Hba.
  { by rewrite <-Hbc, (sw_trans _ Hsw b a c). }
  destruct (cmp c b) eqn:Hcb.
  { by rewrite <-Hab, (sw_trans _ Hsw a c b). }
  destruct (sw_incomp _ Hsw a b c) as [Hac' _]; congruence.
Qed.

Lemma insert_before_sorted x l :
  StronglySorted (λ a b, cmp b a = false) l →
  StronglySorted (λ a b, cmp b a = false) (insert_before cmp x l).
Proof.
  induction 1 as [|y l Hl IH Hy]; simpl; [by repeat constructor|].
  destruct (cmp y x) eqn:Hyx.
  - constructor; [done|].
    rewrite insert_before_perm. constructor; [by apply sw_asym|done].
  - constructor; [by constructor|]. constructor; [done|].
    eapply Forall_impl; [apply Hy|]. intros z Hzy. simpl in *.
    by apply (sw_not_lt_trans z y x).
Qed.

Lemma sort_before_sorted l : StronglySorted (λ a b, cmp b a = false) (sort_before cmp l).
Proof.
  induction l as [|x l IH]; simpl; [constructor|]. by apply insert_before_sorted.
Qed.
End insertion_sorts.

(** Insertion from the right end, new elements going in front of their
    equals: ties keep their order. *)
#[local] Instance ties_kept : StdSort := {|
  std_sort A := Instances.sort_before;
  std_sort_perm A := sort_before_perm;
  std_sort_sorted A := sort_before_sorted
|}.

Lemma sort_list_perm {A} (cmp : A → A → bool) (l : list A) :
  Libstdcxx.sort_list cmp l ≡ₚ l.
Proof.
  unfold Libstdcxx.sort_list. destruct (Libstdcxx.positions _ _) as [order|];
    [|apply sort_before_perm].
  destruct (decide _) as [[Hperm _]|_]; [|apply sort_before_perm].
  unfold Libstdcxx.picked. rewrite Hperm, omap_lookup_seq, drop_0.
  by rewrite take_ge.
Qed.

Lemma sort_list_sorted {A} (cmp : A → A → bool) :
  strict_weak cmp →
  ∀ l, StronglySorted (λ a b, cmp b a = false) (Libstdcxx.sort_list cmp l).
Proof.
  intros Hsw l. unfold Libstdcxx.sort_list.
  destruct (Libstdcxx.positions _ _) as [order|]; [|by apply sort_before_sorted].
  destruct (decide _) as [[_ Hsorted]|_]; [done|by apply sort_before_sorted].
Qed.

(** The sort of libstdc++. *)
#[local] Instance libstdcxx : StdSort := {|
  std_sort A := Libstdcxx.sort_list;
  std_sort_perm A := sort_list_perm;
  std_sort_sorted A := sort_list_sorted
|}.

(** * Claims about the joins *)

Section join_claims.
Import SqlHelper.
Implicit Types (left_table right_table : Table) (num_threads : Z).

Lemma elem_of_holders right_table right_column key j r :
  (j, r) ∈ holders right_table right_column key
  ↔ right_table !! j = Some r ∧ r !! right_column = Some key.
Proof.
  split.
  - intros Hin. split; [by eapply holders_lookup|].
    by apply list_elem_of_filter in Hin as [? _].
  - intros [Hj Hr]. apply list_elem_of_filter. split; [done|].
    apply list_elem_of_lookup. exists j. apply lookup_zip_with_Some.
    exists j, r. split_and!; [done| |done].
    apply lookup_seq_lt. by eapply lookup_lt_Some.
Qed.

Lemma elem_of_matches (cond : Row → Row → bool) left_table right_table (row : Row) :
  row ∈ (left_table ≫= λ l, merged_row l <$> filter (λ r, cond l r) right_table)
  ↔ ∃ l r, l ∈ left_table ∧ r ∈ right_table ∧ cond l r ∧ row = merged_row l r.
Proof.
  rewrite list_elem_of_bind. split.
  - intros (l & Hrow & Hl). apply list_elem_of_fmap in Hrow as (r & -> & Hr).
    apply list_elem_of_filter in Hr as [Hc Hr]. by exists l, r.
  - intros (l & r & Hl & Hr & Hc & ->). exists l. split; [|done].
    apply list_elem_of_fmap. exists r. split; [done|].
    by apply list_elem_of_filter.
Qed.

Lemma merged_row_right_wins (l r : Row) : right_wins l r (merged_row l r).
Proof.
  split_and!.
  - apply merged_row_dom.
  - intros k v Hk. by rewrite merged_row_lookup, Hk.
  - intros k Hk. by rewrite merged_row_lookup, Hk.
Qed.
End join_claims.

(** C1, as stated, fails.  For an empty left table the thread count
    [|L|] is 0, and with no threads the hash join divides by zero where the
    nested-loop join returns the empty table. *)
Lemma hash_join_no_threads :
  (0 : Z) ∈ [1; 2; Z.of_nat (length (@nil Row)); Z.of_nat (length (@nil Row)) + 5]%Z ∧
  SqlHelper.INNER_JOIN [] Samples.right3 "k" "j" 0 = Raise Undefined ∧
  QueryClauses.INNER_JOIN [] Samples.right3 (QueryClauses.JOIN_ON "k" "j") = [].
Proof.
  split_and!; [|reflexivity|reflexivity].
  apply elem_of_cons. right. apply elem_of_cons. right. by left.
Qed.

(** C1, amended.  For every thread count among 1, 2, [|L|] and [|L| + 5]
    that is positive -- all of them but [|L|] for an empty [L] -- the
    concurrent hash join returns a table with the same multiset of merged
    rows as the nested-loop join on [JOIN_ON left_column right_column], and
    every run returns this very table, in whatever order the workers
    finish.  (The membership is not used: [hash_join_same_rows] and
    [INNER_JOIN_scheduled_probe] hold for every positive thread count.) *)
Theorem hash_join_matches_nested_loop
    (left_table right_table : Table) (left_column right_column : string)
    (num_threads : Z) :
  num_threads ∈ [1; 2; Z.of_nat (length left_table);
                 Z.of_nat (length left_table) + 5]%Z →
  (0 < num_threads)%Z →
  ∃ out,
    SqlHelper.INNER_JOIN left_table right_table left_column right_column num_threads
      = Ret out ∧
    out ≡ₚ QueryClauses.INNER_JOIN left_table right_table
             (QueryClauses.JOIN_ON left_column right_column) ∧
    ∀ finish_order, SqlHelper.fair_order num_threads finish_order →
      SqlHelper.INNER_JOIN_scheduled finish_order left_table right_table
        left_column right_column num_threads = Ret out.
Proof.
  intros _ Hpos.
  exists (left_table ≫= probe right_table left_column right_column). split_and!.
  - by apply INNER_JOIN_probe.
  - by rewrite probe_nested.
  - intros finish_order Hfair. by apply INNER_JOIN_scheduled_probe.
Qed.

Lemma hash_join_matches_nested_loop_witness :
  ((3 : Z) ∈ [1; 2; Z.of_nat (length Samples.left3);
              Z.of_nat (length Samples.left3) + 5]%Z ∧ (0 < 3)%Z) ∧
  ∃ out,
    SqlHelper.INNER_JOIN Samples.left3 Samples.right3 "k" "j" 3 = Ret out ∧
    out ≡ₚ QueryClauses.INNER_JOIN Samples.left3 Samples.right3
             (QueryClauses.JOIN_ON "k" "j") ∧
    ∀ finish_order, SqlHelper.fair_order 3 finish_order →
      SqlHelper.INNER_JOIN_scheduled finish_order Samples.left3 Samples.right3
        "k" "j" 3 = Ret out.
Proof.
  assert ((3 : Z) ∈ [1; 2; Z.of_nat (length Samples.left3);
                     Z.of_nat (length Samples.left3) + 5]%Z) as Hin.
  { apply elem_of_cons. right. apply elem_of_cons. right. by left. }
  assert (0 < 3)%Z as Hpos by lia.
  split; [by split|].
  exact (hash_join_matches_nested_loop Samples.left3 Samples.right3 "k" "j" 3 Hin Hpos).
Defined.

(** C2, as stated, fails.  Five left rows on four threads give chunks of
    [ceil(5/4) = 2] rows: worker 2 gets the single row 4 and worker 3 gets
    none.  So a chunk that is not the last one is short, and the last one is
    empty although there are no more threads than rows.  (Every row of
    [left5] has one match in [right1], so a worker emits as many rows as its
    chunk holds.) *)
Lemma chunks_short_before_last :
  (length Samples.left5 + 4 - 1) `div` 4 = 2 ∧
  length (SqlHelper.worker Samples.left5 Samples.right1 "k"
            (SqlHelper.build_index Samples.right1 "j") (2 * 2) (2 * 2 + 2)) = 1 ∧
  SqlHelper.worker Samples.left5 Samples.right1 "k"
    (SqlHelper.build_index Samples.right1 "j") (3 * 2) (3 * 2 + 2) = [] ∧
  length (chunk Samples.left5 2 2) = 1 ∧
  chunk Samples.left5 2 3 = [] ∧
  ¬ (length Samples.left5 < 4).
Proof.
  split_and!; try reflexivity. simpl. lia.
Qed.

(** C2, amended.  For a positive thread count [n] the left table is cut
    into [n] chunks by index range, [chunk_size = ceil(|left| / n)] rows
    apart: chunk [i] holds the rows [i * chunk_size ≤ index < (i + 1) *
    chunk_size] that exist.  So the chunks are contiguous, chunk [i] has
    [min chunk_size (|left| - i * chunk_size)] rows -- full chunks, then at
    most one shorter chunk, then empty ones -- and the last one is empty
    when [n > |left|].  The chunks are the index ranges of the workers:
    [worker] reads the left rows of its range [start_idx ≤ index < end_idx]
    that exist, in order, and in every fair run slot [i] of
    [thread_results] holds what [worker] makes of the range from
    [i * chunk_size] to [i * chunk_size + chunk_size], which is the result
    of chunk [i].  The join returns the slots concatenated in slot order,
    that is the per-chunk results in chunk order; a chunk's result lists
    its left rows in order, and for each left row its matches by ascending
    right-table index. *)
Theorem hash_join_chunks_in_order
    (left_table right_table : Table) (left_column right_column : string)
    (num_threads : Z) :
  (0 < num_threads)%Z →
  let n := Z.to_nat num_threads in
  let chunk_size := (length left_table + n - 1) `div` n in
  let chunks := chunk left_table chunk_size <$> seq 0 n in
  (length left_table ≤ n * chunk_size ∧
   ∀ c, length left_table ≤ n * c → chunk_size ≤ c) ∧
  (length chunks = n ∧ concat chunks = left_table) ∧
  (∀ i, i < n →
     length (chunk left_table chunk_size i)
     = chunk_size `min` (length left_table - i * chunk_size)) ∧
  (∀ i, (i + 1) * chunk_size ≤ length left_table →
     length (chunk left_table chunk_size i) = chunk_size) ∧
  (∀ i, length left_table ≤ i * chunk_size → chunk left_table chunk_size i = []) ∧
  (length left_table < n → chunk left_table chunk_size (n - 1) = []) ∧
  SqlHelper.INNER_JOIN left_table right_table left_column right_column num_threads
    = Ret (concat ((λ rows, rows ≫= probe right_table left_column right_column)
                     <$> chunks)) ∧
  (∀ left_row,
    match left_row !! left_column with
    | None => probe right_table left_column right_column left_row = []
    | Some key =>
      ∃ matches : list (nat * Row),
        probe right_table left_column right_column left_row
          = merged_row left_row <$> matches.*2 ∧
        StronglySorted Nat.lt matches.*1 ∧
        ∀ j r, (j, r) ∈ matches
               ↔ right_table !! j = Some r ∧ r !! right_column = Some key
    end) ∧
  (∀ i, chunk left_table chunk_size i
        = omap (left_table !!.) (seq (i * chunk_size) chunk_size)) ∧
  (∀ start_idx end_idx,
     SqlHelper.worker left_table right_table left_column
       (SqlHelper.build_index right_table right_column) start_idx end_idx
     = omap (left_table !!.) (seq start_idx (end_idx - start_idx))
         ≫= probe right_table left_column right_column) ∧
  ∀ finish_order, SqlHelper.fair_order num_threads finish_order →
    let slots := SqlHelper.thread_results finish_order left_table right_table
                   left_column right_column num_threads in
    length slots = n ∧
    (∀ i, i < n →
       slots !! i
       = Some (SqlHelper.worker left_table right_table left_column
                 (SqlHelper.build_index right_table right_column)
                 (i * chunk_size) (i * chunk_size + chunk_size)) ∧
       slots !! i
       = Some (chunk left_table chunk_size i
                 ≫= probe right_table left_column right_column)) ∧
    slots = (λ rows, rows ≫= probe right_table left_column right_column) <$> chunks ∧
    SqlHelper.INNER_JOIN_scheduled finish_order left_table right_table
      left_column right_column num_threads
    = Ret (concat slots).
Proof.
  intros Hpos n chunk_size chunks.
  assert (0 < n) as Hn by (unfold n; lia).
  assert (length left_table ≤ n * chunk_size) as Hcover
    by (by apply ceil_div_covers).
  assert (∀ c, length left_table ≤ n * c → chunk_size ≤ c) as Hleast.
  { intros c Hc. unfold chunk_size.
    apply Nat.lt_succ_r, Nat.Div0.div_lt_upper_bound.
    rewrite Nat.mul_succ_r. lia. }
  assert (∀ i, SqlHelper.worker left_table right_table left_column
                 (SqlHelper.build_index right_table right_column)
                 (i * chunk_size) (i * chunk_size + chunk_size)
               = chunk left_table chunk_size i
                   ≫= probe right_table left_column right_column) as Hworker.
  { intros i. rewrite worker_probe. unfold chunk. do 2 f_equal. lia. }
  split_and!.
  - done.
  - done.
  - unfold chunks. by rewrite length_fmap, length_seq.
  - by apply chunks_cover.
  - intros i Hi. unfold chunk. by rewrite length_take, length_drop.
  - intros i Hi. unfold chunk. rewrite length_take, length_drop. lia.
  - intros i Hi. unfold chunk. rewrite drop_ge by done. by rewrite take_nil.
  - intros Hlt. unfold chunk. rewrite drop_ge; [by rewrite take_nil|].
    pose proof (Hleast 1 ltac:(lia)) as Hone.
    destruct chunk_size as [|[|c]]; lia.
  - unfold SqlHelper.INNER_JOIN.
    rewrite INNER_JOIN_scheduled_chunks by (done || by unfold SqlHelper.fair_order).
    f_equal. unfold chunks. by rewrite <-list_fmap_compose.
  - intros left_row. unfold probe.
    destruct (left_row !! left_column) as [key|]; [|done].
    exists (holders right_table right_column key). split_and!.
    + by rewrite holders_rows.
    + apply holders_ascending.
    + intros j r. apply elem_of_holders.
  - intros i. unfold chunk. by rewrite omap_lookup_seq.
  - intros start_idx end_idx. by rewrite worker_probe, omap_lookup_seq.
  - intros finish_order Hfair slots.
    assert (slots = (λ i, SqlHelper.worker left_table right_table left_column
                            (SqlHelper.build_index right_table right_column)
                            (i * chunk_size) (i * chunk_size + chunk_size))
                      <$> seq 0 n) as Hslots.
    { unfold slots, SqlHelper.thread_results. cbv zeta.
      by rewrite (slots_fair (λ thread_id,
        SqlHelper.worker left_table right_table left_column
          (SqlHelper.build_index right_table right_column)
          (thread_id * _) (thread_id * _ + _))). }
    split_and!.
    + by rewrite Hslots, length_fmap, length_seq.
    + intros i Hi. rewrite <-Hworker.
      split; by rewrite Hslots, list_lookup_fmap, lookup_seq_lt.
    + rewrite Hslots. unfold chunks. rewrite <-list_fmap_compose.
      apply list_fmap_ext. intros _ i _. apply Hworker.
    + unfold SqlHelper.INNER_JOIN_scheduled.
      rewrite decide_False by lia. cbv zeta. by rewrite merge_phase.
Qed.

Lemma hash_join_chunks_in_order_witness :
  (0 < 2)%Z ∧
  SqlHelper.INNER_JOIN Samples.left3 Samples.right3 "k" "j" 2
  = Ret (concat ((λ rows, rows ≫= probe Samples.right3 "k" "j")
                   <$> (chunk Samples.left3 2 <$> seq 0 2))).
Proof.
  assert (0 < 2)%Z as Hpos by lia.
  split; [exact Hpos|].
  exact (proj1 (proj2 (proj2 (proj2 (proj2 (proj2 (proj2
    (hash_join_chunks_in_order Samples.left3 Samples.right3 "k" "j" 2 Hpos)))))))).
Defined.

(** C8.  Every row a join emits for a matched pair of rows is the pair
    merged: its fields are the fields of both rows, and a field both rows
    have carries the right row's value.  This holds for the nested-loop
    inner, left and cross joins and for the concurrent hash join, which
    returns its table whenever the thread count is positive; the left join
    emits, besides, the left rows without a match as they are. *)
Theorem joins_merge_right_wins
    (left_table right_table : Table) (cond : Row → Row → bool)
    (left_column right_column : string) (num_threads : Z) :
  (∀ l r, right_wins l r (merged_row l r)) ∧
  (∀ row, row ∈ QueryClauses.INNER_JOIN left_table right_table cond
      ↔ ∃ l r, l ∈ left_table ∧ r ∈ right_table ∧ cond l r ∧ row = merged_row l r) ∧
  (∀ row, row ∈ QueryClauses.LEFT_JOIN left_table right_table cond
      ↔ (∃ l r, l ∈ left_table ∧ r ∈ right_table ∧ cond l r ∧ row = merged_row l r)
        ∨ (row ∈ left_table ∧ ∀ r, r ∈ right_table → ¬ cond row r)) ∧
  (∀ row, row ∈ QueryClauses.CROSS_JOIN left_table right_table
      ↔ ∃ l r, l ∈ left_table ∧ r ∈ right_table ∧ row = merged_row l r) ∧
  (∀ out,
     SqlHelper.INNER_JOIN left_table right_table left_column right_column num_threads
       = Ret out →
     ∀ row, row ∈ out
       ↔ ∃ l r, l ∈ left_table ∧ r ∈ right_table ∧
                SqlHelper.JOIN_ON left_column right_column l r ∧
                row = merged_row l r) ∧
  ((0 < num_threads)%Z →
     ∃ out,
       SqlHelper.INNER_JOIN left_table right_table left_column right_column num_threads
         = Ret out).
Proof.
  split_and!.
  - apply merged_row_right_wins.
  - intros row. rewrite INNER_JOIN_nested. apply elem_of_matches.
  - intros row. rewrite LEFT_JOIN_nested, list_elem_of_bind. split.
    + intros (l & Hrow & Hl).
      destruct (filter (λ r, cond l r) right_table) as [|m ms] eqn:Hms.
      * apply list_elem_of_singleton in Hrow as ->. right. split; [done|].
        intros r Hr Hc. by apply (filter_nil_not_elem_of _ _ r Hms).
      * left. apply list_elem_of_fmap in Hrow as (r & -> & Hr).
        rewrite <-Hms in Hr. apply list_elem_of_filter in Hr as [Hc Hr].
        by exists l, r.
    + intros [(l & r & Hl & Hr & Hc & ->)|[Hrow Hno]].
      * exists l. split; [|done].
        assert (r ∈ filter (λ r, cond l r) right_table) as Hin
          by (by apply list_elem_of_filter).
        destruct (filter (λ r, cond l r) right_table) as [|m ms] eqn:Hms.
        -- by apply elem_of_nil in Hin.
        -- apply list_elem_of_fmap. by exists r.
      * exists row. split; [|done].
        destruct (filter (λ r, cond row r) right_table) as [|m ms] eqn:Hms.
        -- by apply list_elem_of_singleton.
        -- assert (m ∈ filter (λ r, cond row r) right_table) as Hm
             by (rewrite Hms; left).
           apply list_elem_of_filter in Hm as [Hc Hm]. by destruct (Hno m).
  - intros row. rewrite CROSS_JOIN_nested, list_elem_of_bind. split.
    + intros (l & Hrow & Hl). apply list_elem_of_fmap in Hrow as (r & -> & Hr).
      by exists l, r.
    + intros (l & r & Hl & Hr & ->). exists l. split; [|done].
      apply list_elem_of_fmap. by exists r.
  - intros out Hout row. destruct (decide (0 < num_threads)%Z) as [Hpos|Hneg].
    + rewrite hash_join_same_rows in Hout by done. injection Hout as <-.
      rewrite INNER_JOIN_nested. apply elem_of_matches.
    + unfold SqlHelper.INNER_JOIN, SqlHelper.INNER_JOIN_scheduled in Hout.
      by rewrite decide_True in Hout by lia.
  - intros Hpos. eexists. by apply hash_join_same_rows.
Qed.

(** * Claims about ordering *)

Section order_by_claims.
Import QueryClauses.

Lemma by_text_strict_weak (column : string) :
  strict_weak (λ a b : Row, string_lt (text_at column a) (text_at column b)).
Proof.
  split.
  - intros a. apply string_lt_irrefl.
  - intros a b c. apply string_lt_trans.
  - intros a b c Hab Hba Hbc Hcb.
    rewrite (string_lt_connex _ _ Hab Hba), (string_lt_connex _ _ Hbc Hcb).
    by rewrite string_lt_irrefl.
Qed.

Lemma by_text_desc_strict_weak (column : string) :
  strict_weak (λ a b : Row, string_gt (text_at column a) (text_at column b)).
Proof.
  unfold string_gt. split.
  - intros a. apply string_lt_irrefl.
  - intros a b c Hab Hbc. by apply (string_lt_trans _ (text_at column b)).
  - intros a b c Hab Hba Hbc Hcb.
    rewrite (string_lt_connex _ _ Hba Hab), (string_lt_connex _ _ Hcb Hbc).
    by rewrite string_lt_irrefl.
Qed.

Lemma StronglySorted_weaken {A} (R1 R2 : A → A → Prop) (l : list A) :
  (∀ a b, R1 a b → R2 a b) → StronglySorted R1 l → StronglySorted R2 l.
Proof.
  intros HR. induction 1 as [|x l Hl IH Hx]; constructor; [done|].
  eapply Forall_impl; [apply Hx|]. intros y. apply HR.
Qed.

Lemma no_row_without (column : string) (table : Table) :
  Forall (λ row, is_Some (row !! column)) table →
  ¬ (2 ≤ length table ∧ Exists (λ row, row !! column = None) table).
Proof.
  intros Hall [_ Hex]. apply Exists_exists in Hex as (row & Hin & Hnone).
  apply (proj1 (Forall_forall _ _) Hall) in Hin. rewrite Hnone in Hin.
  by destruct Hin.
Qed.
End order_by_claims.

(** C4, as stated, fails.  [std::sort] does not keep rows with equal sort
    values in their original order: the sort of libstdc++ rearranges the
    seventeen rows of [tied17], which all agree on the sort column [k], so
    that the row of position 8 comes first and the row of position 0 tenth.
    And the claim does not hold for every column: sorting [tied2] by a
    column its rows do not have throws, whatever the sorting procedure. *)
Lemma ORDER_BY_not_stable :
  (Forall (λ row : Row, is_Some (row !! "k")) Samples.tied17 ∧
   Libstdcxx.positions
     (λ a b : Row, string_lt (QueryClauses.text_at "k" a) (QueryClauses.text_at "k" b))
     Samples.tied17
     = Some [8; 16; 15; 14; 13; 12; 11; 10; 9; 0; 7; 6; 5; 4; 3; 2; 1] ∧
   @QueryClauses.ORDER_BY_ASC libstdcxx Samples.tied17 "k"
     = Ret (Libstdcxx.picked Samples.tied17
              [8; 16; 15; 14; 13; 12; 11; 10; 9; 0; 7; 6; 5; 4; 3; 2; 1]) ∧
   ¬ ties_in_order "k" Samples.tied17
       (Libstdcxx.picked Samples.tied17
          [8; 16; 15; 14; 13; 12; 11; 10; 9; 0; 7; 6; 5; 4; 3; 2; 1])) ∧
  (∀ S : StdSort,
     @QueryClauses.ORDER_BY_ASC S Samples.tied2 "missing" = Raise OutOfRange).
Proof.
  split; [split_and!|].
  - repeat constructor; by eexists.
  - by vm_compute.
  - by vm_compute.
  - intros Hstable. specialize (Hstable "x").
    apply (f_equal (λ rows : Table, head rows ≫= (.!! "id"))) in Hstable.
    vm_compute in Hstable. discriminate Hstable.
  - intros S. unfold QueryClauses.ORDER_BY_ASC.
    rewrite decide_True; [done|]. split; [simpl; lia|].
    by apply Exists_cons_hd.
Qed.

(** C4, amended.  On a table whose rows all have the column,
    [ORDER_BY_ASC] and [ORDER_BY_DESC] return the rows of the table
    rearranged so that the column's text values ascend, respectively
    descend, in the lexicographic order; where rows with equal values end up
    relative to one another is left open. *)
Theorem ORDER_BY_sorted_rearrangement `{StdSort} (table : Table) (column : string) :
  Forall (λ row, is_Some (row !! column)) table →
  ∃ asc desc,
    QueryClauses.ORDER_BY_ASC table column = Ret asc ∧
    QueryClauses.ORDER_BY_DESC table column = Ret desc ∧
    asc ≡ₚ table ∧ desc ≡ₚ table ∧
    StronglySorted (λ a b : Row,
      string_le (QueryClauses.text_at column a) (QueryClauses.text_at column b)) asc ∧
    StronglySorted (λ a b : Row,
      string_ge (QueryClauses.text_at column a) (QueryClauses.text_at column b)) desc.
Proof.
  intros Hall. pose proof (no_row_without column table Hall) as Hno.
  unfold QueryClauses.ORDER_BY_ASC, QueryClauses.ORDER_BY_DESC.
  rewrite !decide_False by done.
  eexists _, _. split_and!; [done|done|apply std_sort_perm..| |].
  - eapply StronglySorted_weaken; [|apply std_sort_sorted, by_text_strict_weak].
    intros a b Hab. unfold string_le, string_lt in *. by rewrite Hab.
  - eapply StronglySorted_weaken; [|apply std_sort_sorted, by_text_desc_strict_weak].
    intros a b Hab. unfold string_ge, string_gt in *. by rewrite Hab.
Qed.

Lemma ORDER_BY_sorted_rearrangement_witness :
  Forall (λ row : Row, is_Some (row !! "k")) Samples.tied17 ∧
  ∃ asc desc,
    @QueryClauses.ORDER_BY_ASC libstdcxx Samples.tied17 "k" = Ret asc ∧
    @QueryClauses.ORDER_BY_DESC libstdcxx Samples.tied17 "k" = Ret desc ∧
    asc ≡ₚ Samples.tied17 ∧ desc ≡ₚ Samples.tied17 ∧
    StronglySorted (λ a b : Row,
      string_le (QueryClauses.text_at "k" a) (QueryClauses.text_at "k" b)) asc ∧
    StronglySorted (λ a b : Row,
      string_ge (QueryClauses.text_at "k" a) (QueryClauses.text_at "k" b)) desc.
Proof.
  assert (Forall (λ row : Row, is_Some (row !! "k")) Samples.tied17) as Hall.
  { repeat constructor; by eexists. }
  split; [exact Hall|].
  exact (@ORDER_BY_sorted_rearrangement libstdcxx Samples.tied17 "k" Hall).
Defined.

(** * Claims about [DISTINCT] *)

(** C3, at the failing input.  The rows [{a ↦ "b|c:d"}] and
    [{a ↦ "b", c ↦ "d"}] are different mappings, yet [DISTINCT] files both
    under the string ["a:b|c:d|"] and drops the second one as a duplicate of
    the first. *)
Theorem DISTINCT_conflates_rows :
  Samples.one_field ≠ Samples.two_fields ∧
  QueryClauses.row_str Samples.one_field = QueryClauses.row_str Samples.two_fields ∧
  QueryClauses.DISTINCT [Samples.one_field; Samples.two_fields] = [Samples.one_field].
Proof.
  split_and!.
  - intros Heq. apply (f_equal (λ row : Row, row !! "c")) in Heq.
    vm_compute in Heq. discriminate.
  - vm_compute. reflexivity.
  - vm_compute. reflexivity.
Qed.

(** What [DISTINCT] does in general: a row is kept unless an earlier row has
    the same [row_str]; among plain rows that is an earlier copy of the row
    itself. *)
Section distinct_facts.
Import QueryClauses.

Lemma append_String (x : ascii) (a b : string) : String x a +:+ b = String x (a +:+ b).
Proof. done. Qed.

Lemma append_nil_l (a : string) : "" +:+ a = a.
Proof. done. Qed.

Lemma append_assoc (a b c : string) : (a +:+ b) +:+ c = a +:+ (b +:+ c).
Proof. induction a as [|x a IH]; [done|]. by rewrite !append_String, IH. Qed.

Lemma append_nil_r (a : string) : a +:+ "" = a.
Proof. induction a as [|x a IH]; [done|]. by rewrite append_String, IH. Qed.

Lemma row_str_from (kvs : list (string * string)) (acc : string) :
  foldl (λ row_str kv, row_str +:+ (((kv.1 +:+ ":") +:+ kv.2) +:+ "|")) acc kvs
  = acc +:+ serial kvs.
Proof.
  revert acc. induction kvs as [|kv kvs IH]; intros acc.
  - simpl. by rewrite append_nil_r.
  - cbn [foldl]. rewrite IH.
    change (serial (kv :: kvs))
      with (kv.1 +:+ String ":" (kv.2 +:+ String "|" (serial kvs))).
    by rewrite !append_assoc.
Qed.

Lemma row_str_serial (row : Row) : row_str row = serial (items row).
Proof. unfold row_str. by rewrite row_str_from. Qed.

(** Two texts that agree up to the first [c] and after it. *)
Lemma cut_at (c : ascii) (a b s t : string) :
  occurs c a = false → occurs c b = false →
  a +:+ String c s = b +:+ String c t → a = b ∧ s = t.
Proof.
  revert b. induction a as [|x a IH]; intros [|y b];
    rewrite ?append_String, ?append_nil_l; simpl.
  - by intros _ _ [= ->].
  - intros _ [Hy _]%orb_false_elim [= -> _]. by rewrite bool_decide_eq_true_2 in Hy.
  - intros [Hx _]%orb_false_elim _ [= -> _]. by rewrite bool_decide_eq_true_2 in Hx.
  - intros [_ Ha]%orb_false_elim [_ Hb]%orb_false_elim [= -> Hrest].
    destruct (IH b Ha Hb Hrest) as [-> ->]. done.
Qed.

Lemma serial_inj (kvs1 kvs2 : list (string * string)) :
  Forall (λ kv, occurs ":" kv.1 = false ∧ occurs "|" kv.2 = false) kvs1 →
  Forall (λ kv, occurs ":" kv.1 = false ∧ occurs "|" kv.2 = false) kvs2 →
  serial kvs1 = serial kvs2 → kvs1 = kvs2.
Proof.
  intros H1. revert kvs2.
  induction H1 as [|[k1 v1] kvs1 [Hk1 Hv1] _ IH]; intros kvs2 H2;
    destruct H2 as [|[k2 v2] kvs2 [Hk2 Hv2] H2]; simpl in *.
  - done.
  - destruct k2; by rewrite ?append_String, ?append_nil_l.
  - destruct k1; by rewrite ?append_String, ?append_nil_l.
  - intros Heq. apply cut_at in Heq as [-> Heq]; [|done..].
    apply cut_at in Heq as [-> Heq]; [|done..].
    by rewrite (IH kvs2 H2 Heq).
Qed.

Lemma row_str_inj (row1 row2 : Row) :
  plain row1 → plain row2 → row_str row1 = row_str row2 → row1 = row2.
Proof.
  intros Hplain1 Hplain2. rewrite !row_str_serial. intros Heq.
  rewrite <-(list_to_map_items row1), <-(list_to_map_items row2). f_equal.
  apply serial_inj; [..|done]; apply Forall_forall; intros [k v] Hkv%elem_of_items.
  - by apply (Hplain1 k v).
  - by apply (Hplain2 k v).
Qed.

(** After the loop [seen] holds the [row_str] of every row met. *)
Lemma DISTINCT_state (table : Table) :
  foldl (λ '(result, seen) row,
     if decide (row_str row ∈ seen)
     then (result, seen)
     else (result ++ [row], {[row_str row]} ∪ seen))
     ([], (∅ : gset string)) table
  = (DISTINCT table, list_to_set (row_str <$> table)).
Proof.
  unfold DISTINCT. induction table as [|row table IH] using rev_ind; [done|].
  rewrite foldl_app, IH, fmap_app, list_to_set_app_L. simpl.
  rewrite (right_id_L ∅ (∪)).
  destruct (decide _) as [Hin|Hin]; simpl; f_equal.
  - symmetry. rewrite (comm_L (∪)).
    by apply subseteq_union_1_L, singleton_subseteq_l.
  - apply (comm_L (∪)).
Qed.

Lemma DISTINCT_snoc (table : Table) (row : Row) :
  DISTINCT (table ++ [row])
  = DISTINCT table ++ if decide (row_str row ∈ row_str <$> table) then [] else [row].
Proof.
  unfold DISTINCT at 1. rewrite foldl_app, DISTINCT_state. simpl.
  destruct (decide (row_str row ∈ list_to_set (C := gset string) (row_str <$> table)))
    as [Hin|Hin]; rewrite elem_of_list_to_set in Hin.
  - rewrite decide_True by done. by rewrite app_nil_r.
  - by rewrite decide_False by done.
Qed.

Lemma DISTINCT_sublist (table : Table) : sublist (DISTINCT table) table.
Proof.
  induction table as [|row table IH] using rev_ind; [done|].
  rewrite DISTINCT_snoc. apply sublist_app; [done|].
  destruct (decide _); [apply sublist_nil_l|done].
Qed.

(** On plain rows [DISTINCT] keeps a row exactly when no copy of it came
    earlier. *)
Lemma DISTINCT_snoc_plain (table : Table) (row : Row) :
  Forall plain table → plain row →
  DISTINCT (table ++ [row])
  = DISTINCT table ++ if decide (row ∈ table) then [] else [row].
Proof.
  intros Htable Hrow. rewrite DISTINCT_snoc. f_equal.
  destruct (decide (row ∈ table)) as [Hin|Hin].
  - rewrite decide_True; [done|]. apply list_elem_of_fmap. by exists row.
  - rewrite decide_False; [done|].
    intros (row' & Heq & Hin')%list_elem_of_fmap.
    apply row_str_inj in Heq; [by subst| done |].
    by eapply Forall_forall in Htable.
Qed.
End distinct_facts.

(** * Claims about grouping *)

Section group_by_claims.

Lemma GROUP_BY_lookup (table : Table) (group_column key : string) :
  QueryClauses.GROUP_BY table group_column !! key
  = nonempty (filter (λ row, row !! group_column = Some key) table).
Proof.
  unfold QueryClauses.GROUP_BY.
  rewrite <-(list_fmap_id (filter _ table)).
  apply (group_fold_lookup (λ row : Row, row !! group_column) id).
Qed.

Lemma nonempty_Some {A} (l g : list A) : nonempty l = Some g → g = l ∧ l ≠ [].
Proof. destruct l; [done|]. by intros [= <-]. Qed.

(** C10.  Every group [GROUP_BY] returns is non-empty; every row of a group
    has the group column, with the group's key as its value -- the group is
    the table's rows with that value, in table order; groups under
    different keys share no row; and the rows found in some group are the
    rows of the table that have the group column.  Both headers define
    the same function. *)
Theorem GROUP_BY_partition (table : Table) (group_column : string) :
  SqlHelper.GROUP_BY table group_column = QueryClauses.GROUP_BY table group_column ∧
  (∀ key group, QueryClauses.GROUP_BY table group_column !! key = Some group →
     group ≠ [] ∧
     Forall (λ row, row !! group_column = Some key) group ∧
     group = filter (λ row, row !! group_column = Some key) table) ∧
  (∀ key1 key2 group1 group2 row,
     QueryClauses.GROUP_BY table group_column !! key1 = Some group1 →
     QueryClauses.GROUP_BY table group_column !! key2 = Some group2 →
     key1 ≠ key2 → row ∈ group1 → row ∉ group2) ∧
  (∀ row,
     (∃ key group, QueryClauses.GROUP_BY table group_column !! key = Some group ∧
                   row ∈ group)
     ↔ row ∈ table ∧ is_Some (row !! group_column)).
Proof.
  split_and!.
  - done.
  - intros key group Hg. rewrite GROUP_BY_lookup in Hg.
    apply nonempty_Some in Hg as [-> Hne]. split_and!; [done| |done].
    apply Forall_forall. by intros row [? _]%list_elem_of_filter.
  - intros key1 key2 group1 group2 row Hg1 Hg2 Hne Hin1 Hin2.
    rewrite GROUP_BY_lookup in Hg1, Hg2.
    apply nonempty_Some in Hg1 as [-> _]. apply nonempty_Some in Hg2 as [-> _].
    apply list_elem_of_filter in Hin1 as [H1 _].
    apply list_elem_of_filter in Hin2 as [H2 _]. congruence.
  - intros row. split.
    + intros (key & group & Hg & Hin). rewrite GROUP_BY_lookup in Hg.
      apply nonempty_Some in Hg as [-> _].
      apply list_elem_of_filter in Hin as [Hkey Hin]. by rewrite Hkey.
    + intros [Hin [key Hkey]].
      exists key, (filter (λ row, row !! group_column = Some key) table).
      assert (row ∈ filter (λ row, row !! group_column = Some key) table) as Hrow
        by (by apply list_elem_of_filter).
      split; [|done]. rewrite GROUP_BY_lookup.
      destruct (filter _ table); [by apply elem_of_nil in Hrow|done].
Qed.
End group_by_claims.

(** * Claims about the aggregates *)

Section aggregate_claims.
Context `{Double}.
Implicit Types (group : Table) (column : string).

Lemma fold_rows_texts (step : double → double → double) column group start :
  foldM (λ acc (row : Row),
    match row !! column with
    | Some text => x ← stod_ text; Ret (step acc x)
    | None => Ret acc
    end) start group
  = fold_texts step start (present column group).
Proof.
  unfold fold_texts.
  revert start. induction group as [|row group IH]; intros start; simpl; [done|].
  destruct (row !! column) as [text|]; simpl; [|apply IH].
  destruct (stod_ text); simpl; [apply IH|done].
Qed.

Lemma fold_texts_parsed step start texts xs :
  Forall2 (λ text x, stod text = Some x) texts xs →
  fold_texts step start texts = Ret (foldl step start xs).
Proof.
  unfold fold_texts. intros Hxs. revert start.
  induction Hxs as [|text x texts xs Hx _ IH]; intros start; simpl; [done|].
  unfold stod_. rewrite Hx. simpl. apply IH.
Qed.

Lemma fold_texts_fault step start texts e :
  fold_texts step start texts = Raise e →
  e = BadNumber ∧ ∃ text, text ∈ texts ∧ stod text = None.
Proof.
  unfold fold_texts.
  revert start. induction texts as [|text texts IH]; intros start; simpl; [done|].
  destruct (stod_ text) as [x|e'] eqn:Hx; simpl.
  - intros (-> & text' & Hin & Hbad)%IH. split; [done|].
    exists text'. split; [by right|done].
  - intros [= <-]. unfold stod_ in Hx.
    destruct (stod text) eqn:Hbad; [done|]. injection Hx as <-.
    split; [done|]. exists text. split; [by left|done].
Qed.

Lemma fold_texts_bad step start texts text :
  text ∈ texts → stod text = None → fold_texts step start texts = Raise BadNumber.
Proof.
  unfold fold_texts. intros Hin Hbad. revert start.
  induction texts as [|text' texts IH]; intros start.
  { by apply elem_of_nil in Hin. }
  simpl. apply elem_of_cons in Hin as [<-|Hin].
  - unfold stod_. by rewrite Hbad.
  - destruct (stod_ text') as [x|e] eqn:Hx; simpl; [by apply IH|].
    unfold stod_ in Hx. destruct (stod text'); [done|]. by injection Hx as <-.
Qed.

Lemma numeric_parsed texts :
  numeric texts → ∃ xs, Forall2 (λ text x, stod text = Some x) texts xs.
Proof.
  induction 1 as [|text texts [x Hx] _ [xs IH]]; [by exists []|].
  exists (x :: xs). by constructor.
Qed.

Lemma elem_of_present column group text :
  text ∈ present column group ↔ ∃ row, row ∈ group ∧ row !! column = Some text.
Proof. apply list_elem_of_omap. Qed.

Lemma present_filter column group :
  present column (filter (λ row, is_Some (row !! column)) group) = present column group.
Proof.
  induction group as [|row group IH]; [done|].
  rewrite filter_cons. simpl. destruct (row !! column) as [text|] eqn:Hrow.
  - rewrite decide_True by done. simpl. by rewrite Hrow, IH.
  - rewrite decide_False by (by intros [??]). done.
Qed.

Lemma SUM_texts group column :
  QueryClauses.SUM group column = fold_texts dadd d0 (present column group).
Proof. apply fold_rows_texts. Qed.

(** C6, amended.  [SUM] adds up, from 0.0 and in row order, the parsed
    values of the rows that have the column; rows without the column leave
    the sum as it is and never make the call fail; and the call fails, with
    the error [std::stod] throws, exactly when some row's value for the
    column is text that [std::stod] rejects.  Both headers define the same
    function. *)
Theorem SUM_absent_zero_bad_text_fails group column :
  SqlHelper.SUM group column = QueryClauses.SUM group column ∧
  (∀ xs, Forall2 (λ text x, stod text = Some x) (present column group) xs →
     QueryClauses.SUM group column = Ret (foldl dadd d0 xs)) ∧
  QueryClauses.SUM group column
    = QueryClauses.SUM (filter (λ row, is_Some (row !! column)) group) column ∧
  (Forall (λ row : Row, row !! column = None) group →
     QueryClauses.SUM group column = Ret d0) ∧
  (throws (QueryClauses.SUM group column)
     ↔ ∃ row text, row ∈ group ∧ row !! column = Some text ∧ stod text = None) ∧
  (∀ e, QueryClauses.SUM group column = Raise e → e = BadNumber).
Proof.
  split_and!.
  - done.
  - intros xs Hxs. rewrite SUM_texts. by apply fold_texts_parsed.
  - by rewrite !SUM_texts, present_filter.
  - intros Hnone. rewrite SUM_texts.
    assert (present column group = []) as ->; [|done].
    induction Hnone as [|row group Hrow _ IH]; [done|]. simpl.
    by rewrite Hrow.
  - rewrite SUM_texts. split.
    + intros [e (_ & text & Hin & Hbad)%fold_texts_fault].
      apply elem_of_present in Hin as (row & Hin & Hrow). by exists row, text.
    + intros (row & text & Hin & Hrow & Hbad). exists BadNumber.
      apply (fold_texts_bad _ _ _ text); [|done].
      apply elem_of_present. by exists row.
  - intros e. rewrite SUM_texts. by intros [-> _]%fold_texts_fault.
Qed.
End aggregate_claims.

(** C6, as stated, fails.  The value ["12abc"] of the one row of [trailing]
    is not a number, and [SUM] does not fail on it: [std::stod] reads the
    leading [12], leaves the rest unread, and the sum is 12. *)
Lemma SUM_reads_leading_number :
  Samples.trailing !! 0 ≫= (.!! "v") = Some "12abc" ∧
  Instances.number_prefix "12abc" = "12" ∧
  @QueryClauses.SUM Instances.whole_double Samples.trailing "v" = Ret 12%Z.
Proof. split_and!; reflexivity. Qed.

Section extreme_claims.
Context `{Double}.
Implicit Types (group rest : Table) (first : Row) (column : string).

Lemma MAX_texts first rest column :
  QueryClauses.MAX (first :: rest) column
  = text0 ← at_ first column; start ← stod_ text0;
    fold_texts (keep dgt) start (present column (first :: rest)).
Proof.
  unfold QueryClauses.MAX. destruct (at_ first column) as [text0|]; simpl; [|done].
  destruct (stod_ text0) as [start|]; simpl; [|done].
  exact (fold_rows_texts (keep dgt) column (first :: rest) start).
Qed.

Lemma MIN_texts first rest column :
  QueryClauses.MIN (first :: rest) column
  = text0 ← at_ first column; start ← stod_ text0;
    fold_texts (keep dlt) start (present column (first :: rest)).
Proof.
  unfold QueryClauses.MIN. destruct (at_ first column) as [text0|]; simpl; [|done].
  destruct (stod_ text0) as [start|]; simpl; [|done].
  exact (fold_rows_texts (keep dlt) column (first :: rest) start).
Qed.

(** When a seeded fold fails, and what it returns when it does not. *)
Lemma seeded_fold (step : double → double → double) first rest column :
  (throws (text0 ← at_ first column; start ← stod_ text0;
           fold_texts step start (present column (first :: rest)))
     ↔ first !! column = None
       ∨ ∃ text, text ∈ present column (first :: rest) ∧ stod text = None) ∧
  (∀ text0 x0 xs, first !! column = Some text0 → stod text0 = Some x0 →
     Forall2 (λ text x, stod text = Some x) (present column (first :: rest)) xs →
     (text0 ← at_ first column; start ← stod_ text0;
      fold_texts step start (present column (first :: rest)))
     = Ret (foldl step x0 xs)).
Proof.
  split.
  - unfold at_. destruct (first !! column) as [text0|] eqn:Hfirst.
    2:{ split; [by left|]. intros _. by exists OutOfRange. }
    rewrite bind_Ret. unfold stod_ at 1.
    destruct (stod text0) as [x0|] eqn:Hx0.
    + rewrite bind_Ret. split.
      * intros [e (_ & text & Hin & Hbad)%fold_texts_fault]. right. by exists text.
      * intros [[=]|(text & Hin & Hbad)]. exists BadNumber.
        by apply (fold_texts_bad _ _ _ text).
    + split; [|intros _; by exists BadNumber].
      intros _. right. exists text0. split; [|done].
      unfold present. simpl. rewrite Hfirst. by left.
  - intros text0 x0 xs Hfirst Hx0 Hxs.
    rewrite (at_Some _ _ _ Hfirst), bind_Ret, (stod_Some _ _ Hx0), bind_Ret.
    by apply fold_texts_parsed.
Qed.

Lemma present_first_filter first rest column :
  present column (first :: filter (λ row, is_Some (row !! column)) rest)
  = present column (first :: rest).
Proof.
  change (present column ([first] ++ filter (λ row, is_Some (row !! column)) rest)
          = present column ([first] ++ rest)).
  unfold present. rewrite !omap_app. f_equal. apply present_filter.
Qed.

(** Without the column in the first row the seed cannot be read, whatever
    the later rows hold. *)
Lemma MAX_MIN_first_row_absent first rest column :
  first !! column = None →
  QueryClauses.MAX (first :: rest) column = Raise OutOfRange ∧
  QueryClauses.MIN (first :: rest) column = Raise OutOfRange.
Proof.
  intros Hfirst. unfold QueryClauses.MAX, QueryClauses.MIN, at_.
  by rewrite Hfirst.
Qed.

(** C7, amended.  On a non-empty group [MAX] and [MIN] fail exactly when the
    first row lacks the column -- whether or not a later row has it -- or
    some row's value for the column is text [std::stod] rejects.  Otherwise
    they start from the first row's value and run through the values of the
    rows that have the column, keeping the greater, respectively the
    smaller; later rows without the column are passed over. *)
Theorem MAX_MIN_seeded_from_first_row first rest column :
  (throws (QueryClauses.MAX (first :: rest) column)
     ↔ first !! column = None
       ∨ ∃ text, text ∈ present column (first :: rest) ∧ stod text = None) ∧
  (throws (QueryClauses.MIN (first :: rest) column)
     ↔ first !! column = None
       ∨ ∃ text, text ∈ present column (first :: rest) ∧ stod text = None) ∧
  (first !! column = None →
     QueryClauses.MAX (first :: rest) column = Raise OutOfRange ∧
     QueryClauses.MIN (first :: rest) column = Raise OutOfRange) ∧
  (∀ text0 x0 xs, first !! column = Some text0 → stod text0 = Some x0 →
     Forall2 (λ text x, stod text = Some x) (present column (first :: rest)) xs →
     QueryClauses.MAX (first :: rest) column = Ret (foldl (keep dgt) x0 xs) ∧
     QueryClauses.MIN (first :: rest) column = Ret (foldl (keep dlt) x0 xs)) ∧
  QueryClauses.MAX (first :: rest) column
    = QueryClauses.MAX (first :: filter (λ row, is_Some (row !! column)) rest) column ∧
  QueryClauses.MIN (first :: rest) column
    = QueryClauses.MIN (first :: filter (λ row, is_Some (row !! column)) rest) column.
Proof.
  destruct (seeded_fold (keep dgt) first rest column) as [Hmax_fail Hmax].
  destruct (seeded_fold (keep dlt) first rest column) as [Hmin_fail Hmin].
  split_and!.
  - by rewrite MAX_texts.
  - by rewrite MIN_texts.
  - apply MAX_MIN_first_row_absent.
  - intros text0 x0 xs Hfirst Hx0 Hxs. rewrite MAX_texts, MIN_texts.
    split; [by apply (Hmax text0)|by apply (Hmin text0)].
  - by rewrite !MAX_texts, present_first_filter.
  - by rewrite !MIN_texts, present_first_filter.
Qed.
End extreme_claims.

(** C7, as stated, fails.  The first row of [unreadable] has the column
    [v], and [MAX] and [MIN] fail all the same: its value is not a number,
    and [std::stod] throws on it. *)
Lemma MAX_MIN_fail_on_unreadable_first_value :
  is_Some (Samples.unreadable !! 0 ≫= (.!! "v")) ∧
  @QueryClauses.MAX Instances.whole_double Samples.unreadable "v" = Raise BadNumber ∧
  @QueryClauses.MIN Instances.whole_double Samples.unreadable "v" = Raise BadNumber.
Proof. split_and!; [by eexists|reflexivity|reflexivity]. Qed.

(** The readings [3], none and [7] in column [v]. *)
Example MAX_MIN_readings :
  @QueryClauses.MAX Instances.whole_double Samples.readings "v" = Ret 7%Z ∧
  @QueryClauses.MIN Instances.whole_double Samples.readings "v" = Ret 3%Z.
Proof. split; reflexivity. Qed.

(** * Claims about paging *)

Section paging_claims.
Import QueryClauses.
Implicit Types (table : Table) (limit offset : N).

Lemma LIMIT_OFFSET_beyond table limit offset :
  (N.of_nat (length table) ≤ offset)%N → LIMIT_OFFSET table limit offset = Ret [].
Proof.
  intros Hle. unfold LIMIT_OFFSET.
  by rewrite (proj2 (N.leb_le _ _) Hle).
Qed.

(** A page that starts inside the table, when [offset + limit] does not
    wrap. *)
Lemma LIMIT_OFFSET_page table limit offset :
  (offset + limit < 2 ^ 64)%N →
  LIMIT_OFFSET table limit offset
  = Ret (take (N.to_nat limit) (drop (N.to_nat offset) table)).
Proof.
  intros Hfit. unfold LIMIT_OFFSET, size_t.
  destruct (N.leb_spec (N.of_nat (length table)) offset) as [Hle|Hlt].
  { rewrite drop_ge by lia. by rewrite take_nil. }
  rewrite N.mod_small by done.
  destruct (N.ltb_spec (N.min (offset + limit) (N.of_nat (length table))) offset)
    as [Hinv|_]; [lia|].
  f_equal. destruct (decide (offset + limit ≤ N.of_nat (length table))%N).
  - rewrite N.min_l by done. f_equal. lia.
  - rewrite N.min_r by lia. rewrite !take_ge; [done|rewrite length_drop; lia..].
Qed.

(** C9.  For a page size [n > 0], the pages at the offsets [0, n, 2n, …]
    up to the length of the table, one after another, are the table; and a
    page whose offset is at or beyond the end of the table is empty, not an
    error.  The page size is a [size_t], and a vector of rows has fewer than
    2^63 elements. *)
Theorem LIMIT_OFFSET_pages_rebuild table (n : N) :
  (0 < n < 2 ^ 64)%N → (N.of_nat (length table) < 2 ^ 63)%N →
  (∀ offset, (N.of_nat (length table) ≤ offset)%N →
     LIMIT_OFFSET table n offset = Ret []) ∧
  ∃ pages : list Table,
    Forall2 (λ k page, LIMIT_OFFSET table n (N.of_nat k * n) = Ret page)
      (seq 0 (S (length table `div` N.to_nat n))) pages ∧
    concat pages = table.
Proof.
  intros Hn Hsize. split; [intros offset; apply LIMIT_OFFSET_beyond|].
  exists ((λ k, take (N.to_nat n) (drop (k * N.to_nat n) table))
            <$> seq 0 (S (length table `div` N.to_nat n))).
  split.
  - apply Forall2_fmap_r, Forall_Forall2_diag, Forall_forall.
    intros k Hk%elem_of_seq.
    assert (k * N.to_nat n ≤ length table) as Hk'.
    { transitivity (length table `div` N.to_nat n * N.to_nat n).
      - apply Nat.mul_le_mono_r. lia.
      - rewrite Nat.mul_comm. apply Nat.Div0.mul_div_le. }
    rewrite LIMIT_OFFSET_page.
    + by rewrite N2Nat.inj_mul, Nat2N.id.
    + destruct k as [|k]; [lia|].
      assert (N.to_nat n ≤ S k * N.to_nat n) by (simpl; lia).
      assert (N.of_nat (S k) * n = N.of_nat (S k * N.to_nat n))%N as ->
        by (by rewrite Nat2N.inj_mul, N2Nat.id).
      lia.
  - apply chunks_cover.
    pose proof (Nat.div_mod (length table) (N.to_nat n) ltac:(lia)).
    pose proof (Nat.mod_upper_bound (length table) (N.to_nat n) ltac:(lia)).
    lia.
Qed.

Lemma LIMIT_OFFSET_pages_rebuild_witness :
  ((0 < 2 < 2 ^ 64)%N ∧ (N.of_nat (length Samples.left3) < 2 ^ 63)%N) ∧
  ∃ pages : list Table,
    Forall2 (λ k page, LIMIT_OFFSET Samples.left3 2 (N.of_nat k * 2) = Ret page)
      (seq 0 2) pages ∧
    concat pages = Samples.left3.
Proof.
  assert ((0 < 2 < 2 ^ 64)%N) as Hn by (vm_compute; split; reflexivity).
  assert ((N.of_nat (length Samples.left3) < 2 ^ 63)%N) as Hsize by (vm_compute; reflexivity).
  split; [by split|].
  apply (LIMIT_OFFSET_pages_rebuild Samples.left3 2 Hn Hsize).
Defined.
End paging_claims.

(** * Claims about query 5 *)

Section throwing_loops.
Context {A B : Type}.

(** A loop that pushes one computed element per pass. *)
Lemma foldM_push (f : A → outcome B) (l : list A) (ys acc : list B) :
  Forall2 (λ x y, f x = Ret y) l ys →
  foldM (λ acc x, y ← f x; Ret (acc ++ [y])) acc l = Ret (acc ++ ys).
Proof.
  intros Hys. revert acc.
  induction Hys as [|x y l ys Hy _ IH]; intros acc; simpl.
  - by rewrite app_nil_r.
  - rewrite Hy. simpl. rewrite IH. by rewrite <-(assoc_L (++)).
Qed.

Lemma returns_all (f : A → outcome B) (Q : B → Prop) (l : list A) :
  Forall (λ x, ∃ y, f x = Ret y ∧ Q y) l →
  ∃ ys, Forall2 (λ x y, f x = Ret y) l ys ∧ Forall Q ys.
Proof.
  induction 1 as [|x l (y & Hy & HQ) _ (ys & Hys & HQs)]; [by exists []|].
  exists (y :: ys). split; by constructor.
Qed.

Lemma WHERE_filter_from (p : Row → bool) (predicate : Row → outcome bool)
    (table acc : Table) :
  Forall (λ row, predicate row = Ret (p row)) table →
  foldM (λ result row,
    keep ← predicate row;
    Ret (if keep : bool then result ++ [row] else result)) acc table
  = Ret (acc ++ filter (λ row, p row) table).
Proof.
  intros Hall. revert acc.
  induction Hall as [|row table Hrow _ IH]; intros acc; simpl.
  - by rewrite app_nil_r.
  - rewrite Hrow. simpl. rewrite IH, filter_cons. destruct (p row).
    + rewrite decide_True by done. by rewrite <-(assoc_L (++)).
    + by rewrite decide_False by (intros []).
Qed.

Lemma WHERE_filter (p : Row → bool) (predicate : Row → outcome bool) (table : Table) :
  Forall (λ row, predicate row = Ret (p row)) table →
  SqlHelper.WHERE table predicate = Ret (filter (λ row, p row) table).
Proof. apply WHERE_filter_from. Qed.
End throwing_loops.

Section query_claims.
Context `{Double} `{StdSort}.
Import SqlHelper Query5.
Implicit Types (row l r : Row) (table : Table) (column : string).

Lemma Forall_filter_keep (P : Row → Prop) (Q : Row → Prop) `{!∀ row, Decision (Q row)}
    table :
  Forall P table → Forall P (filter Q table).
Proof.
  intros HP. apply Forall_forall. intros row [_ Hin]%list_elem_of_filter.
  by eapply Forall_forall in HP.
Qed.

Lemma has_merged_left column l r : has column l → has column (merged_row l r).
Proof.
  unfold has. rewrite merged_row_lookup. intros Hl. by destruct (r !! column).
Qed.

Lemma has_merged_right column l r : has column r → has column (merged_row l r).
Proof.
  unfold has. rewrite merged_row_lookup. by intros [v ->].
Qed.

Lemma numbers_parse_merged l r :
  numbers_parse l → numbers_parse r → numbers_parse (merged_row l r).
Proof.
  intros Hl Hr column text Hcol. rewrite merged_row_lookup.
  destruct (r !! column) as [v|] eqn:Hv.
  - intros [= <-]. by apply (Hr column).
  - by apply Hl.
Qed.

Lemma probe_Forall (P Q S : Row → Prop) left_table right_table lc rc :
  Forall P left_table → Forall Q right_table →
  (∀ l r, P l → Q r → has lc l → S (merged_row l r)) →
  Forall S (left_table ≫= probe right_table lc rc).
Proof.
  intros HP HQ HS. apply Forall_forall. intros row Hrow.
  apply list_elem_of_bind in Hrow as (l & Hrow & Hl).
  unfold probe in Hrow. destruct (l !! lc) as [key|] eqn:Hkey.
  - apply list_elem_of_fmap in Hrow as (r & -> & Hr).
    apply list_elem_of_filter in Hr as [_ Hr].
    apply HS; [by eapply Forall_forall in HP|by eapply Forall_forall in HQ|].
    unfold has. by rewrite Hkey.
  - by apply elem_of_nil in Hrow.
Qed.

Lemma probe_nothing left_table lc rc : left_table ≫= probe [] lc rc = [].
Proof.
  induction left_table as [|l L IH]; [done|].
  rewrite bind_cons, IH. unfold probe. by destruct (l !! lc).
Qed.

Lemma EQUALS_filter column value table :
  WHERE table (EQUALS column value)
  = Ret (filter (λ row, row !! column = Some value) table).
Proof.
  rewrite (WHERE_filter (λ row,
    bool_decide (is_Some (row !! column)) && bool_decide (row !! column = Some value))).
  - f_equal. apply list_filter_iff. intros row.
    rewrite andb_True, !bool_decide_spec. split; [by intros [_ ?]|].
    intros Hrow. by rewrite Hrow.
  - by apply Forall_forall.
Qed.

Lemma in_date_range_filter start_date end_date table :
  Forall (has "O_ORDERDATE") table →
  WHERE table (in_date_range start_date end_date)
  = Ret (filter (λ row, in_range start_date end_date row) table).
Proof.
  intros Hdate. apply WHERE_filter.
  eapply Forall_impl; [apply Hdate|]. intros row [date Hrow].
  unfold in_date_range, in_range, at_. by rewrite Hrow.
Qed.

Lemma same_nation_filter table :
  Forall (λ row, has "C_NATIONKEY" row ∧ has "S_NATIONKEY" row) table →
  WHERE table same_nation
  = Ret (filter (λ row, row !! "C_NATIONKEY" = row !! "S_NATIONKEY") table).
Proof.
  intros Hkeys.
  rewrite (WHERE_filter (λ row,
    bool_decide (row !! "C_NATIONKEY" = row !! "S_NATIONKEY"))).
  - f_equal. apply list_filter_iff. intros row. by rewrite bool_decide_spec.
  - eapply Forall_impl; [apply Hkeys|]. intros row [[c Hc] [s Hs]].
    unfold same_nation, at_. rewrite Hc, Hs. simpl. do 2 f_equal.
    apply bool_decide_ext. split; congruence.
Qed.

Lemma revenue_row_priced row :
  has "N_NAME" row → has "L_EXTENDEDPRICE" row → has "L_DISCOUNT" row →
  numbers_parse row →
  ∃ new_row, revenue_row row = Ret new_row ∧ priced new_row.
Proof.
  intros [name Hname] [price Hprice] [discount Hdiscount] Hnum.
  destruct (Hnum "L_EXTENDEDPRICE" price) as [p Hp]; [by left|done|].
  destruct (Hnum "L_DISCOUNT" discount) as [d Hd]; [by right; left|done|].
  unfold revenue_row, at_, stod_. rewrite Hname, Hprice, Hdiscount. simpl.
  rewrite Hp, Hd. simpl. eexists. split; [done|]. split.
  - by eexists.
  - by eexists.
Qed.

Section printed_numbers.
Hypothesis Hreads : reads_back_prints.

Lemma SUM_priced table :
  Forall priced table → ∃ total, SUM table "REVENUE" = Ret total.
Proof.
  intros Hpriced.
  destruct (numeric_parsed (present "REVENUE" table)) as [xs Hxs].
  { apply Forall_forall. intros text (row & Hin & Hrow)%elem_of_present.
    eapply Forall_forall in Hpriced as [_ [x Hx]]; [|done].
    rewrite Hx in Hrow. injection Hrow as <-. apply Hreads. }
  exists (foldl dadd d0 xs).
  change (SUM table "REVENUE") with (QueryClauses.SUM table "REVENUE").
  rewrite SUM_texts. by apply fold_texts_parsed.
Qed.

Lemma sum_row_priced (group : string * Table) :
  Forall priced group.2 →
  ∃ result_row, sum_row group = Ret result_row ∧ priced result_row.
Proof.
  intros [total Htotal]%SUM_priced. unfold sum_row. rewrite Htotal. simpl.
  eexists. split; [done|]. split; by eexists.
Qed.

Lemma ORDER_BY_DESC_priced table :
  Forall priced table →
  ∃ sorted, ORDER_BY_DESC table "REVENUE" = Ret sorted ∧ Forall priced sorted.
Proof.
  intros Hpriced. unfold ORDER_BY_DESC. destruct (decide (2 ≤ length table)).
  - assert (foldM (λ _ row, text ← at_ row "REVENUE"; _ ← stod_ text; Ret ()) () table
            = Ret ()) as ->.
    { clear l. induction Hpriced as [|row table [_ [x Hx]] _ IH]; [done|].
      destruct (Hreads x) as [y Hy]. cbn [foldM].
      by rewrite (at_Some _ _ _ Hx), bind_Ret, (stod_Some _ _ Hy), !bind_Ret. }
    simpl. eexists. split; [done|]. by rewrite std_sort_perm.
  - by exists table.
Qed.

Lemma store_results_priced (sorted : Table) (results : gmap string double) :
  Forall priced sorted → ∃ results', foldM store_result results sorted = Ret results'.
Proof.
  intros Hpriced. revert results.
  induction Hpriced as [|row sorted [[name Hname] [x Hx]] _ IH]; intros results.
  - by exists results.
  - destruct (Hreads x) as [y Hy]. cbn [foldM].
    assert (store_result results row = Ret (<[name := y]> results)) as ->.
    { unfold store_result.
      rewrite (at_Some _ _ _ Hx), bind_Ret, (stod_Some _ _ Hy), bind_Ret.
      by rewrite (at_Some _ _ _ Hname), !bind_Ret. }
    rewrite bind_Ret. apply IH.
Qed.
End printed_numbers.
End query_claims.

(** One stage of the pipeline returns, and the next one starts. *)
Ltac run_stage lem := (rewrite lem by done); rewrite (@bind_Ret Table); cbv beta.

Section query_theorem.
Context `{Double} `{StdSort}.
Import SqlHelper Query5.

(** C5.  On well-formed input [executeQuery5] returns [false] exactly when
    no row of the region table has the given [R_NAME].  When some region
    matches and no order is dated within [start_date ≤ date < end_date], it
    returns [true] and stores nothing: the result map is the one it was
    handed, so empty if it was handed an empty one. *)
Theorem executeQuery5_fails_iff_no_region
    (r_name start_date end_date : string) (num_threads : Z)
    (customer_data orders_data lineitem_data supplier_data nation_data
       region_data : Table)
    (results : gmap string double) :
  well_formed num_threads customer_data orders_data lineitem_data supplier_data
    nation_data region_data →
  reads_back_prints →
  let filtered_region := filter (λ row : Row, row !! "R_NAME" = Some r_name) region_data in
  let run := executeQuery5 r_name start_date end_date num_threads customer_data
               orders_data lineitem_data supplier_data nation_data region_data results in
  (∃ ok results', run = Ret (ok, results') ∧ (ok = false ↔ filtered_region = [])) ∧
  (filtered_region ≠ [] →
   Forall (λ row, ¬ in_range start_date end_date row) orders_data →
   run = Ret (true, results)).
Proof.
  intros Hwf Hreads filtered_region run.
  destruct Hwf as [Hthreads Hdate Hname Hprice Hdiscount Hnumbers].
  apply Forall_app in Hnumbers as [Hcustomer Hnumbers].
  apply Forall_app in Hnumbers as [Horders Hnumbers].
  apply Forall_app in Hnumbers as [Hlineitem Hnumbers].
  apply Forall_app in Hnumbers as [Hsupplier Hnumbers].
  apply Forall_app in Hnumbers as [Hnation Hregion].
  unfold run, executeQuery5. rewrite EQUALS_filter, bind_Ret.
  fold filtered_region.
  destruct (decide (filtered_region = [])) as [Hnone|Hsome].
  { split; [|done]. by exists false, results. }
  run_stage (INNER_JOIN_probe nation_data).
  set (nation_region := nation_data ≫= probe filtered_region "N_REGIONKEY" "R_REGIONKEY").
  run_stage (INNER_JOIN_probe customer_data).
  set (customer_nation := customer_data ≫= probe nation_region "C_NATIONKEY" "N_NATIONKEY").
  run_stage in_date_range_filter.
  set (filtered_orders := filter (λ row, in_range start_date end_date row) orders_data).
  run_stage (INNER_JOIN_probe customer_nation).
  set (customer_orders := customer_nation ≫= probe filtered_orders "C_CUSTKEY" "O_CUSTKEY").
  run_stage (INNER_JOIN_probe supplier_data).
  set (supplier_nation := supplier_data ≫= probe nation_region "S_NATIONKEY" "N_NATIONKEY").
  run_stage (INNER_JOIN_probe lineitem_data).
  set (lineitem_orders := lineitem_data ≫= probe customer_orders "L_ORDERKEY" "O_ORDERKEY").
  run_stage (INNER_JOIN_probe lineitem_orders).
  set (temp_join := lineitem_orders ≫= probe supplier_nation "L_SUPPKEY" "S_SUPPKEY").
  split.
  - assert (Forall (λ row, has "N_NAME" row ∧ numbers_parse row) nation_region)
      as Hnation_region.
    { apply (probe_Forall (λ row, has "N_NAME" row ∧ numbers_parse row) numbers_parse).
      - by apply Forall_and.
      - by apply Forall_filter_keep.
      - intros l r [Hn Hl] Hr _.
        split; [by apply has_merged_left|by apply numbers_parse_merged]. }
    assert (Forall (λ row, has "C_NATIONKEY" row ∧ numbers_parse row) customer_nation)
      as Hcustomer_nation.
    { apply (probe_Forall numbers_parse (λ row, has "N_NAME" row ∧ numbers_parse row));
        [done..|].
      intros l r Hl [_ Hr] Hkey.
      split; [by apply has_merged_left|by apply numbers_parse_merged]. }
    assert (Forall numbers_parse filtered_orders) as Hfiltered_orders
      by (by apply Forall_filter_keep).
    assert (Forall (λ row, has "C_NATIONKEY" row ∧ numbers_parse row) customer_orders)
      as Hcustomer_orders.
    { apply (probe_Forall (λ row, has "C_NATIONKEY" row ∧ numbers_parse row)
               numbers_parse); [done..|].
      intros l r [Hc Hl] Hr _.
      split; [by apply has_merged_left|by apply numbers_parse_merged]. }
    assert (Forall (λ row, has "S_NATIONKEY" row ∧ has "N_NAME" row ∧ numbers_parse row)
              supplier_nation) as Hsupplier_nation.
    { apply (probe_Forall numbers_parse (λ row, has "N_NAME" row ∧ numbers_parse row));
        [done..|].
      intros l r Hl [Hn Hr] Hkey. split_and!;
        [by apply has_merged_left|by apply has_merged_right
        |by apply numbers_parse_merged]. }
    assert (Forall (λ row, has "L_EXTENDEDPRICE" row ∧ has "L_DISCOUNT" row ∧
                           has "C_NATIONKEY" row ∧ numbers_parse row) lineitem_orders)
      as Hlineitem_orders.
    { apply (probe_Forall (λ row, has "L_EXTENDEDPRICE" row ∧ has "L_DISCOUNT" row ∧
                                  numbers_parse row)
               (λ row, has "C_NATIONKEY" row ∧ numbers_parse row)); [|done|].
      - apply Forall_and. split; [done|]. by apply Forall_and.
      - intros l r (Hp & Hd & Hl) [Hc Hr] _. split_and!;
          [by apply has_merged_left|by apply has_merged_left
          |by apply has_merged_right|by apply numbers_parse_merged]. }
    assert (Forall (λ row, (has "C_NATIONKEY" row ∧ has "S_NATIONKEY" row) ∧
                           has "N_NAME" row ∧ has "L_EXTENDEDPRICE" row ∧
                           has "L_DISCOUNT" row ∧ numbers_parse row) temp_join)
      as Htemp_join.
    { eapply probe_Forall; [apply Hlineitem_orders|apply Hsupplier_nation|].
      intros l r (Hp & Hd & Hc & Hl) (Hs & Hn & Hr) _. split_and!;
        [by apply has_merged_left|by apply has_merged_right
        |by apply has_merged_right|by apply has_merged_left
        |by apply has_merged_left|by apply numbers_parse_merged]. }
    rewrite (same_nation_filter temp_join)
      by (eapply Forall_impl; [apply Htemp_join|]; by intros row [? _]).
    rewrite (@bind_Ret Table). cbv beta.
    set (full_join := filter _ temp_join).
    destruct (returns_all revenue_row priced full_join) as (with_revenue & Hrev & Hpriced).
    { apply Forall_filter_keep. eapply Forall_impl; [apply Htemp_join|].
      intros row (_ & Hn & Hp & Hd & Hrow). by apply revenue_row_priced. }
    rewrite (foldM_push revenue_row _ _ _ Hrev), (@bind_Ret Table), app_nil_l.
    cbv beta.
    destruct (returns_all sum_row priced (items (GROUP_BY with_revenue "N_NAME")))
      as (aggregated & Hagg & Hpriced').
    { apply Forall_forall. intros [key group] Hgroup%elem_of_items.
      apply sum_row_priced; [done|]. simpl.
      change (GROUP_BY with_revenue "N_NAME")
        with (QueryClauses.GROUP_BY with_revenue "N_NAME") in Hgroup.
      rewrite GROUP_BY_lookup in Hgroup. apply nonempty_Some in Hgroup as [-> _].
      by apply Forall_filter_keep. }
    rewrite (foldM_push sum_row _ _ _ Hagg), (@bind_Ret Table), app_nil_l.
    cbv beta.
    destruct (ORDER_BY_DESC_priced Hreads aggregated Hpriced') as (sorted & -> & Hsorted).
    rewrite (@bind_Ret Table). cbv beta.
    destruct (store_results_priced Hreads sorted results Hsorted) as [results' ->].
    exists true, results'. split; [done|]. by split.
  - intros _ Hnone.
    assert (filtered_orders = []) as Hfiltered.
    { unfold filtered_orders. clear -Hnone.
      induction Hnone as [|row orders Hrow _ IH]; [done|].
      by rewrite filter_cons_False. }
    assert (temp_join = []) as ->.
    { unfold temp_join, lineitem_orders, customer_orders.
      by rewrite Hfiltered, !probe_nothing. }
    change (WHERE [] same_nation) with (Ret (@nil Row)).
    rewrite (@bind_Ret Table). cbn [foldM]. rewrite (@bind_Ret Table). cbv beta.
    change (GROUP_BY [] "N_NAME") with (∅ : gmap string Table).
    rewrite items_empty. cbn [foldM]. by rewrite (@bind_Ret Table).
Qed.
End query_theorem.

(** * The query on a small database *)

Section scenario_facts.
Import Scenario.

Lemma digits_printed (d : Decimal.uint) :
  Instances.digits (DecimalString.NilEmpty.string_of_uint d)
  = DecimalString.NilEmpty.string_of_uint d.
Proof. induction d; simpl; by f_equal. Qed.

Lemma number_prefix_printed (d : Decimal.int) :
  Instances.number_prefix (DecimalString.NilZero.string_of_int d)
  = DecimalString.NilZero.string_of_int d.
Proof.
  destruct d as [d|d]; simpl.
  - destruct d; simpl; try done; by rewrite digits_printed.
  - f_equal. destruct d; simpl; try done; by rewrite digits_printed.
Qed.

Lemma whole_reads_back : @reads_back_prints Instances.whole_double.
Proof.
  intros x. simpl. rewrite number_prefix_printed.
  rewrite DecimalString.NilZero.isi; [by eexists|..].
  - destruct x; simpl; [done| |done].
    intros [= Hnil]. by apply DecimalPos.Unsigned.to_uint_nonnil in Hnil.
  - destruct x; simpl; [done|done|].
    intros [= Hnil]. by apply DecimalPos.Unsigned.to_uint_nonnil in Hnil.
Qed.

Lemma scenario_well_formed :
  @well_formed Instances.whole_double 2 customer orders lineitem supplier nation region.
Proof.
  split; [lia|repeat constructor; by eexists..|].
  repeat constructor; intros column text Hcolumn;
    repeat (apply elem_of_cons in Hcolumn as [->|Hcolumn]);
    try (by apply elem_of_nil in Hcolumn);
    vm_compute; intros [= <-]; by eexists.
Qed.

(** One order in 1994, one line item of price 100 without discount, customer
    and supplier both in Japan. *)
Example scenario_1994 :
  @run Instances.whole_double ties_kept "ASIA" "1994-01-01" "1995-01-01"
  = Ret (true, {["JAPAN" := 100%Z]}).
Proof. vm_compute. reflexivity. Qed.

Example scenario_unknown_region :
  @run Instances.whole_double ties_kept "MARS" "1994-01-01" "1995-01-01"
  = Ret (false, ∅).
Proof. vm_compute. reflexivity. Qed.
End scenario_facts.

Lemma executeQuery5_fails_iff_no_region_witness :
  (@well_formed Instances.whole_double 2 Scenario.customer Scenario.orders
     Scenario.lineitem Scenario.supplier Scenario.nation Scenario.region ∧
   @reads_back_prints Instances.whole_double) ∧
  @Scenario.run Instances.whole_double ties_kept "ASIA" "1995-01-01" "1996-01-01"
  = Ret (true, ∅).
Proof.
  split; [split; [exact scenario_well_formed|exact whole_reads_back]|].
  apply (@executeQuery5_fails_iff_no_region Instances.whole_double ties_kept
           "ASIA" "1995-01-01" "1996-01-01" 2 Scenario.customer Scenario.orders
           Scenario.lineitem Scenario.supplier Scenario.nation Scenario.region ∅
           scenario_well_formed whole_reads_back).
  - vm_compute. discriminate.
  - repeat constructor. vm_compute. auto.
Defined.

(** * The other clauses of [include/queryclauses.hpp] *)

(** A loop that pushes one element per pass. *)
Lemma foldl_push {A B} (f : A → B) (l : list A) (acc : list B) :
  foldl (λ acc x, acc ++ [f x]) acc l = acc ++ (f <$> l).
Proof.
  revert acc. induction l as [|x l IH]; intros acc; simpl.
  - by rewrite app_nil_r.
  - by rewrite IH, <-(assoc_L (++)).
Qed.

Section select_facts.
Import QueryClauses.
Implicit Types (table : Table) (columns : list string) (row : Row).

Lemma selected_lookup row columns (k : string) :
  selected columns row !! k = if decide (k ∈ columns) then row !! k else None.
Proof.
  unfold selected.
  induction columns as [|col columns IH] using rev_ind; [done|].
  rewrite foldl_app. simpl. destruct (decide (k = col)) as [->|Hne].
  - rewrite decide_True by (apply elem_of_app; right; by left).
    destruct (row !! col) as [text|] eqn:Hcol; [by rewrite lookup_insert_eq|].
    rewrite IH. by destruct (decide _).
  - assert (row !! col = None ∨ ∃ text, row !! col = Some text) as [->|[text ->]].
    { destruct (row !! col); eauto. }
    all: rewrite ?lookup_insert_ne by done; rewrite IH.
    all: destruct (decide (k ∈ columns)) as [Hin|Hin].
    all: try (rewrite decide_True; [done|apply elem_of_app; by left]).
    all: rewrite decide_False; [done|].
    all: intros [?|Hk%list_elem_of_singleton]%elem_of_app; done.
Qed.

Lemma SELECT_fmap table columns : SELECT table columns = selected columns <$> table.
Proof. unfold SELECT. by rewrite foldl_push. Qed.

Lemma SELECT_ext table columns1 columns2 :
  (∀ k, k ∈ columns1 ↔ k ∈ columns2) → SELECT table columns1 = SELECT table columns2.
Proof.
  intros Hsame. rewrite !SELECT_fmap. apply list_fmap_ext. intros _ row _.
  apply map_eq. intros k. rewrite !selected_lookup.
  destruct (decide (k ∈ columns1)) as [Hin|Hin].
  - by rewrite decide_True by by apply Hsame.
  - by rewrite decide_False by by rewrite <-Hsame.
Qed.

Lemma SELECT_SELECT table columns1 columns2 :
  SELECT (SELECT table columns1) columns2
  = SELECT table (filter (.∈ columns1) columns2).
Proof.
  rewrite !SELECT_fmap, <-list_fmap_compose. apply list_fmap_ext. intros _ row _.
  apply map_eq. intros k. unfold compose. rewrite !selected_lookup.
  destruct (decide (k ∈ columns2)) as [H2|H2].
  - destruct (decide (k ∈ columns1)) as [H1|H1].
    + rewrite decide_True; [done|]. by apply list_elem_of_filter.
    + rewrite decide_False; [done|]. by intros [??]%list_elem_of_filter.
  - rewrite decide_False; [done|]. by intros [??]%list_elem_of_filter.
Qed.

(** X1.  [SELECT] returns one row for each row of the table, in the table's
    order: the row cut down to the fields named in [columns].  A column
    that a row lacks, or that is named twice, changes nothing and is no
    error. *)
Theorem SELECT_keeps_named_fields table columns :
  length (SELECT table columns) = length table ∧
  ∀ i row, table !! i = Some row →
    ∃ out : Row, SELECT table columns !! i = Some out ∧
      ∀ k, out !! k = if decide (k ∈ columns) then row !! k else None.
Proof.
  split.
  - by rewrite SELECT_fmap, length_fmap.
  - intros i row Hi. rewrite SELECT_fmap, list_lookup_fmap, Hi. simpl.
    eexists. split; [done|]. intros k. apply selected_lookup.
Qed.

(** X2.  Selecting twice selects the columns named both times; the order
    of the column list and repetitions in it do not matter; selecting with
    the same list again changes nothing. *)
Theorem SELECT_composes table columns1 columns2 :
  SELECT (SELECT table columns1) columns2
    = SELECT table (filter (.∈ columns1) columns2) ∧
  ((∀ k, k ∈ columns1 ↔ k ∈ columns2) →
     SELECT table columns1 = SELECT table columns2) ∧
  SELECT (SELECT table columns1) columns1 = SELECT table columns1.
Proof.
  split_and!.
  - apply SELECT_SELECT.
  - apply SELECT_ext.
  - rewrite SELECT_SELECT. apply SELECT_ext. intros k.
    rewrite list_elem_of_filter. tauto.
Qed.
End select_facts.

Lemma filter_keeps_all {A} (P : A → Prop) `{!∀ x, Decision (P x)} (l : list A) :
  Forall P l → filter P l = l.
Proof.
  induction 1 as [|x l Hx _ IH]; [done|]. by rewrite filter_cons, decide_True, IH.
Qed.

Lemma filter_drops_all {A} (P : A → Prop) `{!∀ x, Decision (P x)} (l : list A) :
  Forall (λ x, ¬ P x) l → filter P l = [].
Proof.
  induction 1 as [|x l Hx _ IH]; [done|]. by rewrite filter_cons, decide_False, IH.
Qed.

Lemma foldM_app {A B} (f : B → A → outcome B) (b : B) (l1 l2 : list A) :
  foldM f b (l1 ++ l2) = foldM f b l1 ≫= λ b', foldM f b' l2.
Proof.
  revert b. induction l1 as [|x l1 IH]; intros b; simpl; [done|].
  destruct (f b x) as [b'|e]; simpl; [apply IH|done].
Qed.

Lemma filter_ext_in {A} (P Q : A → Prop) `{!∀ x, Decision (P x)}
    `{!∀ x, Decision (Q x)} (l : list A) :
  (∀ x, x ∈ l → P x ↔ Q x) → filter P l = filter Q l.
Proof.
  induction l as [|x l IH]; intros Hsame; [done|].
  rewrite !filter_cons, IH by (intros y Hy; apply Hsame; by right).
  destruct (decide (P x)) as [HP|HP].
  - rewrite decide_True; [done|]. apply Hsame; [by left|done].
  - rewrite decide_False; [done|]. intros HQ. apply HP, Hsame; [by left|done].
Qed.

Section where_facts.
Import QueryClauses.
Implicit Types (table : Table) (row : Row) (column value : string).

Lemma all_match_answers (ps : list (Row → bool)) row :
  all_match (answers <$> ps) row = Ret (forallb (λ p, p row) ps).
Proof.
  induction ps as [|p ps IH]; [done|]. simpl. unfold answers at 1. simpl.
  destruct (p row); [apply IH|done].
Qed.

Lemma any_match_answers (ps : list (Row → bool)) row :
  any_match (answers <$> ps) row = Ret (existsb (λ p, p row) ps).
Proof.
  induction ps as [|p ps IH]; [done|]. simpl. unfold answers at 1. simpl.
  destruct (p row); [done|apply IH].
Qed.

Lemma QWHERE_filter (p : Row → bool) table :
  WHERE table (answers p) = Ret (filter (λ row, p row) table).
Proof.
  unfold WHERE. rewrite (WHERE_filter_from p); [done|]. by apply Forall_forall.
Qed.

Lemma WHERE_AND_filter (ps : list (Row → bool)) table :
  WHERE_AND table (answers <$> ps)
  = Ret (filter (λ row, forallb (λ p, p row) ps) table).
Proof.
  unfold WHERE_AND.
  rewrite (WHERE_filter_from (λ row, forallb (λ p, p row) ps)); [done|].
  apply Forall_forall. intros row _. apply all_match_answers.
Qed.

Lemma WHERE_OR_filter (ps : list (Row → bool)) table :
  WHERE_OR table (answers <$> ps)
  = Ret (filter (λ row, existsb (λ p, p row) ps) table).
Proof.
  unfold WHERE_OR.
  rewrite (WHERE_filter_from (λ row, existsb (λ p, p row) ps)); [done|].
  apply Forall_forall. intros row _. apply any_match_answers.
Qed.

(** Rows the loop skips without asking [predicate]. *)
Lemma foldM_keep_guarded (g : Row → bool) (predicate : Row → outcome bool)
    (table acc : Table) :
  foldM (λ result row,
    keep ← (if g row then predicate row else Ret false);
    Ret (if keep : bool then result ++ [row] else result)) acc table
  = foldM (λ result row,
      keep ← predicate row;
      Ret (if keep : bool then result ++ [row] else result)) acc
      (filter (λ row, g row) table).
Proof.
  revert acc. induction table as [|row table IH]; intros acc; [done|].
  rewrite filter_cons. simpl. destruct (g row); simpl.
  - destruct (predicate row) as [keep|e]; simpl; [apply IH|done].
  - apply IH.
Qed.

(** X3.  With predicates that do not throw, [WHERE_AND] keeps, in order,
    the rows on which all of them hold -- all rows for an empty list -- and
    is the same as applying [WHERE] with one predicate after the other. *)
Theorem WHERE_AND_is_chained_WHERE table (ps : list (Row → bool)) :
  WHERE_AND table (answers <$> ps)
    = Ret (filter (λ row, forallb (λ p, p row) ps) table) ∧
  WHERE_AND table [] = Ret table ∧
  foldM (λ t p, WHERE t (answers p)) table ps = WHERE_AND table (answers <$> ps).
Proof.
  split_and!.
  - apply WHERE_AND_filter.
  - rewrite (WHERE_AND_filter []). simpl.
    f_equal. apply filter_keeps_all. by apply Forall_forall.
  - rewrite WHERE_AND_filter. revert table.
    induction ps as [|p ps IH]; intros table; simpl.
    + f_equal. symmetry. apply filter_keeps_all. by apply Forall_forall.
    + rewrite QWHERE_filter. simpl. rewrite IH. f_equal.
      rewrite list_filter_filter. apply list_filter_iff. intros row.
      destruct (p row), (forallb _ ps); simpl; tauto.
Qed.

(** Either the later predicates return on every row on which [g] fails, or
    there is a first such row on which they throw. *)
Lemma first_fault_behind (g : Row → bool) (predicates : list (Row → outcome bool))
    table :
  Forall (λ row, g row = false →
            any_match predicates row = Ret (any_holds predicates row)) table ∨
  ∃ before row after e,
    table = before ++ row :: after ∧
    Forall (λ row, g row = false →
              any_match predicates row = Ret (any_holds predicates row)) before ∧
    g row = false ∧ any_match predicates row = Raise e.
Proof.
  induction table as [|row table IH]; [by left|].
  destruct (g row) eqn:Hg.
  - destruct IH as [Hall|(before & bad & after & e & -> & Hbefore & Hbad & He)].
    + left. constructor; [by rewrite Hg|done].
    + right. exists (row :: before), bad, after, e.
      split_and!; [done| |done..]. constructor; [by rewrite Hg|done].
  - destruct (any_match predicates row) as [holds|e] eqn:Hrow.
    + destruct IH as [Hall|(before & bad & after & e & -> & Hbefore & Hbad & He)].
      * left. constructor; [|done]. intros _. unfold any_holds. by rewrite Hrow.
      * right. exists (row :: before), bad, after, e.
        split_and!; [done| |done..]. constructor; [|done].
        intros _. unfold any_holds. by rewrite Hrow.
    + right. by exists [], row, table, e.
Qed.

Lemma any_match_behind (g : Row → bool) (predicates : list (Row → outcome bool)) row :
  any_match (answers g :: predicates) row
  = if g row then Ret true else any_match predicates row.
Proof. done. Qed.

Lemma all_match_behind (g : Row → bool) (predicates : list (Row → outcome bool)) row :
  all_match (answers g :: predicates) row
  = if g row then all_match predicates row else Ret false.
Proof. done. Qed.

Lemma WHERE_OR_behind_returns (g : Row → bool)
    (predicates : list (Row → outcome bool)) table (acc : Table) :
  Forall (λ row, g row = false →
            any_match predicates row = Ret (any_holds predicates row)) table →
  foldM (λ result row,
    any_match ← any_match (answers g :: predicates) row;
    Ret (if any_match : bool then result ++ [row] else result)) acc table
  = Ret (acc ++ filter (λ row, g row || any_holds predicates row) table) ∧
  foldM (λ result row,
    any_match ← any_match predicates row;
    Ret (if any_match : bool then result ++ [row] else result)) acc
    (filter (λ row, ¬ g row) table)
  = Ret (acc ++ filter (λ row, any_holds predicates row)
                  (filter (λ row, ¬ g row) table)).
Proof.
  intros Hall. split.
  - apply (WHERE_filter_from (λ row, g row || any_holds predicates row)).
    eapply Forall_impl; [exact Hall|]. intros row Hrow. simpl in Hrow.
    rewrite any_match_behind. destruct (g row); [done|]. by apply Hrow.
  - apply (WHERE_filter_from (any_holds predicates)).
    apply Forall_forall. intros row [Hg Hin]%list_elem_of_filter.
    apply (proj1 (Forall_forall _ _) Hall row Hin). by destruct (g row).
Qed.

(** X4.  A predicate is not called on a row once an earlier one has
    decided: behind a predicate [g] that does not throw, the later
    predicates of [WHERE_AND] are called on a row only if [g] holds on it,
    and those of [WHERE_OR] only if [g] fails on it.  So [WHERE_AND] is
    [WHERE_AND] with the later predicates on the rows on which [g] holds;
    and [WHERE_OR] throws what [WHERE_OR] with the later predicates throws
    on the rows on which [g] fails, and otherwise keeps, in order, the rows
    on which [g] holds and the rows that one keeps -- whatever the later
    predicates would do on the other rows, throwing included. *)
Theorem WHERE_predicates_short_circuit table (g : Row → bool)
    (predicates : list (Row → outcome bool)) :
  WHERE_AND table (answers g :: predicates)
    = WHERE_AND (filter (λ row, g row) table) predicates ∧
  (Forall (λ row, g row = false) table →
     WHERE_AND table (answers g :: predicates) = Ret []) ∧
  (Forall (λ row, g row = true) table →
     WHERE_OR table (answers g :: predicates) = Ret table) ∧
  (∀ row,
     all_match (answers g :: predicates) row
       = (if g row then all_match predicates row else Ret false) ∧
     any_match (answers g :: predicates) row
       = (if g row then Ret true else any_match predicates row)) ∧
  WHERE_OR table (answers g :: predicates)
    = (kept ← WHERE_OR (filter (λ row, ¬ g row) table) predicates;
       Ret (filter (λ row, g row ∨ row ∈ kept) table)).
Proof.
  assert (WHERE_AND table (answers g :: predicates)
            = WHERE_AND (filter (λ row, g row) table) predicates) as Hguard.
  { unfold WHERE_AND. rewrite <-foldM_keep_guarded. simpl. unfold answers. simpl.
    done. }
  split_and!; [done|..].
  - intros Hnone. rewrite Hguard. clear Hguard.
    rewrite filter_drops_all; [done|].
    eapply Forall_impl; [exact Hnone|]. intros row Hrow. simpl. rewrite Hrow. by intros [].
  - intros Hall. unfold WHERE_OR.
    rewrite (WHERE_filter_from (λ _, true)).
    + f_equal. simpl. apply filter_keeps_all. by apply Forall_forall.
    + eapply Forall_impl; [exact Hall|]. intros row Hrow. simpl.
      unfold answers. simpl. by rewrite Hrow.
  - intros row. split; [apply all_match_behind|apply any_match_behind].
  - clear Hguard. unfold WHERE_OR.
    destruct (first_fault_behind g predicates table)
      as [Hall|(before & bad & after & e & -> & Hbefore & Hbad & He)].
    + destruct (WHERE_OR_behind_returns g predicates table [] Hall) as [-> ->].
      rewrite bind_Ret, !app_nil_l. f_equal.
      apply filter_ext_in. intros row Hin.
      rewrite list_elem_of_filter, list_elem_of_filter.
      destruct (g row), (any_holds predicates row); simpl; tauto.
    + rewrite filter_app, filter_cons.
      rewrite decide_True by (rewrite Hbad; by intros []).
      rewrite !foldM_app.
      destruct (WHERE_OR_behind_returns g predicates before [] Hbefore) as [-> ->].
      rewrite !bind_Ret. cbn [foldM]. rewrite any_match_behind, Hbad, He. done.
Qed.

Lemma any_match_EQUALS column (values : list string) row :
  any_match (EQUALS column <$> values) row = IN column values row.
Proof.
  induction values as [|value values IH].
  - unfold IN. simpl. by destruct (row !! column).
  - rewrite fmap_cons. cbn [any_match]. rewrite IH. unfold EQUALS, IN.
    rewrite bind_Ret. destruct (row !! column) as [text|].
    + rewrite bool_decide_eq_true_2 by done. cbn [andb].
      destruct (decide (text = value)) as [->|Hne].
      * rewrite !bool_decide_eq_true_2; [done|by left|done].
      * rewrite (bool_decide_eq_false_2 (Some text = Some value)) by congruence.
        f_equal. apply bool_decide_ext. rewrite elem_of_cons. tauto.
    + by rewrite bool_decide_eq_false_2 by by intros [??].
Qed.

Lemma foldM_ext {A B} (f g : B → A → outcome B) (l : list A) (b : B) :
  (∀ b x, f b x = g b x) → foldM f b l = foldM g b l.
Proof.
  intros Hfg. revert b. induction l as [|x l IH]; intros b; simpl; [done|].
  rewrite Hfg. destruct (g b x); simpl; [apply IH|done].
Qed.

(** X5.  With predicates that do not throw, [WHERE_OR] keeps, in order, the
    rows on which one of them holds -- none for an empty list.  A
    [WHERE_OR] over [EQUALS] tests of one column is a [WHERE] with [IN]. *)
Theorem WHERE_OR_of_EQUALS_is_IN table (ps : list (Row → bool)) column
    (values : list string) :
  WHERE_OR table (answers <$> ps)
    = Ret (filter (λ row, existsb (λ p, p row) ps) table) ∧
  WHERE_OR table [] = Ret [] ∧
  WHERE_OR table (EQUALS column <$> values) = WHERE table (IN column values).
Proof.
  split_and!.
  - apply WHERE_OR_filter.
  - rewrite (WHERE_OR_filter []). simpl.
    f_equal. apply filter_drops_all. apply Forall_forall. by intros row _ [].
  - unfold WHERE_OR, WHERE. apply foldM_ext. intros result row.
    by rewrite any_match_EQUALS.
Qed.

Lemma string_lt_asym (a b : string) : string_lt a b = true → string_lt b a = false.
Proof.
  intros Hab. destruct (string_lt b a) eqn:Hba; [|done].
  by rewrite <-(string_lt_irrefl a), (string_lt_trans a b a).
Qed.

(** X6.  None of the comparison predicates fails on a row that lacks the
    column: each answers [false], so on such a row [GREATER_EQUAL] is not
    the negation of [LESS_THAN].  On a row that has the column exactly one
    of [LESS_THAN], [EQUALS] and [GREATER_THAN] holds, [LESS_EQUAL] is
    [LESS_THAN] or [EQUALS], and [GREATER_EQUAL] is [GREATER_THAN] or
    [EQUALS].  The comparison is that of the texts, byte by byte. *)
Theorem comparison_predicates row column value :
  (row !! column = None →
     EQUALS column value row = Ret false ∧
     LESS_THAN column value row = Ret false ∧
     LESS_EQUAL column value row = Ret false ∧
     GREATER_THAN column value row = Ret false ∧
     GREATER_EQUAL column value row = Ret false ∧
     ∀ values, IN column values row = Ret false) ∧
  (∀ text, row !! column = Some text →
     ∃ less equal greater : bool,
       LESS_THAN column value row = Ret less ∧ less = String.ltb text value ∧
       EQUALS column value row = Ret equal ∧ (equal = true ↔ text = value) ∧
       GREATER_THAN column value row = Ret greater ∧ greater = String.ltb value text ∧
       LESS_EQUAL column value row = Ret (less || equal) ∧
       GREATER_EQUAL column value row = Ret (greater || equal) ∧
       (less, equal, greater) ∈ [(true, false, false); (false, true, false);
                                 (false, false, true)] ∧
       ∀ values, IN column values row = Ret (bool_decide (text ∈ values))).
Proof.
  unfold EQUALS, LESS_THAN, LESS_EQUAL, GREATER_THAN, GREATER_EQUAL, IN. split.
  - intros ->. rewrite bool_decide_eq_false_2 by by intros [??]. done.
  - intros text ->. rewrite bool_decide_eq_true_2 by done. simpl.
    exists (string_lt text value), (bool_decide (Some text = Some value)),
      (string_lt value text).
    unfold string_le, string_ge, string_gt.
    destruct (decide (text = value)) as [->|Hne].
    + rewrite bool_decide_eq_true_2 by done. fold (string_lt value value).
      rewrite string_lt_irrefl. split_and!; try done.
      right; left.
    + rewrite bool_decide_eq_false_2 by congruence.
      fold (string_lt text value) (string_lt value text).
      destruct (string_lt text value) eqn:Hlt.
      * rewrite (string_lt_asym _ _ Hlt). split_and!; try done. left.
      * destruct (string_lt value text) eqn:Hgt.
        -- split_and!; try done. do 2 right. left.
        -- by destruct Hne; apply string_lt_connex.
Qed.
End where_facts.

Section group_by_multi_facts.
Import QueryClauses.
Implicit Types (table : Table) (row : Row) (column key : string).

Lemma GROUP_BY_MULTI_lookup table (group_columns : list string) key :
  GROUP_BY_MULTI table group_columns !! key
  = nonempty (filter (λ row, composite_key group_columns row = key) table).
Proof.
  transitivity
    (nonempty (id <$> filter (λ row, Some (composite_key group_columns row) = Some key)
                        table)).
  - apply (group_fold_lookup (λ row, Some (composite_key group_columns row)) id).
  - rewrite list_fmap_id. f_equal. apply list_filter_iff. intros row.
    split; congruence.
Qed.

Lemma length_append (a b : string) :
  String.length (a +:+ b) = String.length a + String.length b.
Proof.
  induction a as [|x a IH]; [done|]. rewrite append_String. simpl. by rewrite IH.
Qed.

Lemma append_inj_r (a b c : string) : a +:+ c = b +:+ c → a = b.
Proof.
  intros Heq.
  assert (String.length a = String.length b) as Hlen.
  { apply (f_equal String.length) in Heq. rewrite !length_append in Heq. lia. }
  revert b Heq Hlen. induction a as [|x a IH]; intros [|y b]; simpl; try done.
  intros [= -> Heq] [= Hlen]. f_equal. by apply IH.
Qed.

Lemma composite_key_one column row :
  composite_key [column] row
  = match row !! column with Some text => text +:+ "|" | None => "" end.
Proof. unfold composite_key. simpl. by destruct (row !! column). Qed.

Lemma append_not_nil (a : string) (c : ascii) : a +:+ String c "" ≠ "".
Proof. by destruct a. Qed.

(** X7.  [GROUP_BY_MULTI] drops no row: the group under a key holds, in
    table order, the rows whose composite key it is, so every row of the
    table is in the group of its own key and in no other, and no group is
    empty.  A row that has none of the columns goes to the group of the
    empty key.  With a single column the groups are those of [GROUP_BY],
    under the value followed by ['|'], and one more for the rows that lack
    the column. *)
Theorem GROUP_BY_MULTI_groups_every_row table (group_columns : list string) :
  (∀ key, GROUP_BY_MULTI table group_columns !! key
          = nonempty (filter (λ row, composite_key group_columns row = key) table)) ∧
  (∀ row, row ∈ table →
     ∃ group, GROUP_BY_MULTI table group_columns
                !! composite_key group_columns row = Some group ∧ row ∈ group) ∧
  (∀ key group row, GROUP_BY_MULTI table group_columns !! key = Some group →
     group ≠ [] ∧ (row ∈ group → row ∈ table ∧ composite_key group_columns row = key)) ∧
  (∀ row, Forall (λ column, row !! column = None) group_columns →
     composite_key group_columns row = "") ∧
  (∀ column value,
     GROUP_BY_MULTI table [column] !! (value +:+ "|") = GROUP_BY table column !! value) ∧
  (∀ column,
     GROUP_BY_MULTI table [column] !! ""
     = nonempty (filter (λ row, row !! column = None) table)).
Proof.
  split_and!.
  - intros key. apply GROUP_BY_MULTI_lookup.
  - intros row Hrow. rewrite GROUP_BY_MULTI_lookup.
    assert (row ∈ filter (λ row', composite_key group_columns row'
                                  = composite_key group_columns row) table) as Hin.
    { by apply list_elem_of_filter. }
    destruct (filter _ table) as [|first rest] eqn:Hgroup.
    + by apply elem_of_nil in Hin.
    + by exists (first :: rest).
  - intros key group row. rewrite GROUP_BY_MULTI_lookup.
    intros [-> Hne]%nonempty_Some. split; [done|].
    intros [??]%list_elem_of_filter. done.
  - intros row Hnone. unfold composite_key.
    induction group_columns as [|column columns IH] using rev_ind; [done|].
    apply Forall_app in Hnone as [Hnone [Hcolumn _]%Forall_cons].
    rewrite foldl_app. simpl in *. rewrite Hcolumn. by apply IH.
  - intros column value. rewrite GROUP_BY_MULTI_lookup, GROUP_BY_lookup. f_equal.
    apply list_filter_iff. intros row. rewrite composite_key_one.
    destruct (row !! column) as [text|].
    + split; [by intros ->%append_inj_r|by intros [= ->]].
    + split; [|done]. intros Heq. symmetry in Heq. by apply append_not_nil in Heq.
  - intros column. rewrite GROUP_BY_MULTI_lookup. f_equal.
    apply list_filter_iff. intros row. rewrite composite_key_one.
    destruct (row !! column) as [text|]; [|done].
    split; [|done]. intros Heq. by apply append_not_nil in Heq.
Qed.
End group_by_multi_facts.

Section keep_first_facts.
Context (key : Row → string).
Implicit Types (table : Table) (row : Row).

Lemma keep_first_state table :
  foldl (λ '(result, seen) row,
     if decide (key row ∈ seen)
     then (result, seen)
     else (result ++ [row], {[key row]} ∪ seen))
     ([], (∅ : gset string)) table
  = (keep_first key table, list_to_set (key <$> table)).
Proof.
  unfold keep_first. induction table as [|row table IH] using rev_ind; [done|].
  rewrite foldl_app, IH, fmap_app, list_to_set_app_L. simpl.
  rewrite (right_id_L ∅ (∪)).
  destruct (decide _) as [Hin|Hin]; simpl; f_equal.
  - symmetry. rewrite (comm_L (∪)).
    by apply subseteq_union_1_L, singleton_subseteq_l.
  - apply (comm_L (∪)).
Qed.

Lemma keep_first_snoc table row :
  keep_first key (table ++ [row])
  = keep_first key table ++ if decide (key row ∈ key <$> table) then [] else [row].
Proof.
  unfold keep_first at 1. rewrite foldl_app, keep_first_state. simpl.
  destruct (decide (key row ∈ list_to_set (C := gset string) (key <$> table)))
    as [Hin|Hin]; rewrite elem_of_list_to_set in Hin.
  - rewrite decide_True by done. by rewrite app_nil_r.
  - by rewrite decide_False by done.
Qed.

Lemma keep_first_sublist table : sublist (keep_first key table) table.
Proof.
  induction table as [|row table IH] using rev_ind; [done|].
  rewrite keep_first_snoc. apply sublist_app; [done|].
  destruct (decide _); [apply sublist_nil_l|done].
Qed.

Lemma keep_first_keys table (k : string) :
  k ∈ key <$> keep_first key table ↔ k ∈ key <$> table.
Proof.
  induction table as [|row table IH] using rev_ind; [done|].
  rewrite keep_first_snoc, !fmap_app, !elem_of_app, IH.
  destruct (decide _) as [Hin|Hin]; simpl.
  - rewrite list_elem_of_singleton. split; [|intros [?| ->]; by left].
    intros [?|Hnil]; [by left|]. by apply elem_of_nil in Hnil.
  - done.
Qed.

Lemma keep_first_NoDup table : NoDup (key <$> keep_first key table).
Proof.
  induction table as [|row table IH] using rev_ind; [constructor|].
  rewrite keep_first_snoc, fmap_app. destruct (decide _) as [Hin|Hin]; simpl.
  - by rewrite app_nil_r.
  - apply NoDup_app. split_and!; [done| |apply NoDup_singleton].
    intros k Hk ->%list_elem_of_singleton. by apply Hin, keep_first_keys.
Qed.

Lemma keep_first_app table1 table2 :
  keep_first key (table1 ++ table2)
  = keep_first key table1
    ++ filter (λ row, key row ∉ key <$> table1) (keep_first key table2).
Proof.
  induction table2 as [|row table2 IH] using rev_ind.
  - by rewrite !app_nil_r.
  - rewrite (assoc_L (++)), !keep_first_snoc, IH, filter_app, <-(assoc_L (++)).
    f_equal. f_equal. rewrite fmap_app.
    destruct (decide (key row ∈ key <$> table2)) as [H2|H2].
    + rewrite decide_True; [done|]. apply elem_of_app. by right.
    + rewrite filter_cons, filter_nil.
      destruct (decide (key row ∈ key <$> table1)) as [H1|H1].
      * rewrite decide_True by (apply elem_of_app; by left).
        by rewrite decide_False by (intros Hn; by apply Hn).
      * rewrite decide_False by (rewrite elem_of_app; tauto).
        by rewrite decide_True.
Qed.

Lemma keep_first_idem table : keep_first key (keep_first key table) = keep_first key table.
Proof.
  induction table as [|row table IH] using rev_ind; [done|].
  rewrite keep_first_snoc. destruct (decide _) as [Hin|Hin].
  - by rewrite app_nil_r.
  - rewrite keep_first_snoc, IH. rewrite decide_False; [done|].
    by rewrite keep_first_keys.
Qed.

(** A kept row is the first row of the table with its key. *)
Lemma keep_first_head table row :
  row ∈ keep_first key table
  ↔ head (filter (λ row', key row' = key row) table) = Some row.
Proof.
  induction table as [|row' table IH] using rev_ind.
  - simpl. split; [by intros ?%elem_of_nil|done].
  - rewrite keep_first_snoc, elem_of_app, IH, filter_app.
    destruct (filter (λ r, key r = key row) table) as [|first rest] eqn:Hfilter.
    + rewrite app_nil_l, filter_cons, filter_nil.
      assert (key row ∉ key <$> table) as Hnot.
      { intros (r & Hkey & Hr)%list_elem_of_fmap.
        assert (r ∈ filter (λ r, key r = key row) table) as Hin
          by by apply list_elem_of_filter.
        rewrite Hfilter in Hin. by apply elem_of_nil in Hin. }
      destruct (decide (key row' = key row)) as [Heq|Hne]; simpl.
      * rewrite Heq. rewrite decide_False by done.
        rewrite list_elem_of_singleton. split.
        -- intros [?| ->]; done.
        -- intros [= ->]. by right.
      * split; [|done]. intros [?|Hin]; [done|].
        destruct (decide _); [by apply elem_of_nil in Hin|].
        apply list_elem_of_singleton in Hin as ->. done.
    + simpl. split; [|by left]. intros [?|Hin]; [done|].
      destruct (decide (key row' ∈ key <$> table)) as [?|Hnot];
        [by apply elem_of_nil in Hin|].
      apply list_elem_of_singleton in Hin as ->. destruct Hnot.
      assert (first ∈ filter (λ r, key r = key row') table) as [Hkey Hin]%list_elem_of_filter.
      { rewrite Hfilter. left. }
      apply list_elem_of_fmap. by exists first.
Qed.

Lemma keep_first_length table :
  length (keep_first key table) = size (list_to_set (C := gset string) (key <$> table)).
Proof.
  rewrite <-(length_fmap key), <-(size_list_to_set (C := gset string))
    by apply keep_first_NoDup.
  f_equal. apply set_eq. intros k. rewrite !elem_of_list_to_set.
  apply keep_first_keys.
Qed.
Lemma keep_first_app_l table1 table2 :
  keep_first key (keep_first key table1 ++ table2) = keep_first key (table1 ++ table2).
Proof.
  rewrite !keep_first_app, keep_first_idem. f_equal.
  apply list_filter_iff. intros row. by rewrite keep_first_keys.
Qed.

Lemma keep_first_app_r table1 table2 :
  keep_first key (table1 ++ keep_first key table2) = keep_first key (table1 ++ table2).
Proof. by rewrite !keep_first_app, keep_first_idem. Qed.
End keep_first_facts.

Section union_facts.
Import QueryClauses.
Implicit Types (table : Table) (row : Row).

(** X8.  [DISTINCT] twice is [DISTINCT] once.  [UNION] is [DISTINCT] of the
    first table followed by the rows [DISTINCT] keeps of the second whose
    serialisation no row of the first has; so a union with the empty table
    or with the table itself is the table's [DISTINCT], [UNION] is
    associative, its rows are rows of [UNION_ALL] in the same order, and
    no two of them serialise alike. *)
Theorem UNION_laws table1 table2 table3 :
  DISTINCT (DISTINCT table1) = DISTINCT table1 ∧
  UNION table1 table2
    = DISTINCT table1
      ++ filter (λ row, row_str row ∉ row_str <$> table1) (DISTINCT table2) ∧
  UNION table1 [] = DISTINCT table1 ∧
  UNION table1 table1 = DISTINCT table1 ∧
  UNION (UNION table1 table2) table3 = UNION table1 (UNION table2 table3) ∧
  sublist (UNION table1 table2) (UNION_ALL table1 table2) ∧
  NoDup (row_str <$> UNION table1 table2).
Proof.
  change DISTINCT with (keep_first row_str). unfold UNION, UNION_ALL.
  change DISTINCT with (keep_first row_str).
  split_and!.
  - apply keep_first_idem.
  - apply keep_first_app.
  - by rewrite app_nil_r.
  - rewrite keep_first_app, filter_drops_all; [by rewrite app_nil_r|].
    apply Forall_forall. intros row Hrow Hnot. apply Hnot.
    apply (keep_first_keys row_str). apply list_elem_of_fmap. by exists row.
  - by rewrite keep_first_app_l, keep_first_app_r, (assoc_L (++)).
  - apply keep_first_sublist.
  - apply keep_first_NoDup.
Qed.
End union_facts.

Section distinct_columns_facts.
Import QueryClauses.
Implicit Types (table : Table) (row : Row) (columns : list string).

Lemma GROUP_BY_MULTI_dom table columns :
  dom (GROUP_BY_MULTI table columns)
  = list_to_set (C := gset string) (composite_key columns <$> table).
Proof.
  apply set_eq. intros key.
  rewrite elem_of_dom, GROUP_BY_MULTI_lookup, elem_of_list_to_set, list_elem_of_fmap.
  split.
  - intros [group [-> Hne]%nonempty_Some].
    destruct (filter _ table) as [|row rest] eqn:Hfilter; [done|].
    assert (row ∈ filter (λ row, composite_key columns row = key) table)
      as [Hkey Hrow]%list_elem_of_filter by (rewrite Hfilter; left).
    by exists row.
  - intros (row & -> & Hrow).
    assert (row ∈ filter (λ row', composite_key columns row'
                                  = composite_key columns row) table) as Hin
      by by apply list_elem_of_filter.
    destruct (filter _ table); [by apply elem_of_nil in Hin|]. by eexists.
Qed.

(** X9.  [DISTINCT_COLUMNS] keeps exactly one row for each group of
    [GROUP_BY_MULTI] over the same columns, the first of the group, in
    table order; rows that differ only in other columns are dropped, and
    with no column named only the first row of the table is left. *)
Theorem DISTINCT_COLUMNS_keeps_group_heads table columns :
  sublist (DISTINCT_COLUMNS table columns) table ∧
  (∀ row, row ∈ DISTINCT_COLUMNS table columns
     ↔ ∃ key group, GROUP_BY_MULTI table columns !! key = Some group
                    ∧ head group = Some row) ∧
  length (DISTINCT_COLUMNS table columns) = size (GROUP_BY_MULTI table columns) ∧
  NoDup (composite_key columns <$> DISTINCT_COLUMNS table columns) ∧
  DISTINCT_COLUMNS table [] = take 1 table.
Proof.
  change (DISTINCT_COLUMNS table) with (λ columns, keep_first (composite_key columns) table).
  cbv beta. split_and!.
  - apply keep_first_sublist.
  - intros row. rewrite keep_first_head. split.
    + intros Hhead. exists (composite_key columns row).
      rewrite GROUP_BY_MULTI_lookup.
      destruct (filter _ table) as [|first rest]; [done|]. by eexists.
    + intros (key & group & Hgroup & Hhead).
      rewrite GROUP_BY_MULTI_lookup in Hgroup.
      apply nonempty_Some in Hgroup as [-> _].
      destruct (filter (λ row, composite_key columns row = key) table)
        as [|first rest] eqn:Hfilter; [done|].
      injection Hhead as ->.
      assert (row ∈ filter (λ row, composite_key columns row = key) table)
        as [<- _]%list_elem_of_filter by (rewrite Hfilter; left).
      by rewrite Hfilter.
  - by rewrite keep_first_length, <-GROUP_BY_MULTI_dom, size_dom.
  - apply keep_first_NoDup.
  - destruct table as [|row table]; [done|].
    change (row :: table) with ([row] ++ table) at 1.
    rewrite keep_first_app. change (take 1 (row :: table)) with [row].
    rewrite filter_drops_all; [done|].
    apply Forall_forall. intros row' _ Hnot. apply Hnot. left.
Qed.
End distinct_columns_facts.

Section count_facts.
Import QueryClauses.
Implicit Types (group : Table) (row : Row) (column : string).

#[local] Instance filled_dec column row : Decision (filled column row).
Proof.
  unfold filled. destruct (row !! column) as [text|].
  - destruct (decide (text = "")) as [->|Hne].
    + right. by intros (? & [= <-] & ?).
    + left. by exists text.
  - right. by intros (? & ? & ?).
Defined.

Lemma COUNT_COLUMN_from group column (count : N) :
  foldl (λ count row,
    match row !! column with
    | Some text => if decide (text = "") then count else (count + 1)%N
    | None => count
    end) count group
  = (count + N.of_nat (length (filter (filled column) group)))%N.
Proof.
  revert count. induction group as [|row group IH]; intros count; simpl.
  - lia.
  - rewrite IH, filter_cons. destruct (decide (filled column row)) as [Hrow|Hrow].
    + destruct Hrow as (text & -> & Hne). rewrite decide_False by done. simpl. lia.
    + destruct (row !! column) as [text|] eqn:Hcol; [|done].
      destruct (decide (text = "")) as [->|Hne]; [done|].
      destruct Hrow. by exists text.
Qed.

(** X10.  [COUNT_COLUMN] counts the rows that have the column with a text
    that is not empty: an empty text counts like a missing field.  The
    count never exceeds [COUNT], equals it exactly when every row has such
    a text, and the count of two tables put together is the sum of their
    counts. *)
Theorem COUNT_COLUMN_counts_filled_rows group group' column :
  COUNT_COLUMN group column = N.of_nat (length (filter (filled column) group)) ∧
  (COUNT_COLUMN group column ≤ COUNT group)%N ∧
  (COUNT_COLUMN group column = COUNT group ↔ Forall (filled column) group) ∧
  COUNT_COLUMN (group ++ group') column
    = (COUNT_COLUMN group column + COUNT_COLUMN group' column)%N.
Proof.
  unfold COUNT_COLUMN, COUNT. rewrite !COUNT_COLUMN_from, !N.add_0_l.
  pose proof (length_filter (filled column) group) as Hle.
  split_and!.
  - done.
  - lia.
  - split.
    + intros Heq%Nat2N.inj. clear Hle.
      induction group as [|row group IH]; [done|].
      rewrite filter_cons in Heq.
      pose proof (length_filter (filled column) group) as Hle.
      destruct (decide (filled column row)); simpl in Heq; [|lia].
      constructor; [done|]. apply IH. lia.
    + intros Hall. by rewrite filter_keeps_all.
  - rewrite filter_app, length_app. lia.
Qed.
End count_facts.

Section avg_facts.
Import QueryClauses.
Context `{DoubleDiv}.
Implicit Types (group : Table) (row : Row) (column : string).

Lemma SUM_snoc_absent group row column :
  row !! column = None → SUM (group ++ [row]) column = SUM group column.
Proof.
  intros Hrow. rewrite !SUM_texts. unfold present.
  rewrite omap_app. simpl. by rewrite Hrow, app_nil_r.
Qed.

(** X11.  [AVG] of the empty group is 0.0.  Otherwise it is [SUM] divided
    by the number of all the rows of the group, and fails exactly when
    [SUM] fails: a row that lacks the column adds nothing to the sum and
    one to the divisor. *)
Theorem AVG_divides_by_all_rows group column :
  AVG [] column = Ret d0 ∧
  (group ≠ [] →
     (∀ sum, SUM group column = Ret sum →
        AVG group column = Ret (ddiv sum (of_size_t (COUNT group)))) ∧
     (∀ e, AVG group column = Raise e ↔ SUM group column = Raise e)) ∧
  (∀ row sum, row !! column = None → SUM group column = Ret sum →
     AVG (group ++ [row]) column = Ret (ddiv sum (of_size_t (COUNT group + 1)))).
Proof.
  split_and!.
  - done.
  - intros Hne. destruct group as [|row group]; [done|]. unfold AVG. split.
    + by intros sum ->.
    + intros e. by destruct (SUM (row :: group) column).
  - intros row sum Hrow Hsum. unfold AVG, COUNT.
    rewrite SUM_snoc_absent, Hsum by done.
    destruct (group ++ [row]) as [|row' group'] eqn:Happ.
    { by destruct group. }
    rewrite <-Happ, length_app. simpl. do 3 f_equal. lia.
Qed.
End avg_facts.

Section aggregate_facts.
Import QueryClauses.
Context `{Double}.
Implicit Types (groups : gmap string Table) (group : Table) (name : string).

(** A loop whose passes compute a value that can throw and store it. *)
Lemma foldM_store_throws {A B C} (f : A → outcome C) (g : B → A → C → B)
    (l : list A) (b : B) :
  throws (foldM (λ b x, y ← f x; Ret (g b x y)) b l) ↔ Exists (λ x, throws (f x)) l.
Proof.
  revert b. induction l as [|x l IH]; intros b; simpl.
  - split; [by intros [e ?]|by intros ?%Exists_nil].
  - rewrite Exists_cons. destruct (f x) as [y|e] eqn:Hx; simpl.
    + rewrite IH. split; [by right|]. by intros [[e ?]|?].
    + split; [left; by exists e|intros _; by exists e].
Qed.

Lemma foldM_store_returns {A B C} (f : A → outcome C) (g : B → A → C → B)
    (h : A → C) (l : list A) (b : B) :
  Forall (λ x, f x = Ret (h x)) l →
  foldM (λ b x, y ← f x; Ret (g b x y)) b l = Ret (foldl (λ b x, g b x (h x)) b l).
Proof.
  intros Hall. revert b. induction Hall as [|x l Hx _ IH]; intros b; simpl; [done|].
  rewrite Hx. simpl. apply IH.
Qed.

(** The row [AGGREGATE] builds for a group when no aggregate throws. *)
Lemma aggregated_row (aggs : gmap string (Table → double)) name (key : string) group :
  foldM (λ (result_row : Row) (agg : string * (Table → outcome double)),
      x ← agg.2 group; Ret (<[agg.1 := to_string x]> result_row))
    (<[name := key]> ∅) (items ((λ f group, Ret (f group)) <$> aggs))
  = Ret (((λ f, to_string (f group)) <$> aggs) ∪ {[name := key]}).
Proof.
  set (aggs' := (λ (f : Table → double) group, Ret (f group)) <$> aggs).
  set (h := λ agg : string * (Table → outcome double),
         match aggs !! agg.1 with Some f => f group | None => d0 end).
  rewrite (foldM_store_returns _ (λ row agg x, <[agg.1 := to_string x]> row) h).
  - f_equal.
    transitivity (foldl (λ (acc : Row) (kv : string * string), <[kv.1 := kv.2]> acc)
                    (<[name := key]> ∅)
                    ((λ agg, (agg.1, to_string (h agg))) <$> items aggs')).
    { generalize (<[name := key]> (∅ : Row)). generalize (items aggs').
      intros l. induction l as [|agg l IH]; intros acc; simpl; [done|]. apply IH. }
    rewrite foldl_assign.
    + rewrite insert_empty. f_equal. apply map_eq. intros k.
      rewrite lookup_fmap.
      destruct (aggs !! k) as [f|] eqn:Hk; simpl.
      * apply elem_of_list_to_map_1.
        { rewrite <-list_fmap_compose.
          rewrite (list_fmap_ext _ fst (items aggs')) by done.
          apply items_NoDup_keys. }
        apply list_elem_of_fmap. exists (k, λ group, Ret (f group)). split.
        -- unfold h. simpl. by rewrite Hk.
        -- apply elem_of_items. unfold aggs'. by rewrite lookup_fmap, Hk.
      * apply not_elem_of_list_to_map_1. rewrite <-list_fmap_compose.
        intros ([k' F] & Hk' & Hin%elem_of_items)%list_elem_of_fmap.
        simpl in Hk'. subst k'. unfold aggs' in Hin.
        by rewrite lookup_fmap, Hk in Hin.
    + rewrite <-list_fmap_compose.
      rewrite (list_fmap_ext _ fst (items aggs')) by done.
      apply items_NoDup_keys.
  - apply Forall_forall. intros [k F] Hin%elem_of_items. unfold aggs' in Hin.
    rewrite lookup_fmap in Hin. unfold h. simpl.
    destruct (aggs !! k) as [f|]; [|done]. by injection Hin as <-.
Qed.

(** X12.  [AGGREGATE] returns one row for each group, in ascending order of
    the group keys.  The row holds the key under the group column's name
    and, under each aggregate's name, the printed value of the aggregate
    on the group's rows; an aggregate named like the group column takes
    the key's place.  The call fails exactly when some aggregate throws on
    some group; without groups it returns the empty table. *)
Theorem AGGREGATE_one_row_per_group groups name
    (aggs : gmap string (Table → double))
    (agg_functions : gmap string (Table → outcome double)) :
  AGGREGATE groups name ((λ f group, Ret (f group)) <$> aggs)
    = Ret ((λ entry : string * Table,
              ((λ f, to_string (f entry.2)) <$> aggs) ∪ {[name := entry.1]})
             <$> items groups) ∧
  Sorted (λ a b, String.leb a.1 b.1) (items groups) ∧
  (∀ key group, (key, group) ∈ items groups ↔ groups !! key = Some group) ∧
  (throws (AGGREGATE groups name agg_functions)
     ↔ ∃ key group agg_name agg_func,
         groups !! key = Some group ∧ agg_functions !! agg_name = Some agg_func ∧
         throws (agg_func group)) ∧
  AGGREGATE ∅ name agg_functions = Ret [].
Proof.
  split_and!.
  - unfold AGGREGATE.
    rewrite <-(app_nil_l (_ <$> items groups)).
    apply foldM_push. apply Forall2_fmap_r, Forall_Forall2_diag, Forall_forall.
    intros [key group] _. apply aggregated_row.
  - apply items_sorted.
  - intros key group. apply elem_of_items.
  - unfold AGGREGATE.
    rewrite (foldM_store_throws _ (λ result _ result_row, result ++ [result_row])).
    rewrite Exists_exists. split.
    + intros ([key group] & Hgroup%elem_of_items & Hthrows).
      apply (foldM_store_throws (λ agg : string * (Table → outcome double), agg.2 group)
               (λ (row : Row) agg x, <[agg.1 := to_string x]> row)) in Hthrows.
      apply Exists_exists in Hthrows as ([agg_name agg_func] & Hagg%elem_of_items & ?).
      by exists key, group, agg_name, agg_func.
    + intros (key & group & agg_name & agg_func & Hgroup & Hagg & Hthrows).
      exists (key, group). split; [by apply elem_of_items|].
      apply (foldM_store_throws (λ agg : string * (Table → outcome double), agg.2 group)
               (λ (row : Row) agg x, <[agg.1 := to_string x]> row)).
      apply Exists_exists. exists (agg_name, agg_func).
      split; [by apply elem_of_items|done].
  - unfold AGGREGATE. by rewrite items_empty.
Qed.

Lemma items_singleton {V} (k : string) (v : V) : items ({[k := v]} : gmap string V) = [(k, v)].
Proof. unfold items. by rewrite map_to_list_singleton. Qed.
End aggregate_facts.

(** X13.  The aggregation loop of [executeQuery5] is [AGGREGATE] with the
    one aggregate [REVENUE], the [SUM] of the column [REVENUE], the failures
    of [SUM] included. *)
Theorem executeQuery5_aggregates_with_AGGREGATE `{Double} (grouped : gmap string Table) :
  foldM (λ aggregated group,
    result_row ← Query5.sum_row group; Ret (aggregated ++ [result_row])) []
    (items grouped)
  = QueryClauses.AGGREGATE grouped "N_NAME"
      {["REVENUE" := λ group, SqlHelper.SUM group "REVENUE"]}.
Proof.
  unfold QueryClauses.AGGREGATE. apply foldM_ext. intros aggregated [key group].
  rewrite items_singleton. unfold Query5.sum_row. simpl.
  by destruct (SqlHelper.SUM group "REVENUE").
Qed.

Section order_by_numeric_facts.
Import QueryClauses.
Context `{Double} `{StdSort}.
Implicit Types (table : Table) (row : Row) (column : string).

#[local] Instance readable_dec column row : Decision (readable column row).
Proof.
  unfold readable. destruct (row !! column) as [text|].
  - destruct (stod text) as [x|] eqn:Hx.
    + left. exists text. by rewrite Hx.
    + right. intros (? & [= <-] & [??]). congruence.
  - right. by intros (? & ? & ?).
Defined.

(** The calls the comparator makes on a row. *)
Lemma reads_row column row :
  (readable column row → (text ← at_ row column; _ ← stod_ text; Ret ()) = Ret ()) ∧
  (¬ readable column row → throws (text ← at_ row column; _ ← stod_ text; Ret ())).
Proof.
  unfold readable, at_, stod_. destruct (row !! column) as [text|]; simpl.
  - destruct (stod text) as [x|] eqn:Hx; simpl.
    + split; [done|]. intros []. exists text. by rewrite Hx.
    + split; [|by exists BadNumber]. intros (? & [= <-] & [??]). congruence.
  - split; [by intros (? & ? & ?)|]. by exists OutOfRange.
Qed.

Lemma reads_rows column table :
  (Forall (readable column) table →
     foldM (λ _ row, text ← at_ row column; _ ← stod_ text; Ret ()) () table = Ret ()) ∧
  (¬ Forall (readable column) table →
     throws (foldM (λ _ row, text ← at_ row column; _ ← stod_ text; Ret ()) () table)).
Proof.
  induction table as [|row table [IHr IHt]]; simpl.
  - split; [done|]. by intros [].
  - destruct (decide (readable column row)) as [Hrow|Hrow].
    + rewrite (proj1 (reads_row column row) Hrow). simpl. split.
      * intros [_ Htable]%Forall_cons. by apply IHr.
      * intros Hnot. apply IHt. intros Htable. apply Hnot. by constructor.
    + destruct (proj2 (reads_row column row) Hrow) as [e He]. rewrite He. simpl.
      split; [by intros [? _]%Forall_cons|]. intros _. by exists e.
Qed.

Lemma sorts_numbers (less : double → double → bool) column table :
  let sort :=
    if decide (2 ≤ length table)
    then
      _ ← foldM (λ _ row, text ← at_ row column; _ ← stod_ text; Ret ()) () table;
      Ret (std_sort (λ a b, less (number_at column a) (number_at column b)) table)
    else Ret table in
  (length table < 2 → sort = Ret table) ∧
  (2 ≤ length table → (throws sort ↔ ¬ Forall (readable column) table)) ∧
  (∀ out, sort = Ret out → out ≡ₚ table) ∧
  (strict_weak less → ∀ out, sort = Ret out →
     StronglySorted
       (λ a b, less (number_at column b) (number_at column a) = false) out).
Proof.
  intros sort. unfold sort. clear sort.
  destruct (reads_rows column table) as [Hreturns Hthrows].
  destruct (decide (2 ≤ length table)) as [Hlen|Hlen].
  - split_and!.
    + lia.
    + intros _. destruct (decide (Forall (readable column) table)) as [Hall|Hnot].
      * rewrite (Hreturns Hall). simpl. split; [by intros [e ?]|done].
      * destruct (Hthrows Hnot) as [e ->]. simpl. split; [done|]. by exists e.
    + intros out. destruct (foldM _ () table); simpl; [|done].
      intros [= <-]. apply std_sort_perm.
    + intros Hless out. destruct (foldM _ () table); simpl; [|done].
      intros [= <-].
      apply (std_sort_sorted _ (λ a b, less (number_at column a) (number_at column b))).
      destruct Hless as [Hirr Htrans Hinc].
      split; [intros x; apply Hirr|intros x y z; apply Htrans|intros x y z; apply Hinc].
  - split_and!.
    + done.
    + lia.
    + by intros out [= <-].
    + intros _ out [= <-]. destruct table as [|row [|row' table]].
      * constructor.
      * repeat constructor.
      * simpl in Hlen. lia.
Qed.

(** X14.  The numeric orderings leave a table of fewer than two rows as it
    is, whatever its rows hold.  On two rows or more they fail exactly
    when some row lacks the column or holds text in it that [std::stod]
    rejects.  What they return is a rearrangement of the table, ascending
    or descending by the parsed numbers when the comparison of [double]s
    is a strict weak ordering.  [ORDER_BY_DESC] of [sqlhelper.hpp] is
    [ORDER_BY_NUMERIC_DESC]. *)
Theorem ORDER_BY_NUMERIC_sorts_or_fails table column :
  SqlHelper.ORDER_BY_DESC table column = ORDER_BY_NUMERIC_DESC table column ∧
  (length table < 2 →
     ORDER_BY_NUMERIC_ASC table column = Ret table ∧
     ORDER_BY_NUMERIC_DESC table column = Ret table) ∧
  (2 ≤ length table →
     (throws (ORDER_BY_NUMERIC_ASC table column) ↔ ¬ Forall (readable column) table) ∧
     (throws (ORDER_BY_NUMERIC_DESC table column) ↔ ¬ Forall (readable column) table)) ∧
  (∀ out, ORDER_BY_NUMERIC_ASC table column = Ret out → out ≡ₚ table) ∧
  (∀ out, ORDER_BY_NUMERIC_DESC table column = Ret out → out ≡ₚ table) ∧
  (strict_weak dlt → ∀ out, ORDER_BY_NUMERIC_ASC table column = Ret out →
     StronglySorted (λ a b, dlt (number_at column b) (number_at column a) = false) out) ∧
  (strict_weak dgt → ∀ out, ORDER_BY_NUMERIC_DESC table column = Ret out →
     StronglySorted (λ a b, dgt (number_at column b) (number_at column a) = false) out).
Proof.
  destruct (sorts_numbers dlt column table) as (Ha1 & Ha2 & Ha3 & Ha4).
  destruct (sorts_numbers dgt column table) as (Hd1 & Hd2 & Hd3 & Hd4).
  split_and!; try done.
  - intros Hlen. split; [by apply Ha1|by apply Hd1].
  - intros Hlen. split; [by apply Ha2|by apply Hd2].
Qed.
End order_by_numeric_facts.

Section limit_facts.
Import QueryClauses.
Implicit Types (table : Table) (n m limit offset : N).

Lemma LIMIT_take table n : LIMIT table n = take (N.to_nat n) table.
Proof.
  unfold LIMIT. destruct (N.leb_spec (N.of_nat (length table)) n); [|done].
  rewrite take_ge; [done|lia].
Qed.

Lemma OFFSET_drop table n : OFFSET table n = drop (N.to_nat n) table.
Proof.
  unfold OFFSET. destruct (N.leb_spec (N.of_nat (length table)) n); [|done].
  rewrite drop_ge; [done|lia].
Qed.

(** X15.  [LIMIT] returns the first [n] rows and [OFFSET] the rows after
    them, all rows and none when the table has no more than [n]; together
    they give back the table.  Limiting twice limits to the smaller bound,
    and a limit of zero returns the empty table. *)
Theorem LIMIT_and_OFFSET_split_the_table table n m :
  LIMIT table n ++ OFFSET table n = table ∧
  length (LIMIT table n) = length table `min` N.to_nat n ∧
  length (OFFSET table n) = length table - N.to_nat n ∧
  (∀ i, (i < N.to_nat n)%nat → LIMIT table n !! i = table !! i) ∧
  (∀ i, OFFSET table n !! i = table !! (N.to_nat n + i)%nat) ∧
  LIMIT (LIMIT table n) m = LIMIT table (N.min n m) ∧
  LIMIT table 0 = [].
Proof.
  rewrite !LIMIT_take, !OFFSET_drop. split_and!.
  - apply take_drop.
  - rewrite length_take. lia.
  - apply length_drop.
  - intros i Hi. by apply lookup_take_lt.
  - intros i. apply lookup_drop.
  - rewrite take_take. f_equal. lia.
  - done.
Qed.

(** X16.  As long as [offset + limit] is a [size_t], [LIMIT_OFFSET] is
    [OFFSET] followed by [LIMIT]. *)
Theorem LIMIT_OFFSET_is_OFFSET_then_LIMIT table limit offset :
  (offset + limit < 2 ^ 64)%N →
  LIMIT_OFFSET table limit offset = Ret (LIMIT (OFFSET table offset) limit).
Proof.
  intros Hsum. rewrite LIMIT_take, OFFSET_drop. unfold LIMIT_OFFSET, size_t.
  rewrite N.mod_small by done.
  destruct (N.leb_spec (N.of_nat (length table)) offset) as [Hle|Hlt].
  - rewrite drop_ge by lia. by rewrite take_nil.
  - destruct (N.ltb_spec (N.min (offset + limit) (N.of_nat (length table))) offset);
      [lia|].
    f_equal. destruct (N.le_ge_cases (offset + limit) (N.of_nat (length table))).
    + rewrite N.min_l by done. f_equal. lia.
    + rewrite N.min_r by done. rewrite !take_ge; [done|rewrite length_drop; lia..].
Qed.

(** X17.  When [offset + limit] does not fit a [size_t] -- a limit of
    [SIZE_MAX] with an offset of one, say -- the sum wraps below [offset],
    and [LIMIT_OFFSET] with an offset inside the table builds its result
    from an inverted iterator range: the call is undefined. *)
Theorem LIMIT_OFFSET_undefined_on_wrap table limit offset :
  (limit < 2 ^ 64)%N → (offset < 2 ^ 64)%N →
  (offset < N.of_nat (length table))%N → (2 ^ 64 ≤ offset + limit)%N →
  LIMIT_OFFSET table limit offset = Raise Undefined.
Proof.
  intros Hlimit Hsize Hoffset Hwrap. unfold LIMIT_OFFSET, size_t.
  destruct (N.leb_spec (N.of_nat (length table)) offset) as [Hle|_]; [lia|].
  assert ((offset + limit) mod 2 ^ 64 = offset + limit - 2 ^ 64)%N as ->.
  { symmetry. apply (N.mod_unique _ _ 1); lia. }
  destruct (N.ltb_spec (N.min (offset + limit - 2 ^ 64) (N.of_nat (length table))) offset);
    [done|lia].
Qed.
End limit_facts.

Lemma LIMIT_OFFSET_is_OFFSET_then_LIMIT_witness :
  (1 + 2 < 2 ^ 64)%N ∧
  QueryClauses.LIMIT_OFFSET Samples.left5 2 1
  = Ret (QueryClauses.LIMIT (QueryClauses.OFFSET Samples.left5 1) 2).
Proof.
  assert (1 + 2 < 2 ^ 64)%N as Hsum by reflexivity.
  split; [exact Hsum|].
  apply (LIMIT_OFFSET_is_OFFSET_then_LIMIT Samples.left5 2 1 Hsum).
Defined.

Lemma LIMIT_OFFSET_undefined_on_wrap_witness :
  ((2 ^ 64 - 1 < 2 ^ 64)%N ∧ (1 < 2 ^ 64)%N ∧
   (1 < N.of_nat (length Samples.left5))%N ∧ (2 ^ 64 ≤ 1 + (2 ^ 64 - 1))%N) ∧
  QueryClauses.LIMIT_OFFSET Samples.left5 (2 ^ 64 - 1) 1 = Raise Undefined.
Proof.
  assert (2 ^ 64 - 1 < 2 ^ 64)%N as Hlimit by reflexivity.
  assert (1 < 2 ^ 64)%N as Hsize by reflexivity.
  assert (1 < N.of_nat (length Samples.left5))%N as Hoffset by reflexivity.
  assert (2 ^ 64 ≤ 1 + (2 ^ 64 - 1))%N as Hwrap by (vm_compute; discriminate).
  split; [done|].
  apply (LIMIT_OFFSET_undefined_on_wrap Samples.left5 (2 ^ 64 - 1) 1
           Hlimit Hsize Hoffset Hwrap).
Defined.

Section order_by_multi_facts.
Import QueryClauses.
Context `{StdSort}.
Implicit Types (table : Table) (a b c : Row) (order_specs : list (string * bool)).

(** The comparison of two texts in one direction. *)
Lemma in_order_facts (is_asc : bool) :
  let before x y := if is_asc then string_lt x y else string_gt x y in
  (∀ x, before x x = false) ∧
  (∀ x y z, before x y = true → before y z = true → before x z = true) ∧
  (∀ x y, before x y = false → before y x = false → x = y).
Proof.
  destruct is_asc; simpl; unfold string_gt; split_and!.
  - apply string_lt_irrefl.
  - apply string_lt_trans.
  - apply string_lt_connex.
  - intros x. apply string_lt_irrefl.
  - intros x y z ??. by apply (string_lt_trans z y x).
  - intros x y ??. by apply string_lt_connex.
Qed.

Lemma order_specs_before_strict_weak order_specs :
  strict_weak (order_specs_before order_specs).
Proof.
  induction order_specs as [|[col is_asc] order_specs [IHi IHt IHc]].
  { by split. }
  destruct (in_order_facts is_asc) as (Hirr & Htrans & Hconnex).
  cbv zeta in Hirr, Htrans, Hconnex.
  split; cbn [order_specs_before].
  - intros a. rewrite decide_False by (intros Hne; by apply Hne). apply IHi.
  - intros a b c.
    destruct (decide (text_at col a ≠ text_at col b)) as [Hab|Hab].
    + destruct (decide (text_at col b ≠ text_at col c)) as [Hbc|Hbc].
      * intros H1 H2. pose proof (Htrans _ _ _ H1 H2) as H3.
        rewrite decide_True; [done|]. intros Heq. rewrite Heq, Hirr in H3. done.
      * apply dec_stable in Hbc. rewrite <-Hbc. rewrite decide_True by done.
        by intros ? _.
    + apply dec_stable in Hab. rewrite Hab.
      destruct (decide (text_at col b ≠ text_at col c)); [by intros _ ?|apply IHt].
  - intros a b c.
    destruct (decide (text_at col a ≠ text_at col b)) as [Hab|Hab].
    { rewrite decide_True by (intros Heq; by apply Hab).
      intros H1 H2. destruct Hab. by apply Hconnex. }
    apply dec_stable in Hab. rewrite Hab.
    rewrite (decide_False (P := text_at col b ≠ text_at col b))
      by (intros Hne; by apply Hne).
    destruct (decide (text_at col b ≠ text_at col c)) as [Hbc|Hbc].
    { rewrite decide_True by (intros Heq; by apply Hbc).
      intros _ _ H1 H2. destruct Hbc. by apply Hconnex. }
    apply dec_stable in Hbc. rewrite Hbc.
    repeat (destruct (decide (text_at col c ≠ text_at col c)) as [Hne|_];
            [by destruct Hne|]).
    apply IHc.
Qed.

Lemma order_specs_less_returns order_specs a b :
  Forall (λ spec, has spec.1 a ∧ has spec.1 b) order_specs →
  order_specs_less order_specs a b = Ret (order_specs_before order_specs a b).
Proof.
  induction 1 as [|[col is_asc] order_specs [[x Ha] [y Hb]] _ IH]; [done|].
  simpl in *. unfold at_, text_at. rewrite Ha, Hb. simpl.
  destruct (decide (x ≠ y)); [done|apply IH].
Qed.

Lemma order_specs_less_throws col (is_asc : bool) order_specs a b :
  a !! col = None ∨ b !! col = None →
  throws (order_specs_less ((col, is_asc) :: order_specs) a b).
Proof.
  simpl. unfold at_. intros [Hnone|Hnone]; rewrite Hnone; simpl.
  - by exists OutOfRange.
  - destruct (a !! col); by exists OutOfRange.
Qed.

(** X18.  The comparator of [ORDER_BY_MULTI] is a strict weak ordering of
    the rows, as [std::sort] asks for.  When every row of the table has
    every ordering column, the sort returns a rearrangement of the table in
    which no row comes after one it goes before; with a single ascending
    column the comparator is that of [ORDER_BY_ASC], and with no column no
    row goes before another.  When a row compared by the sort lacks the
    first ordering column, the call fails. *)
Theorem ORDER_BY_MULTI_sorts_by_the_first_difference
    (compared : list (Row * Row)) table order_specs :
  strict_weak (order_specs_before order_specs) ∧
  (sort_comparisons table compared →
   Forall (λ row, Forall (λ spec, has spec.1 row) order_specs) table →
     ∃ out, ORDER_BY_MULTI compared table order_specs = Ret out ∧ out ≡ₚ table ∧
       StronglySorted (λ a b, order_specs_before order_specs b a = false) out) ∧
  (∀ column a b, order_specs_before [(column, true)] a b
                 = string_lt (text_at column a) (text_at column b)) ∧
  (∀ a b, order_specs_before [] a b = false) ∧
  (∀ column is_asc specs,
     order_specs = (column, is_asc) :: specs →
     sort_comparisons table compared → 2 ≤ length table →
     Exists (λ row, row !! column = None) table →
     throws (ORDER_BY_MULTI compared table order_specs)).
Proof.
  split_and!.
  - apply order_specs_before_strict_weak.
  - intros [Hrows _] Hcomplete. unfold ORDER_BY_MULTI.
    assert (foldM (λ _ pair, _ ← order_specs_less order_specs pair.1 pair.2; Ret ())
              () compared = Ret ()) as ->.
    { induction Hrows as [|[a b] compared [Ha Hb] _ IH]; [done|]. simpl in *.
      rewrite order_specs_less_returns; [by simpl|].
      eapply Forall_forall in Ha, Hb; [|exact Hcomplete..].
      apply Forall_forall. intros spec Hspec. split.
      - by eapply Forall_forall in Ha.
      - by eapply Forall_forall in Hb. }
    simpl. eexists. split_and!; [done|apply std_sort_perm|].
    apply std_sort_sorted, order_specs_before_strict_weak.
  - intros column a b. simpl.
    destruct (decide (text_at column a ≠ text_at column b)) as [|Heq]; [done|].
    apply dec_stable in Heq. rewrite Heq. symmetry. apply string_lt_irrefl.
  - done.
  - intros column is_asc specs -> [_ Hall] Hlen (row & Hrow & Hnone)%Exists_exists.
    unfold ORDER_BY_MULTI.
    assert (throws (foldM (λ _ pair,
              _ ← order_specs_less ((column, is_asc) :: specs) pair.1 pair.2; Ret ())
              () compared)) as [e ->]; [|by exists e].
    apply (foldM_store_throws
             (λ pair : Row * Row, order_specs_less ((column, is_asc) :: specs) pair.1 pair.2)
             (λ _ _ _, ())).
    apply Exists_exists.
    destruct (Hall Hlen row Hrow) as [Hin|Hin];
      apply list_elem_of_fmap in Hin as ([a b] & -> & Hin);
      exists (a, b); (split; [done|]); apply order_specs_less_throws; simpl in *; auto.
Qed.
End order_by_multi_facts.

(** Two rows that agree on [k], ordered by [k] and then by [id], descending. *)
Example ORDER_BY_MULTI_tied :
  QueryClauses.sort_comparisons Samples.tied2 [(Samples.row [("k", "x"); ("id", "1")],
                                   Samples.row [("k", "x"); ("id", "2")])] ∧
  @QueryClauses.ORDER_BY_MULTI ties_kept
    [(Samples.row [("k", "x"); ("id", "1")], Samples.row [("k", "x"); ("id", "2")])]
    Samples.tied2 [("k", true); ("id", false)]
  = Ret (reverse Samples.tied2).
Proof.
  split; [|vm_compute; reflexivity].
  split.
  - repeat constructor.
  - intros _ row [->|[->|?%elem_of_nil]%elem_of_cons]%elem_of_cons; [left|right|done];
      simpl; left.
Qed.

(** Numbers and the texts that stand for them are not in the same order. *)
Example ORDER_BY_NUMERIC_is_not_by_text :
  @QueryClauses.ORDER_BY_NUMERIC_ASC Instances.whole_double ties_kept
    [Samples.row [("v", "7")]; Samples.row [("v", "12")]; Samples.row [("v", "3")]] "v"
  = Ret [Samples.row [("v", "3")]; Samples.row [("v", "7")]; Samples.row [("v", "12")]] ∧
  @QueryClauses.ORDER_BY_ASC ties_kept
    [Samples.row [("v", "7")]; Samples.row [("v", "12")]; Samples.row [("v", "3")]] "v"
  = Ret [Samples.row [("v", "12")]; Samples.row [("v", "3")]; Samples.row [("v", "7")]].
Proof. split; vm_compute; reflexivity. Qed.

(** * [include/utilities.hpp] *)

Section getline_facts.
Context (delim : ascii).
Implicit Types (s item rest : string) (fields : list string).

Lemma occurs_append (c : ascii) (a b : string) :
  occurs c (a +:+ b) = occurs c a || occurs c b.
Proof.
  induction a as [|x a IH]; [done|]. rewrite append_String. simpl.
  by rewrite IH, orb_assoc.
Qed.

(** The loop over [getline], one pass unrolled. *)
Lemma getlines_getline s :
  getlines delim s
  = match getline delim s with
    | Some (item, rest) => item :: getlines delim rest
    | None => []
    end.
Proof.
  induction s as [|c s IH]; [done|].
  cbn [getlines getline until]. destruct (decide (c = delim)) as [->|Hne]; [done|].
  rewrite IH. destruct s as [|c' s]; [done|].
  cbn [getline]. by destruct (until delim (String c' s)).
Qed.

Lemma getlines_nil s : getlines delim s = [] ↔ s = "".
Proof.
  split; [|by intros ->]. destruct s as [|c s]; [done|]. simpl.
  destruct (decide (c = delim)); [done|]. by destruct (getlines delim s).
Qed.

Lemma getlines_item item rest :
  occurs delim item = false →
  getlines delim (item +:+ String delim rest) = item :: getlines delim rest.
Proof.
  induction item as [|c item IH]; intros Hitem.
  - rewrite append_nil_l. simpl. by rewrite decide_True.
  - rewrite append_String. simpl in *.
    apply orb_false_elim in Hitem as [Hc Hitem]. apply bool_decide_eq_false in Hc.
    rewrite decide_False by congruence. by rewrite IH.
Qed.

Lemma getlines_terminated fields :
  Forall (λ field, occurs delim field = false) fields →
  getlines delim (terminated delim fields) = fields.
Proof.
  induction 1 as [|field fields Hfield _ IH]; [done|].
  simpl. by rewrite getlines_item, IH.
Qed.

Lemma getlines_clean s : Forall (λ field, occurs delim field = false) (getlines delim s).
Proof.
  induction s as [|c s IH]; [constructor|]. simpl.
  destruct (decide (c = delim)) as [->|Hne]; [by constructor|].
  destruct (getlines delim s) as [|item items]; constructor.
  - simpl. rewrite bool_decide_eq_false_2 by congruence. done.
  - constructor.
  - simpl. rewrite bool_decide_eq_false_2 by congruence.
    by apply Forall_cons in IH as [-> _].
  - by apply Forall_cons in IH as [_ ?].
Qed.

Lemma lacks_final_cons (c c' : ascii) s :
  lacks_final delim (String c (String c' s)) = lacks_final delim (String c' s).
Proof. done. Qed.

Lemma terminated_getlines s :
  terminated delim (getlines delim s)
  = if lacks_final delim s then s +:+ String delim "" else s.
Proof.
  induction s as [|c s IH]; [done|]. cbn [getlines].
  destruct (decide (c = delim)) as [->|Hne].
  - cbn [terminated foldr]. fold (terminated delim (getlines delim s)).
    rewrite IH, append_nil_l. destruct s as [|c' s].
    + simpl. by rewrite bool_decide_eq_true_2.
    + rewrite lacks_final_cons.
      destruct (lacks_final delim (String c' s)); by rewrite ?append_String.
  - destruct (getlines delim s) as [|item items] eqn:Hs.
    + apply getlines_nil in Hs as ->. simpl.
      by rewrite bool_decide_eq_false_2.
    + cbn [terminated foldr] in *. rewrite append_String, IH.
      destruct s as [|c' s]; [done|]. rewrite lacks_final_cons.
      destruct (lacks_final delim (String c' s)); by rewrite ?append_String.
Qed.
End getline_facts.

Section splitPipe_facts.
Import Utilities.
Implicit Types (line : string) (fields : list string).

(** X19.  [splitPipe] reads back the fields of a line written as each field
    followed by ['|'], the way the table files are written: for fields that
    hold no ['|'], empty fields included. *)
Theorem splitPipe_reads_terminated_fields fields :
  Forall (λ field, occurs "|" field = false) fields →
  splitPipe (terminated "|" fields) = fields.
Proof. apply getlines_terminated. Qed.

(** X20.  The fields [splitPipe] returns hold no ['|'], and writing each of
    them followed by ['|'] gives the line back, with a ['|'] added if the
    line did not end in one.  So a ['|'] at the end of a line makes no
    difference: an empty last field is lost, while an empty field before a
    ['|'] is kept, and only the empty line has no fields. *)
Theorem splitPipe_splits_at_every_pipe line :
  Forall (λ field, occurs "|" field = false) (splitPipe line) ∧
  terminated "|" (splitPipe line)
    = (if lacks_final "|" line then line +:+ "|" else line) ∧
  (lacks_final "|" line = true → splitPipe (line +:+ "|") = splitPipe line) ∧
  (splitPipe line = [] ↔ line = "").
Proof.
  unfold splitPipe. split_and!.
  - apply getlines_clean.
  - apply terminated_getlines.
  - intros Hlacks. rewrite <-(getlines_terminated "|" (getlines "|" line))
      by apply getlines_clean.
    by rewrite terminated_getlines, Hlacks.
  - apply getlines_nil.
Qed.
End splitPipe_facts.

Lemma splitPipe_reads_terminated_fields_witness :
  Forall (λ field, occurs "|" field = false) ["1"; ""; "ASIA"] ∧
  Utilities.splitPipe (terminated "|" ["1"; ""; "ASIA"]) = ["1"; ""; "ASIA"].
Proof.
  assert (Forall (λ field, occurs "|" field = false) ["1"; ""; "ASIA"]) as Hfields
    by (repeat constructor).
  split; [exact Hfields|].
  apply (splitPipe_reads_terminated_fields ["1"; ""; "ASIA"] Hfields).
Defined.

Section readTable_facts.
Import Utilities.
Implicit Types (columns fields lines : list string) (out : Table) (row : Row).

Lemma line_row_upto columns fields (k : nat) :
  k ≤ length columns → length columns ≤ length fields →
  let row := foldl (λ (row : Row) i,
               match columns !! i, fields !! i with
               | Some column, Some field => <[column := field]> row
               | _, _ => row
               end) ∅ (seq 0 k) in
  dom row = list_to_set (take k columns) ∧
  (NoDup columns → ∀ i column, i < k → columns !! i = Some column →
     row !! column = fields !! i).
Proof.
  intros Hk Hlen. cbv zeta. induction k as [|k IH].
  - simpl. split; [by rewrite dom_empty_L|]. intros _ i column Hi. lia.
  - destruct IH as [IHdom IHrow]; [lia|].
    rewrite seq_S, foldl_app. cbn [foldl plus].
    destruct (lookup_lt_is_Some_2 columns k) as [column Hcolumn]; [lia|].
    destruct (lookup_lt_is_Some_2 fields k) as [field Hfield]; [lia|].
    rewrite Hcolumn, Hfield. split.
    + rewrite dom_insert_L, IHdom, (take_S_r _ _ _ Hcolumn), list_to_set_app_L.
      simpl. rewrite (right_id_L ∅ (∪)). apply (comm_L (∪)).
    + intros Hnd i column' Hi Hcolumn'. destruct (decide (i = k)) as [->|Hne].
      * rewrite Hcolumn in Hcolumn'. injection Hcolumn' as <-.
        by rewrite lookup_insert_eq.
      * rewrite lookup_insert_ne; [apply IHrow; [done|lia|done]|].
        intros <-. apply Hne. symmetry. by eapply NoDup_lookup.
Qed.

Lemma line_row_fields columns fields :
  length columns ≤ length fields →
  dom (line_row columns fields) = list_to_set columns ∧
  (NoDup columns → ∀ i column, columns !! i = Some column →
     line_row columns fields !! column = fields !! i).
Proof.
  intros Hlen.
  destruct (line_row_upto columns fields (length columns)) as [Hdom Hrow]; [done..|].
  split.
  - unfold line_row. by rewrite Hdom, firstn_all.
  - intros Hnd i column Hi. apply Hrow; [done| |done].
    by apply lookup_lt_Some in Hi.
Qed.

Lemma read_lines_rows columns lines out :
  ∃ good rest,
    lines = good ++ rest ∧
    Forall (long_enough columns) good ∧
    match rest with
    | [] => read_lines columns lines out
            = (true, out ++ (line_row columns ∘ splitPipe <$> good))
    | line :: _ =>
      ¬ long_enough columns line ∧
      read_lines columns lines out
      = (false, out ++ (line_row columns ∘ splitPipe <$> good))
    end.
Proof.
  revert out. induction lines as [|line lines IH]; intros out.
  - exists [], []. simpl. by rewrite app_nil_r.
  - simpl. destruct (Nat.ltb_spec (length (splitPipe line)) (length columns)) as [Hshort|Hlong].
    + exists [], (line :: lines).
      split; [done|]. split; [constructor|].
      split; [unfold long_enough; lia|]. simpl. by rewrite app_nil_r.
    + destruct (IH (out ++ [line_row columns (splitPipe line)]))
        as (good & rest & -> & Hgood & Hrest).
      exists (line :: good), rest.
      split; [done|]. split; [by constructor|].
      fold (line_row columns (splitPipe line)).
      destruct rest as [|line' rest].
      * rewrite Hrest. simpl. by rewrite <-(assoc_L (++)).
      * destruct Hrest as [Hshort ->]. split; [done|]. simpl.
        by rewrite <-(assoc_L (++)).
Qed.

Lemma readTable_outcome (disk : gmap string string) (file : string) columns out :
  (disk !! file = None → readTable disk file columns out = (false, out)) ∧
  (∀ text, disk !! file = Some text →
     ∃ good rest rows,
       getlines newline text = good ++ rest ∧
       Forall (long_enough columns) good ∧
       match rest with [] => True | line :: _ => ¬ long_enough columns line end ∧
       readTable disk file columns out
         = (bool_decide (rest = []), out ++ rows) ∧
       Forall2 (λ line row,
         dom row = list_to_set columns ∧
         (NoDup columns → ∀ i column, columns !! i = Some column →
            row !! column = splitPipe line !! i)) good rows).
Proof.
  unfold readTable. split; [by intros ->|]. intros text ->.
  destruct (read_lines_rows columns (getlines newline text) out)
    as (good & rest & Hlines & Hgood & Hrest).
  exists good, rest, (line_row columns ∘ splitPipe <$> good).
  split_and!; [done|done|..].
  - destruct rest; [done|]. by destruct Hrest.
  - destruct rest; [done|]. by destruct Hrest as [_ ->].
  - apply Forall2_fmap_r, Forall_Forall2_diag.
    eapply Forall_impl; [exact Hgood|]. intros line Hline.
    by apply line_row_fields.
Qed.

(** What a successful [readTable] has appended. *)
Lemma readTable_appends (disk : gmap string string) (file : string) columns out out' :
  readTable disk file columns out = (true, out') →
  ∃ rows, out' = out ++ rows ∧ Forall (λ row, dom row = list_to_set columns) rows.
Proof.
  destruct (readTable_outcome disk file columns out) as [Hnone Hsome].
  destruct (disk !! file) as [text|]; [|by rewrite Hnone].
  destruct (Hsome text) as (good & rest & rows & _ & _ & _ & -> & Hrows); [done|].
  intros [= _ <-]. exists rows. split; [done|].
  clear -Hrows. induction Hrows as [|line row good rows [Hdom _] _ IH]; by constructor.
Qed.

(** X21.  [readTable] fails on a file that cannot be opened and leaves
    [out] as it was.  Otherwise it appends one row for each line, up to the
    first line with fewer fields than columns: it succeeds when there is no
    such line, and fails at that line with the rows of the lines before it
    left in [out].  A row has exactly the columns as its fields -- further
    fields of the line are ignored -- and, the columns being different
    names, the i-th column holds the i-th field. *)
Theorem readTable_reads_up_to_first_short_line
    (disk : gmap string string) (file : string) columns out :
  (disk !! file = None → readTable disk file columns out = (false, out)) ∧
  (∀ text, disk !! file = Some text →
     ∃ good rest rows,
       getlines newline text = good ++ rest ∧
       Forall (long_enough columns) good ∧
       match rest with [] => True | line :: _ => ¬ long_enough columns line end ∧
       readTable disk file columns out
         = (bool_decide (rest = []), out ++ rows) ∧
       Forall2 (λ line row,
         dom row = list_to_set columns ∧
         (NoDup columns → ∀ i column, columns !! i = Some column →
            row !! column = splitPipe line !! i)) good rows).
Proof. apply readTable_outcome. Qed.
End readTable_facts.

Section trim_facts.
Import Utilities.
Implicit Types (s str : string) (c : ascii).

Lemma find_first_not_of_spec str :
  match find_first_not_of whitespace str with
  | Some first => ∃ before c rest,
      str = (before +:+ String c rest) ∧ String.length before = first ∧
      blank before ∧ c ∉ whitespace
  | None => blank str
  end.
Proof.
  induction str as [|c str IH]; [done|]. simpl.
  destruct (decide (c ∈ whitespace)) as [Hc|Hc].
  - destruct (find_first_not_of whitespace str) as [first|]; simpl.
    + destruct IH as (before & c' & rest & -> & <- & Hblank & Hc').
      by exists (String c before), c', rest.
    + done.
  - by exists "", c, str.
Qed.

Lemma find_last_not_of_spec str :
  match find_last_not_of whitespace str with
  | Some last => ∃ front c after,
      str = (front +:+ String c after) ∧ String.length front = last ∧
      (c ∉ whitespace) ∧ blank after
  | None => blank str
  end.
Proof.
  induction str as [|c str IH]; [done|]. simpl.
  destruct (find_last_not_of whitespace str) as [last|].
  - destruct IH as (front & c' & after & -> & <- & Hc' & Hblank).
    by exists (String c front), c', after.
  - destruct (decide (c ∈ whitespace)) as [Hc|Hc]; [done|].
    by exists "", c, str.
Qed.

Lemma append_split (a b c d : string) :
  a +:+ b = c +:+ d → String.length a ≤ String.length c →
  ∃ x, c = (a +:+ x) ∧ b = (x +:+ d).
Proof.
  revert c. induction a as [|y a IH]; intros c Heq Hlen.
  - by exists c.
  - destruct c as [|z c]; [simpl in Hlen; lia|].
    rewrite !append_String in Heq. injection Heq as -> Heq.
    destruct (IH c Heq) as (x & -> & ->); [simpl in Hlen; lia|]. by exists x.
Qed.

Lemma append_inj_both (a b c d : string) :
  a +:+ b = c +:+ d → String.length a = String.length c → a = c ∧ b = d.
Proof.
  intros Heq Hlen. destruct (append_split a b c d) as (x & -> & ->); [done|lia|].
  rewrite length_append in Hlen. destruct x; [|simpl in Hlen; lia].
  by rewrite append_nil_r.
Qed.

Lemma blank_append (a b : string) : blank (a +:+ b) ↔ blank a ∧ blank b.
Proof.
  induction a as [|c a IH]; [simpl; tauto|]. rewrite append_String. simpl.
  rewrite IH. tauto.
Qed.

Lemma substring_append (a b : string) (len : nat) :
  String.substring (String.length a) len (a +:+ b) = String.substring 0 len b.
Proof. induction a as [|c a IH]; [done|]. by rewrite append_String. Qed.

Lemma substring_prefix (a b : string) :
  String.substring 0 (String.length a) (a +:+ b) = a.
Proof.
  induction a as [|c a IH]; [by destruct b|]. rewrite append_String. simpl.
  by rewrite IH.
Qed.

(** The three parts [trim] cuts a text into. *)
Lemma trim_parts str :
  ∃ before after,
    str = (before +:+ (trim str +:+ after)) ∧ blank before ∧ blank after ∧
    match trim str with
    | EmptyString => True
    | String c _ => (c ∉ whitespace) ∧
                    ∃ front c', trim str = (front +:+ String c' "") ∧ c' ∉ whitespace
    end.
Proof.
  unfold trim.
  pose proof (find_first_not_of_spec str) as Hfirst.
  pose proof (find_last_not_of_spec str) as Hlast.
  destruct (find_first_not_of whitespace str) as [first|].
  - destruct Hfirst as (before & c & rest & Hstr & <- & Hbefore & Hc).
    destruct (find_last_not_of whitespace str) as [last|].
    + destruct Hlast as (front & c' & after & Hstr' & <- & Hc' & Hafter).
      assert (String.length before ≤ String.length front) as Hle.
      { destruct (Nat.le_gt_cases (String.length before) (String.length front))
          as [|Hgt]; [done|].
        destruct (append_split front (String c' after) before (String c rest))
          as (x & -> & Hx); [congruence|lia|].
        destruct x as [|y x]; [rewrite append_nil_r in Hgt; lia|].
        rewrite append_String in Hx. injection Hx as <- _.
        apply blank_append in Hbefore as [_ [? _]]. done. }
      destruct (append_split before (String c rest) front (String c' after))
        as (x & -> & Hrest); [congruence|done|].
      exists before, after. unfold substr.
      assert (String.length (before +:+ x) - String.length before + 1
              = String.length (x +:+ String c' "")) as ->.
      { rewrite !length_append. simpl. lia. }
      rewrite Hstr, Hrest, substring_append.
      change (String c' after) with (String c' "" +:+ after).
      rewrite <-(append_assoc x (String c' "") after), substring_prefix.
      split_and!; [done..|].
      destruct x as [|y x].
      * rewrite append_nil_l in *. injection Hrest as -> _.
        split; [done|]. by exists "", c'.
      * rewrite append_String in *. injection Hrest as -> _.
        split; [done|]. by exists (String y x), c'.
    + exfalso. rewrite Hstr in Hlast. by apply blank_append in Hlast as [_ [? _]].
  - exists str, "". rewrite append_nil_l, append_nil_r. done.
Qed.

Lemma trimmed_parts s :
  match s with
  | EmptyString => True
  | String c _ =>
    (c ∉ whitespace) ∧ ∃ front c', s = (front +:+ String c' "") ∧ c' ∉ whitespace
  end → trimmed s.
Proof.
  destruct s as [|c s]; intros Hs c0 s0 [Heq|Heq].
  - done.
  - by destruct s0.
  - injection Heq as -> ->. by destruct Hs.
  - destruct Hs as [_ (front & c' & Hfront & Hc')].
    rewrite Heq in Hfront.
    assert (s0 = front ∧ String c0 "" = String c' "") as [_ [= ->]]; [|done].
    apply append_inj_both; [done|].
    apply (f_equal String.length) in Hfront. rewrite !length_append in Hfront.
    simpl in Hfront. lia.
Qed.

Lemma string_snoc s : s ≠ "" → ∃ s' c, s = s' +:+ String c "".
Proof.
  induction s as [|c s IH]; [done|]. intros _. destruct s as [|c' s].
  - by exists "", c.
  - destruct IH as (s' & c0 & ->); [done|]. by exists (String c s'), c0.
Qed.

Lemma trim_trimmed s : trimmed s → trim s = s.
Proof.
  intros Hs. destruct (trim_parts s) as (before & after & Heq & Hbefore & Hafter & _).
  destruct before as [|c before].
  - rewrite append_nil_l in Heq. destruct (decide (after = "")) as [->|Hne].
    + by rewrite append_nil_r in Heq.
    + destruct (string_snoc after Hne) as (after' & c & ->).
      apply blank_append in Hafter as [_ [Hc _]].
      rewrite <-append_assoc in Heq. by destruct (Hs c _ (or_intror Heq)).
  - destruct Hbefore as [Hc _]. rewrite append_String in Heq.
    by destruct (Hs c _ (or_introl Heq)).
Qed.

Lemma trim_blank s : blank s → trim s = "".
Proof.
  intros Hs. unfold trim.
  assert (find_first_not_of whitespace s = None) as ->; [|done].
  induction s as [|c s IH]; [done|]. destruct Hs as [Hc Hs]. simpl.
  by rewrite decide_True, IH.
Qed.

Lemma trim_is_trimmed s : trimmed (trim s).
Proof.
  apply trimmed_parts. by destruct (trim_parts s) as (_ & _ & _ & _ & _ & ?).
Qed.

(** X22.  [trim] cuts the white space off both ends of a text and nothing
    else: the text is white space, then the result, then white space, and
    the result neither begins nor ends with white space.  So trimming twice
    changes nothing more, a text without white space at its ends is left as
    it is, and a text of white space only becomes empty. *)
Theorem trim_cuts_white_space_off_both_ends str :
  (∃ before after,
     str = (before +:+ (trim str +:+ after)) ∧ blank before ∧ blank after) ∧
  trimmed (trim str) ∧
  trim (trim str) = trim str ∧
  (trimmed str → trim str = str) ∧
  (blank str → trim str = "").
Proof.
  split_and!.
  - destruct (trim_parts str) as (before & after & ? & ? & ? & _).
    by exists before, after.
  - apply trim_is_trimmed.
  - apply trim_trimmed, trim_is_trimmed.
  - apply trim_trimmed.
  - apply trim_blank.
Qed.

(** X23.  [split] cuts the text at every delimiter, as [getline] does, and
    trims each piece: there is a token for each piece, it is the piece
    without the white space at its ends, and it holds no delimiter. *)
Theorem split_trims_every_piece (s : string) (delimiter : ascii) :
  Forall2 (λ piece token,
    ∃ before after, piece = (before +:+ (token +:+ after)) ∧ blank before ∧ blank after)
    (getlines delimiter s) (split s delimiter) ∧
  Forall (λ token, trimmed token ∧ occurs delimiter token = false) (split s delimiter) ∧
  (split s delimiter = [] ↔ s = "").
Proof.
  unfold split. split_and!.
  - apply Forall2_fmap_r, Forall_Forall2_diag, Forall_forall. intros piece _.
    destruct (trim_parts piece) as (before & after & ? & ? & ? & _).
    by exists before, after.
  - apply Forall_fmap. eapply Forall_impl; [apply getlines_clean|].
    intros piece Hpiece. split; [apply trim_is_trimmed|].
    destruct (trim_parts piece) as (before & after & Heq & _).
    rewrite Heq, !occurs_append in Hpiece.
    apply orb_false_elim in Hpiece as [_ Hpiece].
    by apply orb_false_elim in Hpiece as [? _].
  - split; [|by intros ->]. intros Hnil%fmap_nil_inv. by apply getlines_nil in Hnil.
Qed.
End trim_facts.

(** * The rest of [src/query5.cpp], and [src/main.cpp] *)

Section readTPCHData_facts.
Import Query5.
Implicit Types (disk : gmap string string) (table_path : string) (db : Database).

Lemma lacks_final_terminated (c : ascii) (s : string) :
  lacks_final c (s +:+ String c "") = false.
Proof.
  induction s as [|c' s IH].
  - simpl. by rewrite bool_decide_eq_true_2.
  - rewrite append_String. destruct s as [|c'' s]; [|exact IH].
    simpl. by rewrite bool_decide_eq_true_2.
Qed.

Lemma readTPCHData_read disk table_path db :
  readTPCHData disk table_path Main.no_tables = (true, db) →
  ∃ path_prefix,
    Utilities.readTable disk (path_prefix +:+ "customer.tbl") customer_cols []
      = (true, customer_data db) ∧
    Utilities.readTable disk (path_prefix +:+ "orders.tbl") orders_cols []
      = (true, orders_data db) ∧
    Utilities.readTable disk (path_prefix +:+ "lineitem.tbl") lineitem_cols []
      = (true, lineitem_data db) ∧
    Utilities.readTable disk (path_prefix +:+ "supplier.tbl") supplier_cols []
      = (true, supplier_data db) ∧
    Utilities.readTable disk (path_prefix +:+ "nation.tbl") nation_cols []
      = (true, nation_data db) ∧
    Utilities.readTable disk (path_prefix +:+ "region.tbl") region_cols []
      = (true, region_data db).
Proof.
  unfold readTPCHData.
  set (path_prefix := if lacks_final "/" table_path then _ else _).
  intros Hread. exists path_prefix. simpl in Hread.
  destruct (Utilities.readTable disk (path_prefix +:+ "customer.tbl") _ _)
    as [[] customer]; [|done]. simpl in Hread.
  destruct (Utilities.readTable disk (path_prefix +:+ "orders.tbl") _ _)
    as [[] orders]; [|done]. simpl in Hread.
  destruct (Utilities.readTable disk (path_prefix +:+ "lineitem.tbl") _ _)
    as [[] lineitem]; [|done]. simpl in Hread.
  destruct (Utilities.readTable disk (path_prefix +:+ "supplier.tbl") _ _)
    as [[] supplier]; [|done]. simpl in Hread.
  destruct (Utilities.readTable disk (path_prefix +:+ "nation.tbl") _ _)
    as [[] nation]; [|done]. simpl in Hread.
  destruct (Utilities.readTable disk (path_prefix +:+ "region.tbl") _ _)
    as [[] region]; [|done].
  by injection Hread as <-.
Qed.

Lemma readTable_from_nothing disk file (columns : list string) (out : Table) :
  Utilities.readTable disk file columns [] = (true, out) →
  Forall (λ row, dom row = list_to_set columns) out.
Proof. by intros (rows & -> & Hrows)%readTable_appends. Qed.

(** X24.  When [readTPCHData] succeeds on tables that were empty, every row
    of each table has exactly the columns of that table as its fields.  A
    ['/'] at the end of the table path makes no difference.  When the first
    file cannot be opened the call fails and the tables are left as they
    were. *)
Theorem readTPCHData_rows_have_every_column disk table_path :
  (∀ db, readTPCHData disk table_path Main.no_tables = (true, db) →
     Forall (λ row, dom row = list_to_set customer_cols) (customer_data db) ∧
     Forall (λ row, dom row = list_to_set orders_cols) (orders_data db) ∧
     Forall (λ row, dom row = list_to_set lineitem_cols) (lineitem_data db) ∧
     Forall (λ row, dom row = list_to_set supplier_cols) (supplier_data db) ∧
     Forall (λ row, dom row = list_to_set nation_cols) (nation_data db) ∧
     Forall (λ row, dom row = list_to_set region_cols) (region_data db)) ∧
  (lacks_final "/" table_path = true →
     ∀ db, readTPCHData disk (table_path +:+ "/") db = readTPCHData disk table_path db) ∧
  (disk !! ((if lacks_final "/" table_path then table_path +:+ "/" else table_path)
            +:+ "customer.tbl") = None →
     ∀ db, readTPCHData disk table_path db = (false, db)).
Proof.
  split_and!.
  - intros db (path_prefix & ? & ? & ? & ? & ? & ?)%readTPCHData_read.
    split_and!; by eapply readTable_from_nothing.
  - intros Hlacks db. unfold readTPCHData.
    by rewrite lacks_final_terminated, Hlacks.
  - intros Hnone db. unfold readTPCHData.
    unfold Utilities.readTable at 1. rewrite Hnone. by destruct db.
Qed.
End readTPCHData_facts.

Section parseArgs_facts.
Import Query5.
Implicit Types (argv : list string) (options : gmap string string) (key value : string).

Lemma substring_all (s : string) : String.substring 0 (String.length s) s = s.
Proof. induction s as [|c s IH]; [done|]. simpl. by rewrite IH. Qed.

Lemma starts_with_dashes_split (s : string) :
  starts_with_dashes s = true → s = "--" +:+ substr 2 (String.length s - 2) s.
Proof.
  unfold starts_with_dashes, substr. intros Hs%bool_decide_eq_true.
  destruct s as [|a [|b s]]; try done. simpl in Hs.
  assert (String.substring 0 0 s = "") as Hnil by by destruct s.
  rewrite Hnil in Hs. injection Hs as -> ->.
  simpl. by rewrite Nat.sub_0_r, substring_all.
Qed.

Lemma dashed_key key :
  key ≠ "" →
  (String.length ("--" +:+ key) <? 3) || negb (starts_with_dashes ("--" +:+ key)) = false ∧
  substr 2 (String.length ("--" +:+ key) - 2) ("--" +:+ key) = key.
Proof.
  intros Hkey. destruct key as [|c key]; [done|].
  unfold starts_with_dashes, substr. simpl. split.
  - done.
  - by rewrite substring_all.
Qed.

Lemma command_line_cons key value (given : list (string * string)) :
  command_line ((key, value) :: given) = ("--" +:+ key) :: value :: command_line given.
Proof. done. Qed.

(** A well-formed command line is read into the options it gives. *)
Lemma read_options_command_line (given : list (string * string)) options :
  NoDup given.*1 →
  Forall (λ option, option.1 ≠ "" ∧ starts_with_dashes option.2 = false
                    ∧ options !! option.1 = None) given →
  read_options (command_line given) options = Some (list_to_map given ∪ options).
Proof.
  revert options. induction given as [|[key value] given IH]; intros options Hnd Hgiven.
  - simpl. by rewrite (left_id_L ∅ (∪)).
  - apply NoDup_cons in Hnd as [Hkey Hnd].
    apply Forall_cons in Hgiven as [(Hne & Hvalue & Hfresh) Hgiven].
    rewrite command_line_cons. cbn [read_options fst snd list_to_map foldr] in *.
    destruct (dashed_key key Hne) as [-> ->].
    rewrite decide_False by done. rewrite Hvalue, andb_false_r.
    rewrite decide_False by (rewrite Hfresh; by intros [??]).
    rewrite IH; [|done|].
    + f_equal. rewrite insert_union_singleton_l, (assoc_L (∪)). f_equal.
      rewrite insert_union_singleton_l. apply map_union_comm.
      apply map_disjoint_singleton_r_2. by apply not_elem_of_list_to_map_1.
    + eapply Forall_impl.
      * apply Forall_and. split; [exact Hgiven|].
        apply Forall_forall. intros option Hin. exact Hin.
      * intros [k v] [(? & ? & ?) Hin]. simpl in *. split_and!; [done..|].
        rewrite lookup_insert_ne; [done|]. intros <-. apply Hkey.
        apply list_elem_of_fmap. by exists (key, v).
Qed.

(** What [read_options] accepts is a well-formed command line. *)
Lemma read_options_given (n : nat) argv options options' :
  length argv ≤ n →
  read_options argv options = Some options' →
  ∃ given : list (string * string),
    argv = command_line given ∧ NoDup given.*1 ∧
    Forall (λ option, option.1 ≠ "" ∧ starts_with_dashes option.2 = false
                      ∧ options !! option.1 = None) given ∧
    options' = list_to_map given ∪ options.
Proof.
  revert argv options. induction n as [|n IH]; intros argv options Hlen.
  { destruct argv; [|simpl in Hlen; lia]. intros [= <-]. exists [].
    split_and!; [done|constructor|constructor|]. simpl. by rewrite (left_id_L ∅ (∪)). }
  destruct argv as [|key [|value argv]]; cbn [read_options].
  - intros [= <-]. exists [].
    split_and!; [done|constructor|constructor|]. simpl. by rewrite (left_id_L ∅ (∪)).
  - destruct (_ || _); [done|].
    by destruct (decide (substr 2 (String.length key - 2) key = "")).
  - destruct ((String.length key <? 3) || negb (starts_with_dashes key)) eqn:Hkey; [done|].
    apply orb_false_elim in Hkey as [_ Hkey%negb_false_iff].
    apply starts_with_dashes_split in Hkey.
    set (key' := substr 2 (String.length key - 2) key) in *.
    destruct (decide (key' = "")) as [|Hne]; [done|].
    destruct ((2 <=? String.length value) && starts_with_dashes value) eqn:Hvalue; [done|].
    destruct (decide (is_Some (options !! key'))) as [|Hfresh]; [done|].
    intros Hrest. apply IH in Hrest as (given & -> & Hnd & Hgiven & ->);
      [|simpl in Hlen; lia].
    assert (key' ∉ given.*1) as Hnew.
    { intros ([k v] & -> & Hin)%list_elem_of_fmap.
      eapply Forall_forall in Hgiven as (_ & _ & Hk); [|exact Hin].
      simpl in Hk. by rewrite lookup_insert_eq in Hk. }
    exists ((key', value) :: given). split_and!.
    + by rewrite command_line_cons, <-Hkey.
    + simpl. by constructor.
    + constructor.
      * simpl. split_and!; [done| |].
        -- apply andb_false_iff in Hvalue as [Hshort|?]; [|done].
           apply Nat.leb_gt in Hshort. unfold starts_with_dashes, substr.
           apply bool_decide_eq_false. intros Hdashes.
           destruct value as [|a [|b value]]; simpl in *; try done. lia.
        -- destruct (options !! key') eqn:Hk; [|done]. destruct Hfresh. by eexists.
      * eapply Forall_impl; [exact Hgiven|]. intros [k v] (? & ? & Hk). simpl in *.
        split_and!; [done..|].
        destruct (decide (k = key')) as [->|Hkne];
          [by rewrite lookup_insert_eq in Hk|by rewrite lookup_insert_ne in Hk].
    + simpl. rewrite insert_union_singleton_l, (assoc_L (∪)). f_equal.
      rewrite insert_union_singleton_l. apply map_union_comm.
      apply map_disjoint_singleton_r_2. by apply not_elem_of_list_to_map_1.
Qed.

Lemma required_given (options : gmap string string) :
  ¬ Exists (λ key, options !! key = None) required ↔
  is_Some (options !! "r_name") ∧ is_Some (options !! "start_date") ∧
  is_Some (options !! "end_date") ∧ is_Some (options !! "threads") ∧
  is_Some (options !! "table_path") ∧ is_Some (options !! "result_path").
Proof.
  unfold required. rewrite !Exists_cons, Exists_nil.
  rewrite <-!not_eq_None_Some. tauto.
Qed.

(** X25.  [parseArgs] succeeds exactly on a command line made of pairs of
    [--key] and value, with keys that are not empty and not repeated and
    values that do not begin with [--], in which the six options of the
    query are all given and the value of [threads] is read by [std::stoi]
    as a positive number.  The options may come in any order, options of
    other names are accepted and ignored, and the outputs are the values
    given. *)
Theorem parseArgs_accepts_exactly_the_well_formed `{StdStoi} argv (args args' : Args) :
  parseArgs argv args = (true, args') ↔
  ∃ (given : list (string * string)) (threads : string),
    argv = command_line given ∧ NoDup given.*1 ∧
    Forall (λ option, option.1 ≠ "" ∧ starts_with_dashes option.2 = false) given ∧
    ("r_name", r_name args') ∈ given ∧
    ("start_date", start_date args') ∈ given ∧
    ("end_date", end_date args') ∈ given ∧
    ("threads", threads) ∈ given ∧
    ("table_path", table_path args') ∈ given ∧
    ("result_path", result_path args') ∈ given ∧
    stoi threads = Some (num_threads args') ∧ (0 < num_threads args')%Z.
Proof.
  unfold parseArgs. split.
  - destruct (read_options argv ∅) as [options|] eqn:Hread; [|done].
    apply (read_options_given (length argv)) in Hread
      as (given & -> & Hnd & Hgiven & ->); [|done].
    rewrite (right_id_L ∅ (∪)).
    destruct (decide (Exists _ required)) as [|Hall]; [done|].
    apply required_given in Hall
      as ([r Hr] & [s Hs] & [e He] & [t Ht] & [p Hp] & [o Ho]).
    rewrite Hr, Hs, He, Ht, Hp, Ho. simpl.
    destruct (stoi t) as [threads|] eqn:Hthreads; [|done].
    destruct (decide (threads ≤ 0)%Z); [done|]. intros [= <-]. simpl.
    exists given, t. split_and!; try done; try lia.
    + eapply Forall_impl; [exact Hgiven|]. by intros option (? & ? & _).
    + by apply elem_of_list_to_map_2.
    + by apply elem_of_list_to_map_2.
    + by apply elem_of_list_to_map_2.
    + by apply elem_of_list_to_map_2.
    + by apply elem_of_list_to_map_2.
    + by apply elem_of_list_to_map_2.
  - intros (given & t & -> & Hnd & Hgiven & Hr & Hs & He & Ht & Hp & Ho & Hthreads & Hpos).
    rewrite read_options_command_line; [|done|].
    2:{ eapply Forall_impl; [exact Hgiven|]. by intros option [??]. }
    rewrite (right_id_L ∅ (∪)).
    apply (elem_of_list_to_map_1 (M := gmap string)) in Hr, Hs, He, Ht, Hp, Ho; try done.
    rewrite decide_False.
    2:{ apply required_given. rewrite Hr, Hs, He, Ht, Hp, Ho. by split_and!. }
    rewrite Hr, Hs, He, Ht, Hp, Ho. simpl. rewrite Hthreads.
    rewrite decide_False by lia. by destruct args'.
Qed.
End parseArgs_facts.

Section whole_stoi_facts.
Lemma whole_stoi_int (s : string) (n : Z) :
  Instances.whole_stoi s = Some n → (- 2 ^ 31 ≤ n < 2 ^ 31)%Z.
Proof.
  unfold Instances.whole_stoi.
  destruct (Z.of_int <$> _) as [m|]; simpl; [|done].
  destruct (decide _); [|done]. by intros [= <-].
Qed.
End whole_stoi_facts.

#[local] Instance whole_int : StdStoi := {|
  stoi := Instances.whole_stoi;
  stoi_int := whole_stoi_int
|}.

Ltac absent :=
  let H := fresh in
  intros H; repeat (apply elem_of_cons in H as [H|H]; [discriminate H|]);
  by apply elem_of_nil in H.

Section input_facts.
Import Query5.
Context `{Double} `{StdStoi}.

Lemma parseArgs_threads argv (args args' : Args) :
  parseArgs argv args = (true, args') → (0 < num_threads args')%Z.
Proof.
  unfold parseArgs. destruct (read_options argv ∅) as [options|]; [|done].
  destruct (decide (Exists _ required)); [done|].
  destruct (stoi _) as [threads|]; [|done].
  destruct (decide (threads ≤ 0)%Z); [done|]. intros [= <-]. simpl. lia.
Qed.

Lemma column_given (columns : list string) (column : string) (table : Table) :
  column ∈ columns →
  Forall (λ row : Row, dom row = list_to_set columns) table → Forall (has column) table.
Proof.
  intros Hcolumn Hall. eapply Forall_impl; [exact Hall|]. intros row Hdom.
  apply elem_of_dom. rewrite Hdom. by apply elem_of_list_to_set.
Qed.

Lemma column_not_given (columns : list string) (table : Table) :
  "L_EXTENDEDPRICE" ∉ columns → "L_DISCOUNT" ∉ columns →
  Forall (λ row : Row, dom row = list_to_set columns) table → Forall numbers_parse table.
Proof.
  intros Hprice Hdiscount Hall. eapply Forall_impl; [exact Hall|].
  intros row Hdom column text Hcolumn Hrow.
  assert (column ∈ columns) as Hin.
  { apply (elem_of_list_to_set (C := gset string)). rewrite <-Hdom.
    apply elem_of_dom. by eexists. }
  apply elem_of_cons in Hcolumn as [->|Hcolumn]; [done|].
  apply elem_of_cons in Hcolumn as [->|Hcolumn]; [done|].
  by apply elem_of_nil in Hcolumn.
Qed.

(** X26.  What [main] hands to [executeQuery5] after [parseArgs] and
    [readTPCHData] have succeeded is input the query is meant for, as soon
    as the prices and discounts of the line items are numbers: the thread
    count is positive, and every row has the columns the query reads with
    [at]. *)
Theorem parsed_and_read_input_is_well_formed
    (argv : list string) (args0 args : Args) (disk : gmap string string) (db : Database) :
  parseArgs argv args0 = (true, args) →
  readTPCHData disk (table_path args) Main.no_tables = (true, db) →
  Forall numbers_parse (lineitem_data db) →
  well_formed (num_threads args) (customer_data db) (orders_data db) (lineitem_data db)
    (supplier_data db) (nation_data db) (region_data db).
Proof.
  intros Hparsed (path_prefix & Hc & Ho & Hl & Hs & Hn & Hr)%readTPCHData_read Hnumbers.
  apply readTable_from_nothing in Hc, Ho, Hl, Hs, Hn, Hr.
  split.
  - by eapply parseArgs_threads.
  - apply (column_given orders_cols); [|done]. unfold orders_cols. set_solver.
  - apply (column_given nation_cols); [|done]. unfold nation_cols. set_solver.
  - apply (column_given lineitem_cols); [|done]. unfold lineitem_cols. set_solver.
  - apply (column_given lineitem_cols); [|done]. unfold lineitem_cols. set_solver.
  - rewrite !Forall_app. split_and!; [| |done|..].
    + apply (column_not_given customer_cols); [absent..|done].
    + apply (column_not_given orders_cols); [absent..|done].
    + apply (column_not_given supplier_cols); [absent..|done].
    + apply (column_not_given nation_cols); [absent..|done].
    + apply (column_not_given region_cols); [absent..|done].
Qed.
End input_facts.

Lemma numbers_parse_fields `{Double} (row : Row) (price discount : string) :
  row !! "L_EXTENDEDPRICE" = Some price → row !! "L_DISCOUNT" = Some discount →
  is_Some (stod price) → is_Some (stod discount) → numbers_parse row.
Proof.
  intros Hprice Hdiscount ?? column text Hcolumn.
  apply elem_of_cons in Hcolumn as [->|Hcolumn]; [rewrite Hprice; by intros [= <-]|].
  apply elem_of_cons in Hcolumn as [->|Hcolumn]; [rewrite Hdiscount; by intros [= <-]|].
  by apply elem_of_nil in Hcolumn.
Qed.

Lemma scenario_files_numbers :
  Forall (@numbers_parse Instances.whole_double) (Query5.lineitem_data ScenarioFiles.db).
Proof.
  repeat constructor.
  apply (@numbers_parse_fields Instances.whole_double _ "100" "0").
  - vm_compute. reflexivity.
  - vm_compute. reflexivity.
  - vm_compute. by eexists.
  - vm_compute. by eexists.
Qed.

Lemma parsed_and_read_input_is_well_formed_witness :
  (Query5.parseArgs ScenarioFiles.argv Main.no_args = (true, ScenarioFiles.args) ∧
   Query5.readTPCHData ScenarioFiles.disk (Query5.table_path ScenarioFiles.args)
     Main.no_tables = (true, ScenarioFiles.db) ∧
   Forall (@numbers_parse Instances.whole_double)
     (Query5.lineitem_data ScenarioFiles.db)) ∧
  @well_formed Instances.whole_double (Query5.num_threads ScenarioFiles.args)
    (Query5.customer_data ScenarioFiles.db) (Query5.orders_data ScenarioFiles.db)
    (Query5.lineitem_data ScenarioFiles.db) (Query5.supplier_data ScenarioFiles.db)
    (Query5.nation_data ScenarioFiles.db) (Query5.region_data ScenarioFiles.db).
Proof.
  assert (Query5.parseArgs ScenarioFiles.argv Main.no_args = (true, ScenarioFiles.args))
    as Hparsed by (vm_compute; reflexivity).
  assert (Query5.readTPCHData ScenarioFiles.disk (Query5.table_path ScenarioFiles.args)
            Main.no_tables = (true, ScenarioFiles.db)) as Hread
    by (vm_compute; reflexivity).
  split; [exact (conj Hparsed (conj Hread scenario_files_numbers))|].
  exact (@parsed_and_read_input_is_well_formed Instances.whole_double whole_int
           ScenarioFiles.argv Main.no_args ScenarioFiles.args ScenarioFiles.disk
           ScenarioFiles.db Hparsed Hread scenario_files_numbers).
Defined.

Section outputResults_facts.
Import Query5.
Context `{Double} `{StdSort}.
Implicit Types (disk : gmap string string) (results : gmap string double).

Lemma getlines_last (delim : ascii) (item : string) :
  item ≠ "" → occurs delim item = false → getlines delim item = [item].
Proof.
  induction item as [|c item IH]; [done|]. intros _. simpl.
  intros [Hc Hitem]%orb_false_elim. apply bool_decide_eq_false in Hc.
  rewrite decide_False by congruence.
  destruct item as [|c' item]; [done|]. by rewrite IH.
Qed.

(** The text of the file is its lines, each ended by a line break. *)
Lemma written_lines (sorted : list (string * double)) (text : string) :
  foldl (λ text pair, text +:+ result_line pair) text sorted
  = text +:+ terminated Utilities.newline
               ((λ pair, pair.1 +:+ ("|" +:+ to_string pair.2)) <$> sorted).
Proof.
  revert text. induction sorted as [|pair sorted IH]; intros text; simpl.
  - by rewrite append_nil_r.
  - rewrite IH. unfold result_line. by rewrite !append_assoc.
Qed.

Lemma result_line_fields (name : string) (x : double) :
  prints_plainly → plain_name name →
  occurs Utilities.newline (name +:+ ("|" +:+ to_string x)) = false ∧
  Utilities.splitPipe (name +:+ ("|" +:+ to_string x)) = [name; to_string x].
Proof.
  intros Hprints [Hpipe Hline]. destruct (Hprints x) as (Hne & Hxpipe & Hxline). split.
  - rewrite occurs_append, Hline.
    change (occurs Utilities.newline ("|" +:+ to_string x))
      with (bool_decide (Utilities.newline = "|"%char)
            || occurs Utilities.newline (to_string x)).
    by rewrite Hxline, bool_decide_eq_false_2.
  - unfold Utilities.splitPipe.
    change ("|" +:+ to_string x) with (String "|" (to_string x)).
    by rewrite getlines_item, getlines_last.
Qed.

Lemma outputResults_text disk (writable : string → bool) (result_path : string) results :
  outputResults disk writable result_path results
  = if writable result_path
    then (true, <[result_path :=
                   terminated Utilities.newline
                     ("N_NAME|REVENUE"
                      :: ((λ pair, pair.1 +:+ ("|" +:+ to_string pair.2))
                            <$> std_sort (λ a b, dgt a.2 b.2) (items results)))]> disk)
    else (false, disk).
Proof.
  unfold outputResults. destruct (writable result_path); [|done].
  by rewrite written_lines, append_assoc.
Qed.

(** X27.  [outputResults] fails, and writes nothing, when the result file
    cannot be opened.  Otherwise it replaces the file by a header line and
    one line [name|value] for each entry of the results -- in descending
    order of the values when the comparison of [double]s is a strict weak
    ordering -- and leaves every other file alone.  Read back line by line
    and split with [splitPipe], the file gives the names and the printed
    values again, provided no name holds a ['|'] or a line break. *)
Theorem outputResults_writes_a_line_for_each_result disk (writable : string → bool)
    (result_path : string) results :
  (writable result_path = false →
     outputResults disk writable result_path results = (false, disk)) ∧
  (writable result_path = true →
     ∃ (sorted : list (string * double)) (text : string),
       outputResults disk writable result_path results
         = (true, <[result_path := text]> disk) ∧
       sorted ≡ₚ map_to_list results ∧
       (strict_weak dgt → StronglySorted (λ a b, dgt b.2 a.2 = false) sorted) ∧
       text = terminated Utilities.newline
                ("N_NAME|REVENUE"
                 :: ((λ pair, pair.1 +:+ ("|" +:+ to_string pair.2)) <$> sorted)) ∧
       (prints_plainly → (∀ name, is_Some (results !! name) → plain_name name) →
          ∃ lines, getlines Utilities.newline text = "N_NAME|REVENUE" :: lines ∧
            Utilities.splitPipe <$> lines
            = (λ pair, [pair.1; to_string pair.2]) <$> sorted)).
Proof.
  rewrite outputResults_text. split; [by intros ->|]. intros ->.
  set (sorted := std_sort _ (items results)).
  assert (sorted ≡ₚ map_to_list results) as Hperm.
  { unfold sorted. by rewrite std_sort_perm, items_perm. }
  exists sorted, (terminated Utilities.newline
                    ("N_NAME|REVENUE"
                     :: ((λ pair, pair.1 +:+ ("|" +:+ to_string pair.2)) <$> sorted))).
  split_and!.
  - done.
  - done.
  - intros [Hirr Htrans Hinc].
    apply (std_sort_sorted _ (λ a b : string * double, dgt a.2 b.2)).
    split; [intros x; apply Hirr|intros x y z; apply Htrans|intros x y z; apply Hinc].
  - done.
  - intros Hprints Hnames.
    exists ((λ pair, pair.1 +:+ ("|" +:+ to_string pair.2)) <$> sorted).
    assert (Forall (λ pair : string * double, plain_name pair.1) sorted) as Hplain.
    { apply Forall_forall. intros [name x] Hin. apply Hnames.
      rewrite Hperm in Hin. apply elem_of_map_to_list in Hin. by eexists. }
    split.
    + apply getlines_terminated. constructor; [done|].
      apply Forall_fmap. eapply Forall_impl; [exact Hplain|].
      intros [name x] Hname. by apply result_line_fields.
    + rewrite <-list_fmap_compose. apply Forall_fmap_ext.
      eapply Forall_impl; [exact Hplain|].
      intros [name x] Hname. by apply result_line_fields.
Qed.
End outputResults_facts.

Section main_facts.
Import Query5.
Context `{Double} `{StdSort} `{StdStoi}.

End main_facts.



(** * How the clauses go together *)

Section join_relations.
Import QueryClauses.
Implicit Types (left_table right_table : Table) (cond : Row → Row → bool).

Lemma sublist_bind {A B} (f g : A → list B) (l : list A) :
  (∀ x, sublist (f x) (g x)) → sublist (l ≫= f) (l ≫= g).
Proof.
  intros Hfg. induction l as [|x l IH]; [done|]. rewrite !bind_cons. by apply sublist_app.
Qed.

Lemma length_bind_const {A B} (f : A → list B) (l : list A) (n : nat) :
  (∀ x, length (f x) = n) → length (l ≫= f) = length l * n.
Proof.
  intros Hf. induction l as [|x l IH]; [done|].
  rewrite bind_cons, length_app, Hf, IH. simpl. lia.
Qed.

Lemma bind_singletons {A} (l : list A) : l ≫= (λ x, [x]) = l.
Proof. induction l as [|x l IH]; [done|]. by rewrite bind_cons, IH. Qed.

Lemma bind_nothing {A B} (l : list A) : l ≫= (λ _, @nil B) = [].
Proof. by induction l. Qed.

(** X29.  [CROSS_JOIN] returns a row for every pair of a left and a right
    row, and is [INNER_JOIN] under a condition that always holds.  The rows
    of [INNER_JOIN] are rows of [CROSS_JOIN] and of [LEFT_JOIN] under the
    same condition, in the same order, and [LEFT_JOIN] returns at least one
    row for each left row.  Against an empty right table, or under a
    condition that never holds, [INNER_JOIN] returns nothing and
    [LEFT_JOIN] the left table. *)
Theorem joins_relate left_table right_table cond :
  length (CROSS_JOIN left_table right_table) = length left_table * length right_table ∧
  INNER_JOIN left_table right_table (λ _ _, true) = CROSS_JOIN left_table right_table ∧
  sublist (INNER_JOIN left_table right_table cond) (CROSS_JOIN left_table right_table) ∧
  sublist (INNER_JOIN left_table right_table cond)
    (LEFT_JOIN left_table right_table cond) ∧
  length left_table ≤ length (LEFT_JOIN left_table right_table cond) ∧
  INNER_JOIN left_table [] cond = [] ∧
  LEFT_JOIN left_table [] cond = left_table ∧
  INNER_JOIN left_table right_table (λ _ _, false) = [] ∧
  LEFT_JOIN left_table right_table (λ _ _, false) = left_table.
Proof.
  rewrite !INNER_JOIN_nested, !LEFT_JOIN_nested, !CROSS_JOIN_nested. split_and!.
  - apply length_bind_const. intros l. by rewrite length_fmap.
  - f_equal. rewrite filter_keeps_all; [done|]. by apply Forall_forall.
  - apply sublist_bind. intros l. apply fmap_sublist, sublist_filter.
  - apply sublist_bind. intros l.
    destruct (filter (λ r, cond l r) right_table); [apply sublist_nil_l|done].
  - induction left_table as [|l left_table IH]; [done|].
    rewrite bind_cons, length_app.
    destruct (filter (λ r, cond l r) right_table); simpl in *; lia.
  - apply bind_nothing.
  - apply bind_singletons.
  - rewrite filter_drops_all; [apply bind_nothing|]. apply Forall_forall. by intros r _ [].
  - rewrite filter_drops_all; [apply bind_singletons|].
    apply Forall_forall. by intros r _ [].
Qed.
End join_relations.

Section date_filter.
Import Query5.
Implicit Types (orders : Table) (start_date end_date : string).

Lemma in_date_range_throws start_date end_date (row : Row) :
  ¬ has "O_ORDERDATE" row → throws (in_date_range start_date end_date row).
Proof.
  intros Hrow. unfold in_date_range, at_.
  destruct (row !! "O_ORDERDATE") as [date|] eqn:Hdate.
  - destruct Hrow. by exists date.
  - by exists OutOfRange.
Qed.

Lemma WHERE_throws (predicate : Row → outcome bool) (table : Table) :
  Exists (λ row, throws (predicate row)) table → throws (SqlHelper.WHERE table predicate).
Proof.
  intros Hex. unfold SqlHelper.WHERE.
  by apply (foldM_store_throws predicate
           (λ (result : Table) row (keep : bool), if keep then result ++ [row] else result)).
Qed.

(** X30.  The date test of [executeQuery5] keeps the orders dated from
    [start_date] up to, but not including, [end_date], by comparison of the
    texts.  On a table whose orders all have [O_ORDERDATE] it is the same
    as [WHERE_AND] with [GREATER_EQUAL] and [LESS_THAN]; an order without
    the column makes the query's test throw, where the predicate builders
    would drop the row. *)
Theorem date_filter_is_WHERE_AND_of_the_builders orders start_date end_date :
  QueryClauses.WHERE_AND orders
    [QueryClauses.GREATER_EQUAL "O_ORDERDATE" start_date;
     QueryClauses.LESS_THAN "O_ORDERDATE" end_date]
    = Ret (filter (λ row, in_range start_date end_date row) orders) ∧
  (Forall (has "O_ORDERDATE") orders →
     SqlHelper.WHERE orders (in_date_range start_date end_date)
     = Ret (filter (λ row, in_range start_date end_date row) orders)) ∧
  (¬ Forall (has "O_ORDERDATE") orders →
     throws (SqlHelper.WHERE orders (in_date_range start_date end_date))) ∧
  (∀ row date, row !! "O_ORDERDATE" = Some date →
     in_range start_date end_date row
     = negb (String.ltb date start_date) && String.ltb date end_date).
Proof.
  split_and!.
  - unfold QueryClauses.WHERE_AND.
    rewrite (WHERE_filter_from (in_range start_date end_date)); [done|].
    apply Forall_forall. intros row _. simpl.
    unfold QueryClauses.GREATER_EQUAL, QueryClauses.LESS_THAN, in_range. simpl.
    destruct (row !! "O_ORDERDATE") as [date|]; simpl.
    + by destruct (string_ge date start_date), (string_lt date end_date).
    + done.
  - apply in_date_range_filter.
  - intros Hnot. apply WHERE_throws. apply not_Forall_Exists in Hnot; [|apply _].
    eapply Exists_impl; [exact Hnot|]. intros row. apply in_date_range_throws.
  - intros row date Hrow. unfold in_range. by rewrite Hrow.
Qed.
End date_filter.
